(** * PyAddressSet: address sets stored in a red-black tree

    A shallow embedding of [address_set.py] and of the concrete part of
    [address_set_view.py].  Python objects that are mutated in place (tree
    nodes, trees, address sets) live in an explicit store and are referred to
    by location; [Address] and [AddressRange] objects are never assigned to
    after construction and are embedded as values.  Methods that assign to
    attributes are computations in a state-and-error monad [M]; methods that
    only read are computations in the reader-and-error monad [Rd]. *)

From Stdlib Require Import ZArith Lia.
From stdpp Require Import base option list sorting sets.

Set Default Proof Using "Type".
#[local] Set Warnings "-clear-no-such-hyp".

(** ** Outcomes of a call *)

(** The three Python exceptions the sources can raise, a dangling reference
    (an attribute read on a location that holds no object) and an exhausted
    iteration budget of a [while] loop. *)
Inductive error := ValueError | TypeError | AttributeError | BadRef | OutOfFuel.

Inductive result (A : Type) : Type :=
| Ok (a : A)
| Err (e : error).
Arguments Ok {A} a.
Arguments Err {A} e.

Abbreviation loc := nat (only parsing).

(** ** class Address *)
Module Address.
Record t := mk { offset : Z }.

(* __lt__, __le__, __eq__ *)
Definition lt (self other : t) : bool := (offset self <? offset other)%Z.
Definition le (self other : t) : bool := (offset self <=? offset other)%Z.
Definition eq (self other : t) : bool := (offset self =? offset other)%Z.

Definition next (self : t) : t := mk (offset self + 1).
Definition previous (self : t) : t := mk (offset self - 1).
Definition subtract (self other : t) : Z := (offset self - offset other)%Z.

(* [max(a, b)] keeps [a] unless [b > a]; [Address] has no [__gt__], so
   Python evaluates the reflected [a < b].  [min(a, b)] keeps [a] unless
   [b < a]. *)
Definition max (a b : t) : t := if lt a b then b else a.
Definition min (a b : t) : t := if lt b a then b else a.
End Address.

(** Comparisons on attribute values that may hold [None] (the sentinel's key
    and value). *)
Definition py_lt (a b : option Address.t) : result bool :=
  match a, b with
  | Some a, Some b => Ok (Address.lt a b)
  | Some _, None => Err AttributeError
  | None, _ => Err TypeError
  end.

(* [a > b] on addresses is the reflected [b < a]. *)
Definition py_gt (a b : option Address.t) : result bool :=
  match a, b with
  | Some a, Some b => Ok (Address.lt b a)
  | _, _ => Err TypeError
  end.

(** ** class AddressRange *)
Module AddressRange.
Record t := mk { start : Address.t; end_ : Address.t }.

(* __init__ *)
Definition init (start end_ : Address.t) : result t :=
  if Address.lt end_ start then Err ValueError else Ok (mk start end_).

Definition contains (self : t) (addr : Address.t) : bool :=
  Address.le (start self) addr && Address.le addr (end_ self).

Definition get_min_address (self : t) : Address.t := start self.
Definition get_max_address (self : t) : Address.t := end_ self.

Definition get_length (self : t) : Z :=
  (Address.offset (end_ self) - Address.offset (start self) + 1)%Z.
End AddressRange.

(** ** class RBNode *)
Module RBNode.
Definition RED := true.
Definition BLACK := false.

Record t := mk {
  key : option Address.t;
  value : option Address.t;
  color : bool;
  left : loc;
  right : loc;
  parent : loc
}.

Definition set_color (c : bool) (n : t) : t :=
  mk (key n) (value n) c (left n) (right n) (parent n).
Definition set_left (l : loc) (n : t) : t :=
  mk (key n) (value n) (color n) l (right n) (parent n).
Definition set_right (r : loc) (n : t) : t :=
  mk (key n) (value n) (color n) (left n) r (parent n).
Definition set_parent (p : loc) (n : t) : t :=
  mk (key n) (value n) (color n) (left n) (right n) p.
End RBNode.

(** The attributes of the two container objects. *)
Module Obj.
Record RedBlackTree := mkTree { nil : loc; root : loc }.
Record AddressSet := mkSet { tree : loc; address_count : Z }.

Definition set_root (r : loc) (t : RedBlackTree) : RedBlackTree :=
  mkTree (nil t) r.
Definition set_address_count (c : Z) (s : AddressSet) : AddressSet :=
  mkSet (tree s) c.
End Obj.

(** ** The store *)
Record heap := mkHeap {
  nodes : list RBNode.t;
  trees : list Obj.RedBlackTree;
  sets : list Obj.AddressSet
}.

Definition empty_heap : heap := mkHeap [] [] [].

(** ** The two monads *)
Definition Rd (A : Type) : Type := heap → result A.
Definition M (A : Type) : Type := heap → result (A * heap).

Definition retR {A} (a : A) : Rd A := λ _, Ok a.
Definition bindR {A B} (m : Rd A) (k : A → Rd B) : Rd B :=
  λ h, match m h with Ok a => k a h | Err e => Err e end.
Definition liftR {A} (r : result A) : Rd A := λ _, r.

Definition ret {A} (a : A) : M A := λ h, Ok (a, h).
Definition bind {A B} (m : M A) (k : A → M B) : M B :=
  λ h, match m h with Ok (a, h') => k a h' | Err e => Err e end.
Definition raise {A} (e : error) : M A := λ _, Err e.
Definition rd {A} (m : Rd A) : M A :=
  λ h, match m h with Ok a => Ok (a, h) | Err e => Err e end.

Notation "'let?' x ':=' m 'in' k" := (bindR m (λ x, k))
  (at level 10, x name, m at level 100, k at level 200).
Notation "'let!' x ':=' m 'in' k" := (bind m (λ x, k))
  (at level 10, x name, m at level 100, k at level 200).
Notation "'do!' m 'in' k" := (bind m (λ _, k))
  (at level 10, m at level 100, k at level 200).

(** [for x in xs: body] over an already evaluated sequence. *)
Fixpoint for_each {A} (xs : list A) (body : A → M unit) : M unit :=
  match xs with
  | [] => ret tt
  | x :: xs => do! body x in for_each xs body
  end.

(** Attribute reads and writes. *)
Definition node_get {A} (f : RBNode.t → A) (n : loc) : Rd A :=
  λ h, match nodes h !! n with Some nd => Ok (f nd) | None => Err BadRef end.
Definition node_set (f : RBNode.t → RBNode.t) (n : loc) : M unit :=
  λ h, match nodes h !! n with
       | Some _ => Ok (tt, mkHeap (alter f n (nodes h)) (trees h) (sets h))
       | None => Err BadRef
       end.
Definition tree_get {A} (f : Obj.RedBlackTree → A) (t : loc) : Rd A :=
  λ h, match trees h !! t with Some o => Ok (f o) | None => Err BadRef end.
Definition tree_set (f : Obj.RedBlackTree → Obj.RedBlackTree) (t : loc) : M unit :=
  λ h, match trees h !! t with
       | Some _ => Ok (tt, mkHeap (nodes h) (alter f t (trees h)) (sets h))
       | None => Err BadRef
       end.
Definition set_get {A} (f : Obj.AddressSet → A) (s : loc) : Rd A :=
  λ h, match sets h !! s with Some o => Ok (f o) | None => Err BadRef end.
Definition set_set (f : Obj.AddressSet → Obj.AddressSet) (s : loc) : M unit :=
  λ h, match sets h !! s with
       | Some _ => Ok (tt, mkHeap (nodes h) (trees h) (alter f s (sets h)))
       | None => Err BadRef
       end.

(** Object creation: the new object gets the next unused location. *)
Definition new_node (nd : RBNode.t) : M loc :=
  λ h, Ok (length (nodes h), mkHeap (nodes h ++ [nd]) (trees h) (sets h)).
Definition new_tree (o : Obj.RedBlackTree) : M loc :=
  λ h, Ok (length (trees h), mkHeap (nodes h) (trees h ++ [o]) (sets h)).
Definition new_set (o : Obj.AddressSet) : M loc :=
  λ h, Ok (length (sets h), mkHeap (nodes h) (trees h) (sets h ++ [o])).

(** No loop of a tree method can run for more iterations than there are node
    objects unless the links are cyclic; this is the iteration budget. *)
Definition node_count : Rd nat := λ h, Ok (length (nodes h)).

Definition loc_eqb (a b : loc) : bool := Nat.eqb a b.

(** ** class RedBlackTree *)
Module RedBlackTree.

(* __init__: the sentinel is black and all three of its links point to
   itself before the constructor returns. *)
Definition init : M loc :=
  let! nil := (λ h, new_node (RBNode.mk None None RBNode.BLACK
                                (length (nodes h)) (length (nodes h))
                                (length (nodes h))) h) in
  new_tree (Obj.mkTree nil nil).

Definition left_rotate (self x : loc) : M unit :=
  let! y := rd (node_get RBNode.right x) in
  let! yl := rd (node_get RBNode.left y) in
  do! node_set (RBNode.set_right yl) x in
  let! yl := rd (node_get RBNode.left y) in
  let! nil := rd (tree_get Obj.nil self) in
  do! (if negb (loc_eqb yl nil) then node_set (RBNode.set_parent x) yl
       else ret tt) in
  let! xp := rd (node_get RBNode.parent x) in
  do! node_set (RBNode.set_parent xp) y in
  let! xp := rd (node_get RBNode.parent x) in
  do! (if loc_eqb xp nil then tree_set (Obj.set_root y) self
       else
         let! xpl := rd (node_get RBNode.left xp) in
         if loc_eqb x xpl then node_set (RBNode.set_left y) xp
         else node_set (RBNode.set_right y) xp) in
  do! node_set (RBNode.set_left x) y in
  node_set (RBNode.set_parent y) x.

Definition right_rotate (self y : loc) : M unit :=
  let! x := rd (node_get RBNode.left y) in
  let! xr := rd (node_get RBNode.right x) in
  do! node_set (RBNode.set_left xr) y in
  let! xr := rd (node_get RBNode.right x) in
  let! nil := rd (tree_get Obj.nil self) in
  do! (if negb (loc_eqb xr nil) then node_set (RBNode.set_parent y) xr
       else ret tt) in
  let! yp := rd (node_get RBNode.parent y) in
  do! node_set (RBNode.set_parent yp) x in
  let! yp := rd (node_get RBNode.parent y) in
  do! (if loc_eqb yp nil then tree_set (Obj.set_root x) self
       else
         let! ypr := rd (node_get RBNode.right yp) in
         if loc_eqb y ypr then node_set (RBNode.set_right x) yp
         else node_set (RBNode.set_left x) yp) in
  do! node_set (RBNode.set_right y) x in
  node_set (RBNode.set_parent x) y.

(* z.key < x.key *)
Definition key_lt (z x : loc) : Rd bool :=
  let? kz := node_get RBNode.key z in
  let? kx := node_get RBNode.key x in
  liftR (py_lt kz kx).

(* z.parent.parent *)
Definition grandparent (z : loc) : Rd loc :=
  let? zp := node_get RBNode.parent z in
  node_get RBNode.parent zp.

(* The [while z.parent.color == RED] loop of [insert_fixup]. *)
Fixpoint insert_fixup_loop (fuel : nat) (self z : loc) : M unit :=
  let! zp := rd (node_get RBNode.parent z) in
  let! c := rd (node_get RBNode.color zp) in
  if eqb c RBNode.RED then
    match fuel with
    | O => raise OutOfFuel
    | S fuel =>
      let! zp := rd (node_get RBNode.parent z) in
      let! zpp := rd (grandparent z) in
      let! zppl := rd (node_get RBNode.left zpp) in
      if loc_eqb zp zppl then
        let! y := rd (node_get RBNode.right zpp) in
        let! yc := rd (node_get RBNode.color y) in
        if eqb yc RBNode.RED then
          do! node_set (RBNode.set_color RBNode.BLACK) zp in
          do! node_set (RBNode.set_color RBNode.BLACK) y in
          let! zpp := rd (grandparent z) in
          do! node_set (RBNode.set_color RBNode.RED) zpp in
          let! z := rd (grandparent z) in
          insert_fixup_loop fuel self z
        else
          let! zpr := rd (node_get RBNode.right zp) in
          let! z := (if loc_eqb z zpr then
                       do! left_rotate self zp in ret zp
                     else ret z) in
          let! zp := rd (node_get RBNode.parent z) in
          do! node_set (RBNode.set_color RBNode.BLACK) zp in
          let! zpp := rd (grandparent z) in
          do! node_set (RBNode.set_color RBNode.RED) zpp in
          let! zpp := rd (grandparent z) in
          do! right_rotate self zpp in
          insert_fixup_loop fuel self z
      else
        let! y := rd (node_get RBNode.left zpp) in
        let! yc := rd (node_get RBNode.color y) in
        if eqb yc RBNode.RED then
          do! node_set (RBNode.set_color RBNode.BLACK) zp in
          do! node_set (RBNode.set_color RBNode.BLACK) y in
          let! zpp := rd (grandparent z) in
          do! node_set (RBNode.set_color RBNode.RED) zpp in
          let! z := rd (grandparent z) in
          insert_fixup_loop fuel self z
        else
          let! zpl := rd (node_get RBNode.left zp) in
          let! z := (if loc_eqb z zpl then
                       do! right_rotate self zp in ret zp
                     else ret z) in
          let! zp := rd (node_get RBNode.parent z) in
          do! node_set (RBNode.set_color RBNode.BLACK) zp in
          let! zpp := rd (grandparent z) in
          do! node_set (RBNode.set_color RBNode.RED) zpp in
          let! zpp := rd (grandparent z) in
          do! left_rotate self zpp in
          insert_fixup_loop fuel self z
    end
  else ret tt.

Definition insert_fixup (self z : loc) : M unit :=
  let! fuel := rd node_count in
  do! insert_fixup_loop fuel self z in
  let! r := rd (tree_get Obj.root self) in
  node_set (RBNode.set_color RBNode.BLACK) r.

(* The [while x != self.nil] loop of [insert]; returns the final [y]. *)
Fixpoint insert_loop (fuel : nat) (self z y x : loc) : Rd loc :=
  let? nil := tree_get Obj.nil self in
  if negb (loc_eqb x nil) then
    match fuel with
    | O => liftR (Err OutOfFuel)
    | S fuel =>
      let? b := key_lt z x in
      let? x' := (if b then node_get RBNode.left x
                  else node_get RBNode.right x) in
      insert_loop fuel self z x x'
    end
  else retR y.

Definition insert (self : loc) (key value : Address.t) : M unit :=
  let! nil := rd (tree_get Obj.nil self) in
  let! z := new_node (RBNode.mk (Some key) (Some value) RBNode.RED nil nil nil) in
  let! y := rd (tree_get Obj.nil self) in
  let! x := rd (tree_get Obj.root self) in
  let! fuel := rd node_count in
  let! y := rd (insert_loop fuel self z y x) in
  do! node_set (RBNode.set_parent y) z in
  let! nil := rd (tree_get Obj.nil self) in
  do! (if loc_eqb y nil then tree_set (Obj.set_root z) self
       else
         let! b := rd (key_lt z y) in
         if b then node_set (RBNode.set_left z) y
         else node_set (RBNode.set_right z) y) in
  do! node_set (RBNode.set_left nil) z in
  do! node_set (RBNode.set_right nil) z in
  do! node_set (RBNode.set_color RBNode.RED) z in
  insert_fixup self z.

(* The generator [_inorder(node)], run to exhaustion. *)
Fixpoint _inorder (fuel : nat) (nil node : loc) : Rd (list loc) :=
  if negb (loc_eqb node nil) then
    match fuel with
    | O => liftR (Err OutOfFuel)
    | S fuel =>
      let? l := node_get RBNode.left node in
      let? ls := _inorder fuel nil l in
      let? r := node_get RBNode.right node in
      let? rs := _inorder fuel nil r in
      retR (ls ++ node :: rs)
    end
  else retR [].

Definition inorder (self : loc) : Rd (list loc) :=
  let? nil := tree_get Obj.nil self in
  let? root := tree_get Obj.root self in
  let? fuel := node_count in
  _inorder fuel nil root.

Fixpoint find_loop (fuel : nat) (self : loc) (addr : Address.t) (node : loc)
  : Rd (option loc) :=
  let? nil := tree_get Obj.nil self in
  if negb (loc_eqb node nil) then
    match fuel with
    | O => liftR (Err OutOfFuel)
    | S fuel =>
      let? k := node_get RBNode.key node in
      let? b := liftR (py_lt (Some addr) k) in
      if b then
        let? l := node_get RBNode.left node in
        find_loop fuel self addr l
      else
        let? v := node_get RBNode.value node in
        let? b := liftR (py_gt (Some addr) v) in
        if b then
          let? r := node_get RBNode.right node in
          find_loop fuel self addr r
        else retR (Some node)
    end
  else retR None.

Definition find_range_containing (self : loc) (addr : Address.t)
  : Rd (option loc) :=
  let? node := tree_get Obj.root self in
  let? fuel := node_count in
  find_loop fuel self addr node.

End RedBlackTree.

(** Python values that can be passed as positional arguments. *)
Inductive pyval :=
| PyNone
| PyInt (n : Z)
| PyAddress (a : Address.t)
| PyAddressRange (r : AddressRange.t)
| PyAddressSet (s : loc).

(** ** class AddressSet *)
Module AddressSet.

Definition add (self : loc) (range_ : AddressRange.t) : M unit :=
  let! t := rd (set_get Obj.tree self) in
  do! RedBlackTree.insert t (AddressRange.start range_) (AddressRange.end_ range_) in
  let! c := rd (set_get Obj.address_count self) in
  set_set (Obj.set_address_count (c + AddressRange.get_length range_)) self.

(* __init__ *)
Definition init (init_range : option AddressRange.t) : M loc :=
  let! t := RedBlackTree.init in
  let! self := new_set (Obj.mkSet t 0) in
  do! (match init_range with
       | Some r => add self r
       | None => ret tt
       end) in
  ret self.

(* AddressRange(node.key, node.value) *)
Definition node_range (node : loc) : Rd AddressRange.t :=
  let? k := node_get RBNode.key node in
  let? v := node_get RBNode.value node in
  let? b := liftR (py_lt v k) in
  match k, v with
  | Some k, Some v => if b then liftR (Err ValueError)
                      else retR (AddressRange.mk k v)
  | _, _ => liftR (Err TypeError)
  end.

Fixpoint node_ranges (ns : list loc) : Rd (list AddressRange.t) :=
  match ns with
  | [] => retR []
  | n :: ns =>
    let? r := node_range n in
    let? rs := node_ranges ns in
    retR (r :: rs)
  end.

(* The generator [get_address_ranges], run to exhaustion. *)
Definition get_address_ranges (self : loc) : Rd (list AddressRange.t) :=
  let? t := set_get Obj.tree self in
  let? ns := RedBlackTree.inorder t in
  node_ranges ns.

Definition get_num_addresses (self : loc) : Rd Z :=
  set_get Obj.address_count self.

(* contains(addr) *)
Definition contains_address (self : loc) (addr : Address.t) : Rd bool :=
  let? t := set_get Obj.tree self in
  let? node := RedBlackTree.find_range_containing t addr in
  retR (match node with Some _ => true | None => false end).

(* The [while addr <= end] loop of contains(start, end). *)
Fixpoint contains_loop (fuel : nat) (self : loc) (addr end_ : Address.t)
  : Rd bool :=
  if Address.le addr end_ then
    match fuel with
    | O => liftR (Err OutOfFuel)
    | S fuel =>
      let? b := contains_address self addr in
      if negb b then retR false
      else contains_loop fuel self (Address.next addr) end_
    end
  else retR true.

Definition contains_range (self : loc) (start end_ : Address.t) : Rd bool :=
  contains_loop (Z.to_nat (Address.offset end_ - Address.offset start + 1))
                self start end_.

Fixpoint contains_ranges (self : loc) (rs : list AddressRange.t) : Rd bool :=
  match rs with
  | [] => retR true
  | r :: rs =>
    let? b := contains_range self (AddressRange.get_min_address r)
                             (AddressRange.get_max_address r) in
    if negb b then retR false else contains_ranges self rs
  end.

(* contains(other_set) *)
Definition contains_view (self other : loc) : Rd bool :=
  let? rs := get_address_ranges other in
  contains_ranges self rs.

Definition contains (self : loc) (args : list pyval) : Rd bool :=
  match args with
  | [PyAddress addr] => contains_address self addr
  | [PyAddress start; PyAddress end_] => contains_range self start end_
  | [PyAddressSet other] => contains_view self other
  | _ => liftR (Err TypeError)
  end.

Definition intersect_pair (result : loc) (r1 r2 : AddressRange.t) : M unit :=
  let start := Address.max (AddressRange.get_min_address r1)
                           (AddressRange.get_min_address r2) in
  let end_ := Address.min (AddressRange.get_max_address r1)
                          (AddressRange.get_max_address r2) in
  if Address.le start end_ then
    let! r := rd (liftR (AddressRange.init start end_)) in
    add result r
  else ret tt.

Definition intersect (self other : loc) : M loc :=
  let! result := init None in
  let! rs1 := rd (get_address_ranges self) in
  do! for_each rs1 (λ r1,
        let! rs2 := rd (get_address_ranges other) in
        for_each rs2 (λ r2, intersect_pair result r1 r2)) in
  ret result.

Definition union (self other : loc) : M loc :=
  let! result := init None in
  let! rs := rd (get_address_ranges self) in
  do! for_each rs (λ r, add result r) in
  let! rs := rd (get_address_ranges other) in
  do! for_each rs (λ r, add result r) in
  ret result.

End AddressSet.

(** ** class AddressSet of address_set_view.py

    address_set_view.py imports nothing from address_set.py: the
    [AddressSet] that [trim_start] and [trim_end] instantiate is the class
    declared in address_set_view.py itself.  Its instances carry no
    attribute and its [add(self, *args)] has the body [pass]. *)
Module ViewAddressSet.
Inductive t := mk.

(* AddressSet() *)
Definition init : M t := ret mk.

(* add(self, *args): pass *)
Definition add (self : t) (args : list pyval) : M unit := ret tt.
End ViewAddressSet.

(** ** class AddressSetView (address_set_view.py) *)
Module AddressSetView.

(* [x > 0] on what [compare_to] returned. *)
Definition gt_zero (x : pyval) : result bool :=
  match x with
  | PyInt n => Ok (0 <? n)%Z
  | _ => Err TypeError
  end.

(* [x < 0] on what [compare_to] returned. *)
Definition lt_zero (x : pyval) : result bool :=
  match x with
  | PyInt n => Ok (n <? 0)%Z
  | _ => Err TypeError
  end.

Section trim.
(* What [min_addr.compare_to(addr)] evaluates to. *)
Variable compare_to : Address.t → Address.t → result pyval.

Definition trim_start_body (trimmed_set : ViewAddressSet.t) (addr : Address.t)
    (range_ : AddressRange.t) : M unit :=
  let min_addr := AddressRange.get_min_address range_ in
  let max_addr := AddressRange.get_max_address range_ in
  let! c := rd (liftR (compare_to min_addr addr)) in
  let! b := rd (liftR (gt_zero c)) in
  if (b : bool) then ViewAddressSet.add trimmed_set [PyAddressRange range_]
  else
    let! c := rd (liftR (compare_to max_addr addr)) in
    let! b := rd (liftR (gt_zero c)) in
    if (b : bool) then
      ViewAddressSet.add trimmed_set
        [PyAddress (Address.next addr); PyAddress max_addr]
    else ret tt.

Definition trim_start (set_ : loc) (addr : Address.t) : M ViewAddressSet.t :=
  let! trimmed_set := ViewAddressSet.init in
  let! rs := rd (AddressSet.get_address_ranges set_) in
  do! for_each rs (trim_start_body trimmed_set addr) in
  ret trimmed_set.

Definition trim_end_body (trimmed_set : ViewAddressSet.t) (addr : Address.t)
    (range_ : AddressRange.t) : M unit :=
  let min_addr := AddressRange.get_min_address range_ in
  let max_addr := AddressRange.get_max_address range_ in
  let! c := rd (liftR (compare_to max_addr addr)) in
  let! b := rd (liftR (lt_zero c)) in
  if (b : bool) then ViewAddressSet.add trimmed_set [PyAddressRange range_]
  else
    let! c := rd (liftR (compare_to min_addr addr)) in
    let! b := rd (liftR (lt_zero c)) in
    if (b : bool) then
      ViewAddressSet.add trimmed_set
        [PyAddress min_addr; PyAddress (Address.previous addr)]
    else ret tt.

Definition trim_end (set_ : loc) (addr : Address.t) : M ViewAddressSet.t :=
  let! trimmed_set := ViewAddressSet.init in
  let! rs := rd (AddressSet.get_address_ranges set_) in
  do! for_each rs (trim_end_body trimmed_set addr) in
  ret trimmed_set.

(* The loop of [get_address_count_before] over the ranges still to come,
   with the value of [count] so far. *)
Fixpoint count_before_loop (rs : list AddressRange.t) (address : Address.t)
    (count : Z) : result Z :=
  match rs with
  | [] => Ok count
  | range_ :: rs' =>
    match compare_to (AddressRange.get_min_address range_) address with
    | Err e => Err e
    | Ok c =>
      match gt_zero c with
      | Err e => Err e
      | Ok true => Ok count
      | Ok false =>
        if AddressRange.contains range_ address
        then Ok (count + Address.subtract address
                           (AddressRange.get_min_address range_))%Z
        else count_before_loop rs' address
               (count + AddressRange.get_length range_)%Z
      end
    end
  end.

(* The method, on a view whose [get_address_ranges] is that of
   [AddressSet]. *)
Definition get_address_count_before (self : loc) (address : Address.t) : Rd Z :=
  let? rs := AddressSet.get_address_ranges self in
  liftR (count_before_loop rs address 0%Z).
End trim.

(* [class Address] of address_set.py defines no [compare_to]. *)
Definition no_compare_to (_ _ : Address.t) : result pyval :=
  Err AttributeError.

End AddressSetView.

(** ** Programs used in the scenarios *)

Definition rng (a b : Z) : AddressRange.t :=
  AddressRange.mk (Address.mk a) (Address.mk b).

(** [s = AddressSet(); for r in rs: s.add(r)] *)
Definition add_all (s : loc) (rs : list AddressRange.t) : M unit :=
  for_each rs (AddressSet.add s).

Definition build (init_range : option AddressRange.t) (rs : list AddressRange.t)
  : M loc :=
  let! s := AddressSet.init init_range in
  do! add_all s rs in
  ret s.

(** The value a computation returns, forgetting the final store. *)
Definition value_of {A} (r : result (A * heap)) : result A :=
  match r with Ok (a, _) => Ok a | Err e => Err e end.

(** ** Abstract view of a tree in the store *)

(** The tree of node objects hanging off a location, with the range each
    node carries; colours are left in the store. *)
Inductive shape :=
| Leaf
| Node (n : loc) (rg : AddressRange.t) (l r : shape).

(* The location at the top of a tree: the sentinel for the empty tree. *)
Definition rl (nil : loc) (t : shape) : loc :=
  match t with Leaf => nil | Node n _ _ _ => n end.

(* Nodes and ranges in in-order. *)
Fixpoint elems (t : shape) : list (loc * AddressRange.t) :=
  match t with
  | Leaf => []
  | Node n rg l r => elems l ++ (n, rg) :: elems r
  end.

Definition locs (t : shape) : list loc := (elems t).*1.
Definition ranges (t : shape) : list AddressRange.t := (elems t).*2.

Definition node_is (h : heap) (n : loc) (rg : AddressRange.t) (l r p : loc) : Prop :=
  ∃ c, nodes h !! n =
       Some (RBNode.mk (Some (AddressRange.start rg)) (Some (AddressRange.end_ rg))
                       c l r p).

(* [t] is laid out in the store below a node (or sentinel) [p]. *)
Fixpoint wf_tree (h : heap) (nil p : loc) (t : shape) : Prop :=
  match t with
  | Leaf => True
  | Node n rg l r =>
    node_is h n rg (rl nil l) (rl nil r) p ∧
    wf_tree h nil n l ∧ wf_tree h nil n r
  end.

(** A path from a position in the tree up to the root: each frame is an
    ancestor, the side on which the position lies, and the ancestor's other
    subtree. *)
Inductive dir := Lft | Rgt.

Record frame := Frame {
  fdir : dir;
  fnode : loc;
  frg : AddressRange.t;
  fsib : shape
}.

Definition plug1 (f : frame) (t : shape) : shape :=
  match fdir f with
  | Lft => Node (fnode f) (frg f) t (fsib f)
  | Rgt => Node (fnode f) (frg f) (fsib f) t
  end.

Fixpoint plug (c : list frame) (t : shape) : shape :=
  match c with
  | [] => t
  | f :: c => plug c (plug1 f t)
  end.

Definition top (nil : loc) (c : list frame) : loc :=
  match c with [] => nil | f :: _ => fnode f end.

Fixpoint wf_ctx (h : heap) (nil : loc) (c : list frame) (child : loc) : Prop :=
  match c with
  | [] => True
  | f :: c' =>
    match fdir f with
    | Lft => node_is h (fnode f) (frg f) child (rl nil (fsib f)) (top nil c')
    | Rgt => node_is h (fnode f) (frg f) (rl nil (fsib f)) child (top nil c')
    end ∧
    wf_tree h nil (fnode f) (fsib f) ∧
    wf_ctx h nil c' (fnode f)
  end.

Definition frame_locs (f : frame) : list loc := fnode f :: locs (fsib f).

Fixpoint ctx_locs (c : list frame) : list loc :=
  match c with
  | [] => []
  | f :: c => frame_locs f ++ ctx_locs c
  end.

(* In-order elements to the left and to the right of the position. *)
Fixpoint before (c : list frame) : list (loc * AddressRange.t) :=
  match c with
  | [] => []
  | f :: c =>
    before c ++
    match fdir f with
    | Lft => []
    | Rgt => elems (fsib f) ++ [(fnode f, frg f)]
    end
  end.

Fixpoint after (c : list frame) : list (loc * AddressRange.t) :=
  match c with
  | [] => []
  | f :: c =>
    match fdir f with
    | Lft => (fnode f, frg f) :: elems (fsib f)
    | Rgt => []
    end ++ after c
  end.

Definition is_black (h : heap) (n : loc) : Prop :=
  ∃ nd, nodes h !! n = Some nd ∧ RBNode.color nd = RBNode.BLACK.
Definition is_red (h : heap) (n : loc) : Prop :=
  ∃ nd, nodes h !! n = Some nd ∧ RBNode.color nd = RBNode.RED.

(** Tree object [self], with sentinel [nil], holds the tree [plug c t], seen
    from the position of [t]. *)
Record zip_rep (h : heap) (self nil : loc) (c : list frame) (t : shape) : Prop := {
  zr_obj : trees h !! self = Some (Obj.mkTree nil (rl nil (plug c t)));
  zr_ctx : wf_ctx h nil c (rl nil t);
  zr_tree : wf_tree h nil (top nil c) t;
  zr_nodup : NoDup (locs t ++ ctx_locs c);
  zr_nil : nil ∉ locs t ++ ctx_locs c;
  zr_nilb : is_black h nil
}.

Record tree_rep (h : heap) (self nil : loc) (t : shape) : Prop := {
  tr_zip : zip_rep h self nil [] t;
  tr_root : is_black h (rl nil t)
}.

(* Keys in non-decreasing order. *)
Definition key_le (a b : loc * AddressRange.t) : Prop :=
  (Address.offset (AddressRange.start a.2) ≤ Address.offset (AddressRange.start b.2))%Z.

Definition valid_range (r : AddressRange.t) : Prop :=
  (Address.offset (AddressRange.start r) ≤ Address.offset (AddressRange.end_ r))%Z.

Definition sum_lengths (rs : list AddressRange.t) : Z :=
  foldr (λ r acc, (AddressRange.get_length r + acc)%Z) 0%Z rs.

(** Address set object [s], with tree object [tr] and sentinel [nil], holds
    the ranges of [t]: its counter is the sum of their lengths, every range
    is well formed and the keys are in order. *)
Record set_rep_at (h : heap) (s tr nil : loc) (t : shape) : Prop := {
  sr_obj : sets h !! s = Some (Obj.mkSet tr (sum_lengths (ranges t)));
  sr_tree : tree_rep h tr nil t;
  sr_valid : Forall valid_range (ranges t);
  sr_sorted : StronglySorted key_le (elems t)
}.

Definition set_rep (h : heap) (s : loc) (t : shape) : Prop :=
  ∃ tr nil, set_rep_at h s tr nil t.

(** What a call may have changed: node objects in [F], the tree object
    [self], and nothing else; no object disappears and keys and values stay. *)
Record modifies (F : list loc) (self : loc) (h h' : heap) : Prop := {
  md_len : length (nodes h') = length (nodes h);
  md_nodes : ∀ n, n ∉ F → nodes h' !! n = nodes h !! n;
  md_tlen : length (trees h') = length (trees h);
  md_trees : ∀ t, t ≠ self → trees h' !! t = trees h !! t;
  md_nil : Obj.nil <$> trees h' !! self = Obj.nil <$> trees h !! self;
  md_sets : sets h' = sets h
}.

(** Every object of [h] is still there, unchanged, in [h']. *)
Definition extends (h h' : heap) : Prop :=
  (∀ n x, nodes h !! n = Some x → nodes h' !! n = Some x) ∧
  (∀ n x, trees h !! n = Some x → trees h' !! n = Some x) ∧
  (∀ n x, sets h !! n = Some x → sets h' !! n = Some x).

(** The objects of an address set were all created after the store [h0]. *)
Record fresh_in (h0 : heap) (s tr nil : loc) (t : shape) : Prop := {
  fr_set : length (sets h0) ≤ s;
  fr_tree : length (trees h0) ≤ tr;
  fr_nil : length (nodes h0) ≤ nil;
  fr_nodes : ∀ n, n ∈ locs t → length (nodes h0) ≤ n
}.

Definition same_colors (h h' : heap) : Prop :=
  ∀ n, RBNode.color <$> nodes h' !! n = RBNode.color <$> nodes h !! n.

Definition keep (P : Prop) : Prop := P.

(** The colour attribute of the node object at [n]. *)
Definition color_of (h : heap) (n : loc) : bool :=
  match nodes h !! n with
  | Some nd => RBNode.color nd
  | None => RBNode.BLACK
  end.

Definition upd (n : loc) (b : bool) (cm : loc → bool) : loc → bool :=
  λ m, if decide (m = n) then b else cm m.

(** Black nodes on the leftmost path. *)
Fixpoint bheight (cm : loc → bool) (t : shape) : nat :=
  match t with
  | Leaf => 0
  | Node n _ l _ => bheight cm l + (if cm n then 0 else 1)
  end.

(** The red-black properties below the root: a red node has black children,
    and at every node both subtrees have the same black height. *)
Fixpoint rb_ok (cm : loc → bool) (nil : loc) (t : shape) : Prop :=
  match t with
  | Leaf => True
  | Node n _ l r =>
    rb_ok cm nil l ∧ rb_ok cm nil r ∧ bheight cm l = bheight cm r ∧
    (cm n = true → cm (rl nil l) = false ∧ cm (rl nil r) = false)
  end.

(** The same properties for the path to the root, around a position that
    takes a subtree of black height [k] whose root is red iff [cr]. *)
Fixpoint ctx_ok (cm : loc → bool) (nil : loc) (c : list frame) (cr : bool)
    (k : nat) : Prop :=
  match c with
  | [] => True
  | f :: c' =>
    rb_ok cm nil (fsib f) ∧ bheight cm (fsib f) = k ∧
    (cm (fnode f) = true → cr = false ∧ cm (rl nil (fsib f)) = false) ∧
    ctx_ok cm nil c' (cm (fnode f)) (k + (if cm (fnode f) then 0 else 1))
  end.

Fixpoint height (t : shape) : nat :=
  match t with
  | Leaf => 0
  | Node _ _ l r => S (Nat.max (height l) (height r))
  end.

Definition path_ok (k : Address.t) (c : list frame) : Prop :=
  Forall (λ f, Address.lt k (AddressRange.start (frg f)) =
               match fdir f with Lft => true | Rgt => false end) c.

Record insert_frame (F : list nat) (self : nat) (h h' : heap) : Prop := {
  if_len : length (nodes h') = S (length (nodes h));
  if_nodes : ∀ n, n ∉ F → n < length (nodes h) → nodes h' !! n = nodes h !! n;
  if_tlen : length (trees h') = length (trees h);
  if_trees : ∀ t, t ≠ self → trees h' !! t = trees h !! t;
  if_sets : sets h' = sets h
}.

Record add_frame (F : list nat) (s tr : nat) (h h' : heap) : Prop := {
  af_len : length (nodes h') = S (length (nodes h));
  af_nodes : ∀ n, n ∉ F → n < length (nodes h) → nodes h' !! n = nodes h !! n;
  af_tlen : length (trees h') = length (trees h);
  af_trees : ∀ t, t ≠ tr → trees h' !! t = trees h !! t;
  af_slen : length (sets h') = length (sets h);
  af_sets : ∀ s', s' ≠ s → sets h' !! s' = sets h !! s'
}.

Definition init_list (init : option AddressRange.t) : list AddressRange.t :=
  match init with Some r => [r] | None => [] end.

(** What [intersect] emits for a pair of ranges. *)
Definition inter (r1 r2 : AddressRange.t) : option AddressRange.t :=
  let start := Address.max (AddressRange.get_min_address r1)
                           (AddressRange.get_min_address r2) in
  let end_ := Address.min (AddressRange.get_max_address r1)
                          (AddressRange.get_max_address r2) in
  if Address.le start end_ then Some (AddressRange.mk start end_) else None.

Definition emitted (la lb : list AddressRange.t) : list AddressRange.t :=
  flat_map (λ r1, omap (inter r1) lb) la.

Definition start_le (r1 r2 : AddressRange.t) : Prop :=
  (Address.offset (AddressRange.start r1) ≤ Address.offset (AddressRange.start r2))%Z.

(** The set is laid out in the store as the methods of the class leave it. *)
Definition well_formed (h : heap) (s : loc) : Prop := ∃ t, set_rep h s t.

(** [s = AddressSet(init); for r in rs: s.add(r); list(s.get_address_ranges())] *)
Definition stored_after (h0 : heap) (init : option AddressRange.t)
    (rs : list AddressRange.t) : result (list AddressRange.t) :=
  value_of ((let! s := build init rs in rd (AddressSet.get_address_ranges s)) h0).

(* R1.end.next() < R2.start *)
Definition separated (r1 r2 : AddressRange.t) : Prop :=
  Address.lt (Address.next (AddressRange.end_ r1)) (AddressRange.start r2) = true.

Definition apart (r1 r2 : AddressRange.t) : Prop :=
  separated r1 r2 ∨ separated r2 r1.

Definition valid_init (init : option AddressRange.t) : Prop :=
  ∀ r, init = Some r → valid_range r.

(** What a caller can observe of a set: the ranges it yields and its count. *)
Definition observe (s : loc) : Rd (list AddressRange.t * Z) :=
  let? l := AddressSet.get_address_ranges s in
  let? n := AddressSet.get_num_addresses s in
  retR (l, n).

(** Two sets built in an empty store: [{[10,20],[30,40]}] at location 0 and
    [{[15,35]}] at location 1. *)
Definition example_heap : heap :=
  Eval vm_compute in
    match (do! build None [rng 10 20; rng 30 40] in
           build (Some (rng 15 35)) []) empty_heap with
    | Ok (_, h) => h
    | Err _ => empty_heap
    end.

(** [AddressSetView.trim_start(S, Address(50))] on [S = {[0,100]}], an
    [AddressSet] of address_set.py; [compare_to] is what the call
    [min_addr.compare_to(addr)] does on its addresses. *)
Definition trim_start_scenario
    (compare_to : Address.t → Address.t → result pyval)
  : result ViewAddressSet.t :=
  value_of
    ((let! s := AddressSet.init (Some (rng 0 100)) in
      AddressSetView.trim_start compare_to s (Address.mk 50)) empty_heap).

(* [r1] lies wholly before [r2]. *)
Definition strictly_before (r1 r2 : AddressRange.t) : Prop :=
  (Address.offset (AddressRange.end_ r1) < Address.offset (AddressRange.start r2))%Z.

(* any(r.contains(addr) for r in rs) *)
Definition any_contains (rs : list AddressRange.t) (addr : Address.t) : bool :=
  existsb (λ r, AddressRange.contains r addr) rs.

(* Neither range reaches into the other. *)
Definition disjoint_ranges (r1 r2 : AddressRange.t) : Prop :=
  strictly_before r1 r2 ∨ strictly_before r2 r1.

(** [place r l] puts [r] in front of the first range of [l] that starts
    above it, behind every range that starts at or below it. *)
Fixpoint place (r : AddressRange.t) (l : list AddressRange.t)
  : list AddressRange.t :=
  match l with
  | [] => [r]
  | x :: l' =>
      if Address.lt (AddressRange.start r) (AddressRange.start x)
      then r :: l else x :: place r l'
  end.

Definition example_heap_left : heap :=
  Eval vm_compute in
    match build None [rng 30 40; rng 10 20] empty_heap with
    | Ok (_, h) => h
    | Err _ => empty_heap
    end.

(** A [compare_to] as the annotation [-> int] of the view's [Address]
    promises it: an integer whose sign orders the two addresses. *)
Definition compare_ok (compare_to : Address.t → Address.t → result pyval) : Prop :=
  ∀ a b, ∃ n, compare_to a b = Ok (PyInt n) ∧
              ((0 < n)%Z ↔ (Address.offset b < Address.offset a)%Z) ∧
              ((n < 0)%Z ↔ (Address.offset a < Address.offset b)%Z).

Definition offset_compare_to (a b : Address.t) : result pyval :=
  Ok (PyInt (Address.offset a - Address.offset b)).

(** The addresses of [r] below [a]: none when [r] starts at or above [a],
    all of them when [r] ends below [a]. *)
Definition below (a : Address.t) (r : AddressRange.t) : Z :=
  Z.max 0 (Z.min (Address.offset (AddressRange.end_ r) + 1) (Address.offset a)
           - Address.offset (AddressRange.start r)).

Definition sum_below (a : Address.t) (rs : list AddressRange.t) : Z :=
  foldr (λ r acc, (below a r + acc)%Z) 0%Z rs.

(** The tree of the set [s] is a red-black tree: the sentinel and the root
    are black, a red node has black children, and at every node the left
    and the right subtree have the same black height. *)
Definition red_black (h : heap) (s : loc) : Prop :=
  ∃ tr nil t, set_rep_at h s tr nil t ∧
              color_of h nil = false ∧ color_of h (rl nil t) = false ∧
              rb_ok (color_of h) nil t.

(** A set built in an empty store: [{[5,6],[10,20],[30,40]}] at location 0. *)
Definition balanced_example_heap : heap :=
  Eval vm_compute in
    match build None [rng 10 20; rng 30 40; rng 5 6] empty_heap with
    | Ok (_, h) => h
    | Err _ => empty_heap
    end.

(** A computation keeps the tree of [s] red-black whenever it returns. *)
Definition keeps (s : loc) {A} (m : M A) : Prop :=
  ∀ h a h', red_black h s → m h = Ok (a, h') → red_black h' s.

(** * Proofs *)

(** ** Running the monads *)

Lemma bind_rd_node {A B} (f : RBNode.t → A) n nd (k : A → M B) h :
  nodes h !! n = Some nd → bind (rd (node_get f n)) k h = k (f nd) h.
Proof. intros H. unfold bind, rd, node_get. by rewrite H. Qed.

Lemma bind_node_set {B} f n nd (k : unit → M B) h :
  nodes h !! n = Some nd →
  bind (node_set f n) k h = k tt (mkHeap (alter f n (nodes h)) (trees h) (sets h)).
Proof. intros H. unfold bind, node_set. by rewrite H. Qed.

Lemma node_set_ok f n nd h :
  nodes h !! n = Some nd →
  node_set f n h = Ok (tt, mkHeap (alter f n (nodes h)) (trees h) (sets h)).
Proof. intros H. unfold node_set. by rewrite H. Qed.

Lemma bind_rd_tree {A B} (f : Obj.RedBlackTree → A) t o (k : A → M B) h :
  trees h !! t = Some o → bind (rd (tree_get f t)) k h = k (f o) h.
Proof. intros H. unfold bind, rd, tree_get. by rewrite H. Qed.

Lemma bind_tree_set {B} f t o (k : unit → M B) h :
  trees h !! t = Some o →
  bind (tree_set f t) k h = k tt (mkHeap (nodes h) (alter f t (trees h)) (sets h)).
Proof. intros H. unfold bind, tree_set. by rewrite H. Qed.

Lemma bind_ret {A B} (a : A) (k : A → M B) h : bind (ret a) k h = k a h.
Proof. reflexivity. Qed.

Lemma bind_assoc {A B C} (m : M A) (k : A → M B) (k' : B → M C) h :
  bind (bind m k) k' h = bind m (λ a, bind (k a) k') h.
Proof. unfold bind. destruct (m h) as [[a h']|]; reflexivity. Qed.

Lemma bind_ok {A B} (m : M A) (k : A → M B) h a h' :
  m h = Ok (a, h') → bind m k h = k a h'.
Proof. intros H. unfold bind. by rewrite H. Qed.

Lemma bind_rd_ok {A B} (m : Rd A) (k : A → M B) h a :
  m h = Ok a → bind (rd m) k h = k a h.
Proof. intros H. unfold bind, rd. by rewrite H. Qed.

Lemma bindR_ok {A B} (m : Rd A) (k : A → Rd B) h a :
  m h = Ok a → bindR m k h = k a h.
Proof. intros H. unfold bindR. by rewrite H. Qed.

Lemma bindR_node {A B} (f : RBNode.t → A) n nd (k : A → Rd B) h :
  nodes h !! n = Some nd → bindR (node_get f n) k h = k (f nd) h.
Proof. intros H. unfold bindR, node_get. by rewrite H. Qed.

Lemma bindR_tree {A B} (f : Obj.RedBlackTree → A) t o (k : A → Rd B) h :
  trees h !! t = Some o → bindR (tree_get f t) k h = k (f o) h.
Proof. intros H. unfold bindR, tree_get. by rewrite H. Qed.

Lemma bind_rd_bindR {A B C} (m : Rd A) (k : A → Rd B) (k' : B → M C) h :
  bind (rd (bindR m k)) k' h = bind (rd m) (λ a, bind (rd (k a)) k') h.
Proof. unfold bind, rd, bindR. by destruct (m h). Qed.

Lemma loc_eqb_refl a : loc_eqb a a = true.
Proof. apply Nat.eqb_refl. Qed.

Lemma loc_eqb_ne a b : a ≠ b → loc_eqb a b = false.
Proof. intros. by apply Nat.eqb_neq. Qed.

(** Distinctness of node objects, read off a [NoDup] hypothesis. *)

Lemma NoDup_app_ne (l1 l2 : list nat) a b :
  NoDup (l1 ++ l2) → a ∈ l1 → b ∈ l2 → a ≠ b.
Proof. intros (_ & H & _)%NoDup_app Ha Hb ->. by eapply H. Qed.

Lemma NoDup_cons_ne (l : list nat) a b : NoDup (a :: l) → b ∈ l → a ≠ b.
Proof. intros (H & _)%NoDup_cons Hb ->. done. Qed.

Lemma NoDup_app_left (l1 l2 : list nat) : NoDup (l1 ++ l2) → NoDup l1.
Proof. by intros (? & _ & _)%NoDup_app. Qed.

Lemma NoDup_app_right (l1 l2 : list nat) : NoDup (l1 ++ l2) → NoDup l2.
Proof. by intros (_ & _ & ?)%NoDup_app. Qed.

Lemma NoDup_cons_tail (l : list nat) a : NoDup (a :: l) → NoDup l.
Proof. by intros (_ & ?)%NoDup_cons. Qed.

Lemma notin_ne (l : list nat) a b : a ∉ l → b ∈ l → a ≠ b.
Proof. intros Ha Hb ->. done. Qed.

Ltac in_tac :=
  lazymatch goal with
  | |- _ ∈ _ ++ _ => apply elem_of_app; first [left; in_tac | right; in_tac]
  | |- ?a ∈ ?a :: _ => apply list_elem_of_here
  | |- _ ∈ _ :: _ => apply list_elem_of_further; in_tac
  | |- _ => assumption
  end.

Ltac nd_tac H :=
  lazymatch type of H with
  | NoDup (?l1 ++ ?l2) =>
    first [ apply (NoDup_app_ne l1 l2 _ _ H); in_tac
          | apply not_eq_sym; apply (NoDup_app_ne l1 l2 _ _ H); in_tac
          | nd_tac (NoDup_app_left l1 l2 H)
          | nd_tac (NoDup_app_right l1 l2 H) ]
  | NoDup (?a :: ?l) =>
    first [ apply (NoDup_cons_ne l a _ H); in_tac
          | apply not_eq_sym; apply (NoDup_cons_ne l a _ H); in_tac
          | nd_tac (NoDup_cons_tail l a H) ]
  end.

Ltac ne :=
  first
    [ assumption
    | apply not_eq_sym; assumption
    | match goal with
      | H : _ ∉ _ |- _ => apply (notin_ne _ _ _ H); in_tac
      | H : _ ∉ _ |- _ => apply not_eq_sym; apply (notin_ne _ _ _ H); in_tac
      | H : NoDup _ |- _ => nd_tac H
      end ].

(** Solving [a ≠ b] side conditions from the hypotheses. *)
Ltac solve_ne :=
  first [ assumption | apply not_eq_sym; assumption | congruence | ne ].

(** Normalise a lookup in a store built by attribute writes. *)
Ltac heap_norm :=
  simpl;
  repeat first
    [ rewrite list_lookup_alter_eq
    | rewrite list_lookup_alter_ne by solve_ne ].

Ltac heap_lookup :=
  heap_norm;
  repeat match goal with
         | H : nodes _ !! _ = Some _ |- _ => rewrite H
         | H : trees _ !! _ = Some _ |- _ => rewrite H
         end;
  simpl; reflexivity.

(** One step of symbolic execution. *)
Ltac exec1 :=
  first
    [ rewrite bind_assoc
    | rewrite bind_ret
    | erewrite bind_rd_node by heap_lookup
    | erewrite bind_node_set by heap_lookup
    | erewrite bind_rd_tree by heap_lookup
    | erewrite bind_tree_set by heap_lookup
    | rewrite bind_rd_bindR
    | rewrite loc_eqb_refl
    | rewrite loc_eqb_ne by solve_ne
    | progress (change RBNode.RED with true; change RBNode.BLACK with false;
                cbn [Bool.eqb])
    | erewrite bind_ok by eassumption ];
  cbn beta iota;
  cbn [RBNode.key RBNode.value RBNode.color RBNode.left RBNode.right
       RBNode.parent RBNode.set_color RBNode.set_left RBNode.set_right
       RBNode.set_parent Obj.nil Obj.root Obj.set_root negb nodes trees sets].

Ltac exec := repeat exec1.

(** ** Shapes *)

Lemma locs_node n rg l r : locs (Node n rg l r) = locs l ++ n :: locs r.
Proof. unfold locs. simpl. by rewrite fmap_app. Qed.

Lemma ranges_node n rg l r : ranges (Node n rg l r) = ranges l ++ rg :: ranges r.
Proof. unfold ranges. simpl. by rewrite fmap_app. Qed.

Lemma locs_leaf : locs Leaf = [].
Proof. reflexivity. Qed.

Lemma rl_in nil t : t ≠ Leaf → rl nil t ∈ locs t.
Proof.
  destruct t as [|n rg l r]; [done|]. intros _. rewrite locs_node. simpl.
  set_solver.
Qed.

Lemma rl_plug_cons nil f c t t' : rl nil (plug (f :: c) t) = rl nil (plug (f :: c) t').
Proof.
  revert f t t'. induction c as [|g c IH]; intros f t t'.
  - simpl. unfold plug1. by destruct (fdir f).
  - simpl. apply (IH g).
Qed.

Lemma elems_plug c t : elems (plug c t) = before c ++ elems t ++ after c.
Proof.
  revert t. induction c as [|f c IH]; intros t; simpl.
  - by rewrite app_nil_r.
  - rewrite IH. unfold plug1. destruct (fdir f); simpl.
    + rewrite app_nil_r, <- !app_assoc. reflexivity.
    + rewrite <- !app_assoc. simpl. reflexivity.
Qed.

Lemma locs_plug1 f t : locs (plug1 f t) ≡ₚ locs t ++ frame_locs f.
Proof.
  unfold plug1, frame_locs. destruct (fdir f); rewrite locs_node.
  - reflexivity.
  - rewrite (Permutation_app_comm (locs (fsib f))). simpl.
    apply Permutation_middle.
Qed.

Lemma locs_plug c t : locs (plug c t) ≡ₚ locs t ++ ctx_locs c.
Proof.
  revert t. induction c as [|f c IH]; intros t; simpl.
  - by rewrite app_nil_r.
  - rewrite IH, locs_plug1. by rewrite <- app_assoc.
Qed.

(** ** Framing: a layout only depends on the objects it mentions *)

Lemma node_is_frame h h' n rg l r p :
  nodes h' !! n = nodes h !! n → node_is h n rg l r p → node_is h' n rg l r p.
Proof. intros E [c H]. exists c. by rewrite E. Qed.

Lemma wf_tree_frame h h' nil p t :
  (∀ n, n ∈ locs t → nodes h' !! n = nodes h !! n) →
  wf_tree h nil p t → wf_tree h' nil p t.
Proof.
  revert p. induction t as [|n rg l IHl r IHr]; intros p Hf; simpl; [done|].
  intros (Hn & Hl & Hr). rewrite locs_node in Hf. split_and!.
  - eapply node_is_frame; [apply Hf; set_solver|done].
  - apply IHl; [intros; apply Hf; set_solver|done].
  - apply IHr; [intros; apply Hf; set_solver|done].
Qed.

Lemma wf_ctx_frame h h' nil c child :
  (∀ n, n ∈ ctx_locs c → nodes h' !! n = nodes h !! n) →
  wf_ctx h nil c child → wf_ctx h' nil c child.
Proof.
  revert child. induction c as [|f c IH]; intros child Hf; simpl; [done|].
  intros (Hn & Hs & Hc). simpl in Hf. unfold frame_locs in Hf. split_and!.
  - destruct (fdir f); (eapply node_is_frame; [apply Hf; set_solver|done]).
  - eapply wf_tree_frame; [|done]. intros; apply Hf; set_solver.
  - apply IH; [intros; apply Hf; set_solver|done].
Qed.

(* Changing the parent link of the top node. *)
Lemma wf_tree_reparent h h' nil p p' t :
  (∀ n, n ∈ locs t → n ≠ rl nil t → nodes h' !! n = nodes h !! n) →
  (t ≠ Leaf → nodes h' !! rl nil t = RBNode.set_parent p' <$> nodes h !! rl nil t) →
  NoDup (locs t) →
  wf_tree h nil p t → wf_tree h' nil p' t.
Proof.
  destruct t as [|n rg l r]; [done|]. simpl. intros Hf Hn Hnd ([c Hc] & Hl & Hr).
  rewrite locs_node in Hf, Hnd.
  apply NoDup_app in Hnd as (_ & Hd1 & Hd2). apply NoDup_cons in Hd2 as [Hd2 _].
  split_and!.
  - exists c. rewrite Hn by done. by rewrite Hc.
  - eapply wf_tree_frame; [|done]. intros m Hm. apply Hf; [set_solver|].
    intros ->. by eapply Hd1; [|left].
  - eapply wf_tree_frame; [|done]. intros m Hm. apply Hf; [set_solver|].
    by intros ->.
Qed.

(* Changing the child link of the innermost ancestor. *)
Lemma wf_ctx_rechild h h' nil c child child' :
  (∀ n, n ∈ ctx_locs c → n ≠ top nil c → nodes h' !! n = nodes h !! n) →
  (∀ f c', c = f :: c' →
     ∃ nd, nodes h !! fnode f = Some nd ∧
     nodes h' !! fnode f =
       Some (match fdir f with
             | Lft => RBNode.set_left child' nd
             | Rgt => RBNode.set_right child' nd
             end)) →
  NoDup (ctx_locs c) →
  wf_ctx h nil c child → wf_ctx h' nil c child'.
Proof.
  destruct c as [|f c]; [done|]. simpl. intros Hf Hn Hnd (Hc & Hs & Hr).
  destruct (Hn f c eq_refl) as (nd & Hnd1 & Hnd2).
  unfold frame_locs in *. simpl in Hnd.
  apply NoDup_cons in Hnd as [Hd1 Hd2].
  split_and!.
  - destruct (fdir f); destruct Hc as [cc Hc]; exists cc; rewrite Hnd2;
      rewrite Hc in Hnd1; by simplify_eq.
  - eapply wf_tree_frame; [|done]. intros m Hm. apply Hf; [set_solver|].
    intros ->. set_solver.
  - eapply wf_ctx_frame; [|done]. intros m Hm. apply Hf; [set_solver|].
    intros ->. set_solver.
Qed.

(* Colours play no part in the layout. *)
Lemma alter_color_lookup (ns : list RBNode.t) c n m :
  alter (RBNode.set_color c) n ns !! m =
  (if decide (n = m) then RBNode.set_color c else id) <$> ns !! m.
Proof.
  rewrite list_lookup_alter. case_decide; subst; [done|].
  by destruct (ns !! m).
Qed.

Lemma node_is_recolor h ns n rg l r p c m :
  nodes h = alter (RBNode.set_color c) m ns →
  (∃ c', ns !! n = Some (RBNode.mk (Some (AddressRange.start rg))
                           (Some (AddressRange.end_ rg)) c' l r p)) →
  node_is h n rg l r p.
Proof.
  intros E [c' H]. unfold node_is. rewrite E, alter_color_lookup, H.
  case_decide; simpl; eauto.
Qed.

Ltac norm_locs :=
  repeat match goal with
         | H : context [locs (Node _ _ _ _)] |- _ => rewrite locs_node in H
         | H : context [locs Leaf] |- _ => rewrite locs_leaf in H
         | H : context [ctx_locs (_ :: _)] |- _ =>
           cbn [ctx_locs] in H; unfold frame_locs in H
         | H : context [ctx_locs []] |- _ => cbn [ctx_locs] in H
         end.

Lemma lookup_alter_proj {A} (g : RBNode.t → A) f i (l : list RBNode.t) n :
  (∀ nd, g (f nd) = g nd) → g <$> alter f i l !! n = g <$> l !! n.
Proof.
  intros Hg. rewrite list_lookup_alter. case_decide; subst; [|done].
  destruct (l !! n); simpl; by rewrite ?Hg.
Qed.

Lemma rotate_locs x rx a y ry b cc :
  locs (Node y ry (Node x rx a b) cc) = locs (Node x rx a (Node y ry b cc)).
Proof. rewrite !locs_node, <- app_assoc. reflexivity. Qed.

Ltac norm_goal_locs :=
  rewrite ?locs_node, ?locs_leaf; cbn [ctx_locs]; unfold frame_locs.

Lemma rl_ne nil t x :
  x ≠ nil → x ∉ locs t → rl nil t ≠ x.
Proof.
  intros H1 H2. destruct t; simpl; [done|]. rewrite locs_node in H2.
  intros ->. apply H2. apply elem_of_app. right. left.
Qed.

Lemma ne_notin (l : list nat) a : (∀ b, b ∈ l → a ≠ b) → a ∉ l.
Proof. intros H Ha. by apply (H a). Qed.

Ltac notin := apply ne_notin; intros ? ?; ne.

(* Lookups away from every written location. *)
Ltac frame_lookup :=
  simpl; repeat (rewrite list_lookup_alter_ne by ne); done.

Lemma left_rotate_spec h self nil c x rx a y ry b cc :
  zip_rep h self nil c (Node x rx a (Node y ry b cc)) →
  ∃ h', RedBlackTree.left_rotate self x h = Ok (tt, h') ∧
        zip_rep h' self nil c (Node y ry (Node x rx a b) cc) ∧
        same_colors h h' ∧
        modifies (locs (Node x rx a (Node y ry b cc)) ++ ctx_locs c) self h h'.
Proof.
  intros [Hobj Hctx Htree Hnd Hnil Hnilb].
  assert (NoDup (locs (Node y ry (Node x rx a b) cc) ++ ctx_locs c))
    as Hnd2 by (by rewrite rotate_locs).
  assert (nil ∉ locs (Node y ry (Node x rx a b) cc) ++ ctx_locs c)
    as Hnil2 by (by rewrite rotate_locs).
  revert Hnd2 Hnil2.
  simpl in Htree. destruct Htree as ([cx Hx] & Ha & [cy Hy] & Hb & Hcc).
  destruct Hnilb as (ndnil & Hnl & Hnlc).
  destruct b as [|yl rb bl br]; [|destruct Hb as ([cyl Hyl] & Hbl & Hbr)];
  (destruct c as [|f c'];
   [|destruct Hctx as (Hf & Hsib & Hctx);
     destruct (fdir f) eqn:Hdir; destruct Hf as [cf Hf]]);
  norm_locs; intros Hnd2 Hnil2.
  all: assert (x ≠ y) by ne; assert (nil ≠ x) by ne; assert (nil ≠ y) by ne.
  all: try (assert (yl ≠ x) by ne; assert (yl ≠ y) by ne; assert (yl ≠ nil) by ne).
  all: try (assert (fnode f ≠ x) by ne; assert (fnode f ≠ y) by ne;
            assert (fnode f ≠ nil) by ne;
            assert (rl nil (fsib f) ≠ x) by (apply rl_ne; [ne|notin])).
  all: try assert (fnode f ≠ yl) by ne.
  all: unfold RedBlackTree.left_rotate; simpl in *; exec;
    erewrite node_set_ok by heap_lookup; eexists; split; [reflexivity|].
  all: split;
    [apply Build_zip_rep; [> | | | exact Hnd2 | exact Hnil2 | ] | split];
    cbn [nodes trees sets].
  (* the tree object *)
  all: try (cbn [plug rl]; by rewrite list_lookup_alter_eq, Hobj).
  all: try (cbn [plug]; rewrite Hobj; do 2 f_equal; apply (rl_plug_cons nil f c')).
  (* the sentinel *)
  all: try (exists ndnil; split; [heap_norm; done|done]).
  (* colours *)
  all: try (intros n; cbn [nodes]; by rewrite !lookup_alter_proj by done).
  (* the path to the root *)
  all: try exact I.
  all: try (cbn [wf_ctx rl]; rewrite Hdir; split_and!;
            [ eexists; heap_lookup
            | eapply wf_tree_frame; [|eassumption]; intros n Hn; frame_lookup
            | eapply wf_ctx_frame; [|eassumption]; intros n Hn; frame_lookup ]).
  (* the rotated subtree *)
  all: try (cbn [wf_tree rl top]; split_and!; try done; try (eexists; heap_lookup);
            (eapply wf_tree_frame; [|eassumption]); intros n Hn; frame_lookup).
  (* the frame *)
  all: split; cbn [nodes trees sets]; rewrite ?length_alter; try done;
    first [ intros n; norm_goal_locs; intros Hn; frame_lookup
          | intros t Ht; by rewrite ?list_lookup_alter_ne by done
          | by rewrite ?list_lookup_alter_eq, Hobj ].
Qed.

Lemma right_rotate_spec h self nil c x rx a y ry b cc :
  zip_rep h self nil c (Node y ry (Node x rx a b) cc) →
  ∃ h', RedBlackTree.right_rotate self y h = Ok (tt, h') ∧
        zip_rep h' self nil c (Node x rx a (Node y ry b cc)) ∧
        same_colors h h' ∧
        modifies (locs (Node y ry (Node x rx a b) cc) ++ ctx_locs c) self h h'.
Proof.
  intros [Hobj Hctx Htree Hnd Hnil Hnilb].
  assert (NoDup (locs (Node x rx a (Node y ry b cc)) ++ ctx_locs c))
    as Hnd2 by (by rewrite <- rotate_locs).
  assert (nil ∉ locs (Node x rx a (Node y ry b cc)) ++ ctx_locs c)
    as Hnil2 by (by rewrite <- rotate_locs).
  revert Hnd2 Hnil2.
  simpl in Htree. destruct Htree as ([cy Hy] & ([cx Hx] & Ha & Hb) & Hcc).
  destruct Hnilb as (ndnil & Hnl & Hnlc).
  destruct b as [|xr rb bl br]; [|destruct Hb as ([cxr Hxr] & Hbl & Hbr)];
  (destruct c as [|f c'];
   [|destruct Hctx as (Hf & Hsib & Hctx);
     destruct (fdir f) eqn:Hdir; destruct Hf as [cf Hf]]);
  norm_locs; intros Hnd2 Hnil2.
  all: assert (x ≠ y) by ne; assert (nil ≠ x) by ne; assert (nil ≠ y) by ne.
  all: try (assert (xr ≠ x) by ne; assert (xr ≠ y) by ne; assert (xr ≠ nil) by ne).
  all: try (assert (fnode f ≠ x) by ne; assert (fnode f ≠ y) by ne;
            assert (fnode f ≠ nil) by ne;
            assert (rl nil (fsib f) ≠ y) by (apply rl_ne; [ne|notin])).
  all: try assert (fnode f ≠ xr) by ne.
  all: unfold RedBlackTree.right_rotate; simpl in *; exec;
    erewrite node_set_ok by heap_lookup; eexists; split; [reflexivity|].
  all: split;
    [apply Build_zip_rep; [> | | | exact Hnd2 | exact Hnil2 | ] | split];
    cbn [nodes trees sets].
  (* the tree object *)
  all: try (cbn [plug rl]; by rewrite list_lookup_alter_eq, Hobj).
  all: try (cbn [plug]; rewrite Hobj; do 2 f_equal; apply (rl_plug_cons nil f c')).
  (* the sentinel *)
  all: try (exists ndnil; split; [heap_norm; done|done]).
  (* colours *)
  all: try (intros n; cbn [nodes]; by rewrite !lookup_alter_proj by done).
  (* the path to the root *)
  all: try exact I.
  all: try (cbn [wf_ctx rl]; rewrite Hdir; split_and!;
            [ eexists; heap_lookup
            | eapply wf_tree_frame; [|eassumption]; intros n Hn; frame_lookup
            | eapply wf_ctx_frame; [|eassumption]; intros n Hn; frame_lookup ]).
  (* the rotated subtree *)
  all: try (cbn [wf_tree rl top]; split_and!; try done; try (eexists; heap_lookup);
            (eapply wf_tree_frame; [|eassumption]); intros n Hn; frame_lookup).
  (* the frame *)
  all: split; cbn [nodes trees sets]; rewrite ?length_alter; try done;
    first [ intros n; norm_goal_locs; intros Hn; frame_lookup
          | intros t Ht; by rewrite ?list_lookup_alter_ne by done
          | by rewrite ?list_lookup_alter_eq, Hobj ].
Qed.

(** ** What a call may change *)

Lemma modifies_refl F self h : modifies F self h h.
Proof. by split. Qed.

Lemma modifies_trans F self h1 h2 h3 :
  modifies F self h1 h2 → modifies F self h2 h3 → modifies F self h1 h3.
Proof.
  intros [L1 N1 TL1 T1 NI1 S1] [L2 N2 TL2 T2 NI2 S2]. split; try congruence.
  - intros n Hn. rewrite N2, N1 by done. done.
  - intros t Ht. rewrite T2, T1 by done. done.
Qed.

Lemma modifies_mono F F' self h h' :
  (∀ n, n ∈ F → n ∈ F') → modifies F self h h' → modifies F' self h h'.
Proof.
  intros HF [L N TL T NI S]. split; try done. intros n Hn. apply N. auto.
Qed.

Lemma modifies_node_set F self h f n :
  n ∈ F →
  modifies F self h (mkHeap (alter f n (nodes h)) (trees h) (sets h)).
Proof.
  intros Hn. split; simpl; try done.
  - by rewrite length_alter.
  - intros m Hm. rewrite list_lookup_alter_ne; [done|]. by intros ->.
Qed.

Lemma modifies_nodes F self h ns :
  length ns = length (nodes h) →
  (∀ n, n ∉ F → ns !! n = nodes h !! n) →
  modifies F self h (mkHeap ns (trees h) (sets h)).
Proof. intros Hl Hn. by split. Qed.

(** ** Recolouring *)

Lemma node_is_recolor_at h col m n rg l r p :
  node_is h n rg l r p →
  node_is (mkHeap (alter (RBNode.set_color col) m (nodes h)) (trees h) (sets h))
          n rg l r p.
Proof. intros H. eapply node_is_recolor; [reflexivity|done]. Qed.

Lemma wf_tree_recolor h col m nil p t :
  wf_tree h nil p t →
  wf_tree (mkHeap (alter (RBNode.set_color col) m (nodes h)) (trees h) (sets h))
          nil p t.
Proof.
  revert p. induction t as [|n rg l IHl r IHr]; intros p; simpl; [done|].
  intros (Hn & Hl & Hr). split_and!; auto using node_is_recolor_at.
Qed.

Lemma wf_ctx_recolor h col m nil c child :
  wf_ctx h nil c child →
  wf_ctx (mkHeap (alter (RBNode.set_color col) m (nodes h)) (trees h) (sets h))
         nil c child.
Proof.
  revert child. induction c as [|f c IH]; intros child; simpl; [done|].
  intros (Hn & Hs & Hc). split_and!; auto using wf_tree_recolor.
  destruct (fdir f); auto using node_is_recolor_at.
Qed.

Lemma is_black_recolor_other h col m n :
  m ≠ n → is_black h n →
  is_black (mkHeap (alter (RBNode.set_color col) m (nodes h)) (trees h) (sets h)) n.
Proof.
  intros Hne (nd & H1 & H2). exists nd. simpl.
  by rewrite list_lookup_alter_ne.
Qed.

Lemma is_black_recolor_black h m n :
  is_black h n →
  is_black (mkHeap (alter (RBNode.set_color RBNode.BLACK) m (nodes h))
                   (trees h) (sets h)) n.
Proof.
  intros (nd & H1 & H2). simpl. unfold is_black. simpl.
  rewrite alter_color_lookup, H1. case_decide; simpl; eauto.
Qed.

Lemma zip_rep_recolor h self nil c t col m :
  m ≠ nil →
  zip_rep h self nil c t →
  zip_rep (mkHeap (alter (RBNode.set_color col) m (nodes h)) (trees h) (sets h))
          self nil c t.
Proof.
  intros Hm []. split; simpl; try done.
  - by apply wf_ctx_recolor.
  - by apply wf_tree_recolor.
  - by apply is_black_recolor_other.
Qed.

Lemma heap_eta h : mkHeap (nodes h) (trees h) (sets h) = h.
Proof. by destruct h. Qed.

Lemma zip_rep_recolor' ns ts ss self nil c t col m :
  m ≠ nil →
  zip_rep (mkHeap ns ts ss) self nil c t →
  zip_rep (mkHeap (alter (RBNode.set_color col) m ns) ts ss) self nil c t.
Proof. intros. by apply (zip_rep_recolor (mkHeap ns ts ss)). Qed.

Lemma is_black_recolor_other' ns ts ss col m n :
  m ≠ n → is_black (mkHeap ns ts ss) n →
  is_black (mkHeap (alter (RBNode.set_color col) m ns) ts ss) n.
Proof. intros. by apply (is_black_recolor_other (mkHeap ns ts ss)). Qed.

(** ** Moving the position *)

Lemma all_locs_up f c t :
  locs (plug1 f t) ++ ctx_locs c ≡ₚ locs t ++ ctx_locs (f :: c).
Proof. simpl. by rewrite locs_plug1, <- app_assoc. Qed.

Lemma zip_rep_up h self nil f c t :
  zip_rep h self nil (f :: c) t → zip_rep h self nil c (plug1 f t).
Proof.
  intros [Hobj Hctx Htree Hnd Hnil Hnilb]. split; try done.
  - destruct Hctx as (_ & _ & Hctx). unfold plug1. by destruct (fdir f).
  - destruct Hctx as (Hn & Hs & _). unfold plug1. simpl in Htree.
    destruct (fdir f); simpl; auto.
  - by rewrite all_locs_up.
  - by rewrite all_locs_up.
Qed.

Lemma zip_rep_down h self nil f c t :
  zip_rep h self nil c (plug1 f t) → zip_rep h self nil (f :: c) t.
Proof.
  intros [Hobj Hctx Htree Hnd Hnil Hnilb]. split; try done.
  - unfold plug1 in *. simpl. destruct (fdir f); simpl in *; naive_solver.
  - unfold plug1 in *. simpl. destruct (fdir f); simpl in *; naive_solver.
  - by rewrite <- all_locs_up.
  - by rewrite <- all_locs_up.
Qed.

Lemma rl_plug_in nil c t : c ≠ [] → rl nil (plug c t) ∈ ctx_locs c.
Proof.
  revert t. induction c as [|f c IH]; intros t Hc; [done|].
  destruct c as [|g c].
  - simpl. unfold plug1, frame_locs. destruct (fdir f); simpl; set_solver.
  - specialize (IH (plug1 f t) ltac:(done)). simpl in *. set_solver.
Qed.

(** ** The fix-up loop *)

Lemma fixup_loop_exit fuel self z h ndz ndp :
  nodes h !! z = Some ndz →
  nodes h !! RBNode.parent ndz = Some ndp →
  RBNode.color ndp = RBNode.BLACK →
  RedBlackTree.insert_fixup_loop fuel self z h = Ok (tt, h).
Proof.
  intros Hz Hp Hc. destruct fuel; simpl.
  all: erewrite bind_rd_node by done; erewrite bind_rd_node by done.
  all: by rewrite Hc.
Qed.

(** ** Red-black colouring *)

Lemma rl_in_cons nil t : rl nil t ∈ nil :: locs t.
Proof.
  destruct t as [|n rg l r]; simpl; [left|].
  right. rewrite locs_node. apply elem_of_app. right. left.
Qed.

Lemma rb_agree cm cm' nil t :
  (∀ n, n ∈ nil :: locs t → cm' n = cm n) →
  bheight cm' t = bheight cm t ∧ (rb_ok cm nil t → rb_ok cm' nil t).
Proof.
  induction t as [|n rg l IHl r IHr]; intros Hag; [done|].
  rewrite locs_node in Hag.
  assert (Hl : ∀ m, m ∈ nil :: locs l → cm' m = cm m).
  { intros m [->|Hm]%elem_of_cons; apply Hag; [left|right]. by apply elem_of_app; left. }
  assert (Hr : ∀ m, m ∈ nil :: locs r → cm' m = cm m).
  { intros m [->|Hm]%elem_of_cons; apply Hag; [left|right].
    apply elem_of_app; right. by right. }
  assert (Hn : cm' n = cm n).
  { apply Hag. right. apply elem_of_app. right. left. }
  destruct (IHl Hl) as [Hbl Hokl], (IHr Hr) as [Hbr Hokr].
  simpl. rewrite Hbl, Hbr, Hn, (Hl _ (rl_in_cons nil l)), (Hr _ (rl_in_cons nil r)).
  split; [done|]. intros (H1 & H2 & H3 & H4). split_and!; auto.
Qed.

Lemma ctx_agree cm cm' nil c :
  (∀ n, n ∈ nil :: ctx_locs c → cm' n = cm n) →
  ∀ cr k, ctx_ok cm nil c cr k → ctx_ok cm' nil c cr k.
Proof.
  induction c as [|f c IH]; intros Hag cr k; [done|].
  cbn [ctx_locs] in Hag. unfold frame_locs in Hag.
  assert (Hs : ∀ m, m ∈ nil :: locs (fsib f) → cm' m = cm m).
  { intros m [->|Hm]%elem_of_cons; apply Hag; [left|right].
    apply elem_of_app; left. by right. }
  assert (Hc : ∀ m, m ∈ nil :: ctx_locs c → cm' m = cm m).
  { intros m [->|Hm]%elem_of_cons; apply Hag; [left|right].
    by apply elem_of_app; right. }
  assert (Hn : cm' (fnode f) = cm (fnode f)).
  { apply Hag. right. apply elem_of_app. left. left. }
  destruct (rb_agree cm cm' nil (fsib f) Hs) as [Hb Hok].
  simpl. rewrite Hb, Hn, (Hs _ (rl_in_cons nil (fsib f))).
  intros (H1 & H2 & H3 & H4). split_and!; auto.
Qed.

Lemma rl_plug1 nil f t : rl nil (plug1 f t) = fnode f.
Proof. unfold plug1. by destruct (fdir f). Qed.

Lemma bheight_plug1 cm f t :
  bheight cm (fsib f) = bheight cm t →
  bheight cm (plug1 f t) = bheight cm t + (if cm (fnode f) then 0 else 1).
Proof. unfold plug1. destruct (fdir f); simpl; congruence. Qed.

Lemma rb_ok_plug1 cm nil f t :
  rb_ok cm nil (plug1 f t) ↔
  rb_ok cm nil t ∧ rb_ok cm nil (fsib f) ∧ bheight cm (fsib f) = bheight cm t ∧
  (cm (fnode f) = true → cm (rl nil t) = false ∧ cm (rl nil (fsib f)) = false).
Proof. unfold plug1. destruct (fdir f); simpl; naive_solver. Qed.

(** Filling the position with a fitting subtree gives a red-black tree. *)
Lemma plug_ok cm nil c : ∀ t,
  rb_ok cm nil t → ctx_ok cm nil c (cm (rl nil t)) (bheight cm t) →
  rb_ok cm nil (plug c t).
Proof.
  induction c as [|f c IH]; intros t Ht Hc; [done|].
  destruct Hc as (Hs & Hb & Hr & Hc). cbn [plug]. apply IH.
  - apply rb_ok_plug1. by split_and!.
  - rewrite rl_plug1, bheight_plug1 by done. done.
Qed.

Lemma unplug_ok cm nil c : ∀ t,
  rb_ok cm nil (plug c t) →
  rb_ok cm nil t ∧ ctx_ok cm nil c (cm (rl nil t)) (bheight cm t).
Proof.
  induction c as [|f c IH]; intros t Ht; [done|].
  cbn [plug] in Ht. destruct (IH _ Ht) as [H1 Hc].
  apply rb_ok_plug1 in H1 as (Hok & Hs & Hb & Hr).
  rewrite rl_plug1, bheight_plug1 in Hc by done.
  split; [done|]. simpl. by split_and!.
Qed.

Lemma ctx_ok_black cm nil c cr k :
  ctx_ok cm nil c cr k → ctx_ok cm nil c false k.
Proof. destruct c as [|f c]; [done|]. simpl. naive_solver. Qed.

Lemma ctx_ok_red cm nil c cr k :
  ctx_ok cm nil c false k →
  (∀ f c', c = f :: c' → cm (fnode f) = false) →
  ctx_ok cm nil c cr k.
Proof.
  destruct c as [|f c]; [done|]. simpl. intros (?&?&?&?) Hf.
  rewrite (Hf f c eq_refl) in *. split_and!; try done.
Qed.

(** The loop ends: the parent is the sentinel or black. *)
Lemma fixup_exit_ok cm nil c t :
  rb_ok cm nil t → ctx_ok cm nil c false (bheight cm t) →
  (∀ f c', c = f :: c' → cm (fnode f) = false) →
  rb_ok cm nil (plug c t).
Proof.
  intros Ht Hc Hf. apply plug_ok; [done|]. by apply ctx_ok_red.
Qed.

Lemma upd_eq n b cm : upd n b cm n = b.
Proof. unfold upd. by rewrite decide_True. Qed.

Lemma upd_ne n b cm m : m ≠ n → upd n b cm m = cm m.
Proof. intros. unfold upd. by rewrite decide_False. Qed.

Ltac upd_simpl :=
  repeat match goal with x := context [upd] |- _ => unfold x end;
  repeat first [ rewrite upd_eq | rewrite upd_ne by ne ].

(* The colouring is unchanged on a subtree away from the recoloured nodes. *)
Ltac agree_tac :=
  let n := fresh "n" in let Hn := fresh "Hn" in
  intros n [->|Hn]%elem_of_cons; upd_simpl; reflexivity.

Ltac agree_on cm cm' nil s Hag Hb Hok :=
  assert (Hag : ∀ n, n ∈ nil :: locs s → cm' n = cm n) by agree_tac;
  destruct (rb_agree cm cm' nil s Hag) as [Hb Hok].

(** What the loop knows about the two frames above a red node with a red
    parent. *)
Lemma fixup_ctx_inv cm nil f1 f2 c' k :
  ctx_ok cm nil (f1 :: f2 :: c') false k → cm (fnode f1) = true →
  rb_ok cm nil (fsib f1) ∧ bheight cm (fsib f1) = k ∧
  cm (rl nil (fsib f1)) = false ∧
  rb_ok cm nil (fsib f2) ∧ bheight cm (fsib f2) = k ∧
  cm (fnode f2) = false ∧
  ctx_ok cm nil c' false (S k).
Proof.
  intros (Hs1 & Hb1 & Hr1 & Hs2 & Hb2 & Hr2 & Hc) H1.
  rewrite H1 in *. rewrite Nat.add_0_r in Hb2, Hc.
  destruct (cm (fnode f2)) eqn:E2; [by destruct (Hr2 eq_refl)|].
  replace (k + 1) with (S k) in Hc by lia.
  split_and!; try done. by apply Hr1.
Qed.

(** Red uncle: recolouring moves the red-red pair two levels up. *)
Lemma fixup_recolor_ok cm nil f1 f2 c' z rz a b y ry yl yr :
  NoDup (locs (Node z rz a b) ++ ctx_locs (f1 :: f2 :: c')) →
  nil ∉ locs (Node z rz a b) ++ ctx_locs (f1 :: f2 :: c') →
  rb_ok cm nil (Node z rz a b) →
  ctx_ok cm nil (f1 :: f2 :: c') false (bheight cm (Node z rz a b)) →
  cm (fnode f1) = true →
  fsib f2 = Node y ry yl yr → cm y = true →
  let cm' := upd (fnode f2) true (upd y false (upd (fnode f1) false cm)) in
  rb_ok cm' nil (plug1 f2 (plug1 f1 (Node z rz a b))) ∧
  ctx_ok cm' nil c' false (bheight cm' (plug1 f2 (plug1 f1 (Node z rz a b)))).
Proof.
  intros Hnd Hnil (Ha & Hb & Hab & Hzr) Hc H1 Hsib Hy cm'.
  destruct (fixup_ctx_inv _ _ _ _ _ _ Hc H1) as (Hs1 & Hb1 & Hr1 & Hs2 & Hb2 & H2 & Hc').
  norm_locs. rewrite Hsib in Hs2, Hb2, Hnd, Hnil.
  destruct Hs2 as (Hyl & Hyr & Hylr & _). simpl in Hb2. rewrite Hy in Hb2.
  norm_locs.
  agree_on cm cm' nil a Haa Hba Hoka. agree_on cm cm' nil b Hab' Hbb Hokb.
  agree_on cm cm' nil (fsib f1) Ha1 Hbs1 Hoks1.
  agree_on cm cm' nil yl Hayl Hbyl Hokyl. agree_on cm cm' nil yr Hayr Hbyr Hokyr.
  assert (Hz : cm' z = cm z) by (upd_simpl; done).
  assert (H1' : cm' (fnode f1) = false) by (upd_simpl; done).
  assert (H2' : cm' (fnode f2) = true) by (upd_simpl; done).
  assert (Hy' : cm' y = false) by (upd_simpl; done).
  assert (Hokt : rb_ok cm' nil (Node z rz a b)).
  { simpl. split_and!; auto; [congruence|].
    rewrite Hz, (Haa _ (rl_in_cons nil a)), (Hab' _ (rl_in_cons nil b)). done. }
  assert (Hbt : bheight cm' (Node z rz a b) = bheight cm (Node z rz a b)).
  { simpl. by rewrite Hba, Hz. }
  assert (Hok1 : rb_ok cm' nil (plug1 f1 (Node z rz a b))).
  { apply rb_ok_plug1. split_and!; auto; [congruence|]. by rewrite H1'. }
  assert (Hb1' : bheight cm' (plug1 f1 (Node z rz a b))
                 = S (bheight cm (Node z rz a b))).
  { rewrite bheight_plug1 by congruence. rewrite H1', Hbt. lia. }
  split.
  - apply rb_ok_plug1. rewrite Hsib. split_and!; auto.
    + simpl. split_and!; auto; [congruence|]. by rewrite Hy'.
    + simpl in *. rewrite Hy', Hb1', Hbyl. lia.
    + intros _. by rewrite rl_plug1, H1'.
  - rewrite bheight_plug1, H2', Hb1', Nat.add_0_r.
    + eapply ctx_agree; [|exact Hc']. agree_tac.
    + rewrite Hsib. simpl in *. rewrite Hy', Hb1', Hbyl. lia.
Qed.

Ltac rotate_setup cm cm' nil f1 f2 z a b :=
  let Hnd := fresh "Hnd" in let Hnil := fresh "Hnil" in
  let Hc := fresh "Hc" in let H1 := fresh "H1" in
  let Ha := fresh "Ha" in let Hb := fresh "Hb" in let Hab := fresh "Hab" in
  let Hzr := fresh "Hzr" in let Hz := fresh "Hz" in let Hu := fresh "Hu" in
  let Hra := fresh "Hra" in let Hrb := fresh "Hrb" in
  let Hs1 := fresh "Hs1" in let Hb1 := fresh "Hb1" in let Hr1 := fresh "Hr1" in
  let Hs2 := fresh "Hs2" in let Hb2 := fresh "Hb2" in let H2 := fresh "H2" in
  let Hc' := fresh "Hc'" in
  let Haa := fresh "Haa" in let Hba := fresh "Hba" in let Hoka := fresh "Hoka" in
  let Hab' := fresh "Hab'" in let Hbb := fresh "Hbb" in let Hokb := fresh "Hokb" in
  let Ha1 := fresh "Ha1" in let Hbs1 := fresh "Hbs1" in let Hoks1 := fresh "Hoks1" in
  let Ha2 := fresh "Ha2" in let Hbs2 := fresh "Hbs2" in let Hoks2 := fresh "Hoks2" in
  let Hra' := fresh "Hra'" in let Hrb' := fresh "Hrb'" in
  let Hr1' := fresh "Hr1'" in let Hr2' := fresh "Hr2'" in
  intros Hnd Hnil (Ha & Hb & Hab & Hzr) Hz Hc H1 Hu cm';
  destruct (Hzr Hz) as [Hra Hrb];
  destruct (fixup_ctx_inv _ _ _ _ _ _ Hc H1)
    as (Hs1 & Hb1 & Hr1 & Hs2 & Hb2 & H2 & Hc');
  norm_locs;
  agree_on cm cm' nil a Haa Hba Hoka; agree_on cm cm' nil b Hab' Hbb Hokb;
  agree_on cm cm' nil (fsib f1) Ha1 Hbs1 Hoks1;
  agree_on cm cm' nil (fsib f2) Ha2 Hbs2 Hoks2;
  pose proof (Haa _ (rl_in_cons nil a)) as Hra';
  pose proof (Hab' _ (rl_in_cons nil b)) as Hrb';
  pose proof (Ha1 _ (rl_in_cons nil (fsib f1))) as Hr1';
  pose proof (Ha2 _ (rl_in_cons nil (fsib f2))) as Hr2';
  simpl in Hb1, Hb2, Hc'; rewrite Hz in Hb1, Hb2, Hc';
  rewrite Nat.add_0_r in Hb1, Hb2, Hc';
  let Hz' := fresh "Hz'" in let H1' := fresh "H1'" in let H2' := fresh "H2'" in
  eassert (Hz' : cm' z = _) by (upd_simpl; reflexivity);
  eassert (H1' : cm' (fnode f1) = _) by (upd_simpl; reflexivity);
  eassert (H2' : cm' (fnode f2) = _) by (upd_simpl; reflexivity).

Ltac rw_colors cm' :=
  repeat match goal with
         | H : cm' ?x = _ |- context [cm' ?x] => rewrite H
         | H : bheight cm' ?t = _ |- context [bheight cm' ?t] => rewrite H
         end.

Ltac rotate_finish cm cm' c' :=
  apply plug_ok;
  [ simpl; rw_colors cm'; rw_colors cm; split_and!; auto; try congruence;
    try lia; try (intros _; split; congruence)
  | simpl; rw_colors cm'; rw_colors cm; apply (ctx_agree cm); [agree_tac|];
    match goal with
    | Hc' : ctx_ok _ _ c' false ?k' |- ctx_ok _ _ _ _ ?k =>
      replace k with k' by lia; exact Hc'
    end ].

(** Black uncle, the new node on the outside: one rotation. *)
Lemma fixup_rotate_LL_ok cm nil f1 f2 c' z rz a b :
  NoDup (locs (Node z rz a b) ++ ctx_locs (f1 :: f2 :: c')) →
  nil ∉ locs (Node z rz a b) ++ ctx_locs (f1 :: f2 :: c') →
  rb_ok cm nil (Node z rz a b) → cm z = true →
  ctx_ok cm nil (f1 :: f2 :: c') false (bheight cm (Node z rz a b)) →
  cm (fnode f1) = true → cm (rl nil (fsib f2)) = false →
  let cm' := upd (fnode f2) true (upd (fnode f1) false cm) in
  rb_ok cm' nil
    (plug c' (Node (fnode f1) (frg f1) (Node z rz a b)
                (Node (fnode f2) (frg f2) (fsib f1) (fsib f2)))).
Proof.
  rotate_setup cm cm' nil f1 f2 z a b. rotate_finish cm cm' c'.
Qed.

Lemma fixup_rotate_RR_ok cm nil f1 f2 c' z rz a b :
  NoDup (locs (Node z rz a b) ++ ctx_locs (f1 :: f2 :: c')) →
  nil ∉ locs (Node z rz a b) ++ ctx_locs (f1 :: f2 :: c') →
  rb_ok cm nil (Node z rz a b) → cm z = true →
  ctx_ok cm nil (f1 :: f2 :: c') false (bheight cm (Node z rz a b)) →
  cm (fnode f1) = true → cm (rl nil (fsib f2)) = false →
  let cm' := upd (fnode f2) true (upd (fnode f1) false cm) in
  rb_ok cm' nil
    (plug c' (Node (fnode f1) (frg f1)
                (Node (fnode f2) (frg f2) (fsib f2) (fsib f1))
                (Node z rz a b))).
Proof.
  rotate_setup cm cm' nil f1 f2 z a b. rotate_finish cm cm' c'.
Qed.

(** Black uncle, the new node on the inside: two rotations. *)
Lemma fixup_rotate_LR_ok cm nil f1 f2 c' z rz a b :
  NoDup (locs (Node z rz a b) ++ ctx_locs (f1 :: f2 :: c')) →
  nil ∉ locs (Node z rz a b) ++ ctx_locs (f1 :: f2 :: c') →
  rb_ok cm nil (Node z rz a b) → cm z = true →
  ctx_ok cm nil (f1 :: f2 :: c') false (bheight cm (Node z rz a b)) →
  cm (fnode f1) = true → cm (rl nil (fsib f2)) = false →
  let cm' := upd (fnode f2) true (upd z false cm) in
  rb_ok cm' nil
    (plug c' (Node z rz (Node (fnode f1) (frg f1) (fsib f1) a)
                (Node (fnode f2) (frg f2) b (fsib f2)))).
Proof.
  rotate_setup cm cm' nil f1 f2 z a b. rotate_finish cm cm' c'.
Qed.

Lemma fixup_rotate_RL_ok cm nil f1 f2 c' z rz a b :
  NoDup (locs (Node z rz a b) ++ ctx_locs (f1 :: f2 :: c')) →
  nil ∉ locs (Node z rz a b) ++ ctx_locs (f1 :: f2 :: c') →
  rb_ok cm nil (Node z rz a b) → cm z = true →
  ctx_ok cm nil (f1 :: f2 :: c') false (bheight cm (Node z rz a b)) →
  cm (fnode f1) = true → cm (rl nil (fsib f2)) = false →
  let cm' := upd (fnode f2) true (upd z false cm) in
  rb_ok cm' nil
    (plug c' (Node z rz (Node (fnode f2) (frg f2) (fsib f2) a)
                (Node (fnode f1) (frg f1) b (fsib f1)))).
Proof.
  rotate_setup cm cm' nil f1 f2 z a b. rotate_finish cm cm' c'.
Qed.

(** Blackening the root keeps the properties. *)
Lemma blacken_root_ok cm nil r rr l3 r3 :
  NoDup (locs (Node r rr l3 r3)) → nil ∉ locs (Node r rr l3 r3) →
  rb_ok cm nil (Node r rr l3 r3) →
  rb_ok (upd r false cm) nil (Node r rr l3 r3).
Proof.
  intros Hnd Hnil (Hl & Hr & Hlr & _). norm_locs.
  set (cm' := upd r false cm).
  agree_on cm cm' nil l3 Hal Hbl Hokl. agree_on cm cm' nil r3 Har Hbr Hokr.
  simpl. split_and!; auto; [congruence|].
  unfold cm'. by rewrite upd_eq.
Qed.

(** A new red node at the bottom of a red-black tree: the only violation
    can be a red parent. *)
Lemma insert_leaf_ok cm cm2 nil c z rg :
  rb_ok cm nil (plug c Leaf) → cm nil = false →
  z ∉ ctx_locs c → z ≠ nil →
  (∀ n, n ≠ z → cm2 n = cm n) → cm2 z = true →
  rb_ok cm2 nil (Node z rg Leaf Leaf) ∧
  ctx_ok cm2 nil c false (bheight cm2 (Node z rg Leaf Leaf)).
Proof.
  intros Hok Hn Hz Hzn Hag Hred.
  destruct (unplug_ok _ _ _ _ Hok) as [_ Hc]. simpl in Hc. rewrite Hn in Hc.
  split.
  - simpl. split_and!; try done. intros _. rewrite Hag by done. done.
  - simpl. rewrite Hred. simpl.
    eapply ctx_agree; [|exact Hc].
    intros n [->|Hin]%elem_of_cons; apply Hag; [done|]. by intros ->.
Qed.

Lemma rb_size cm nil t :
  rb_ok cm nil t → 2 ^ bheight cm t ≤ length (elems t) + 1.
Proof.
  induction t as [|n rg l IHl r IHr]; [simpl; lia|].
  intros (Hl & Hr & Hlr & _). specialize (IHl Hl). specialize (IHr Hr).
  simpl. rewrite length_app. simpl. rewrite Hlr in IHl |- *.
  destruct (cm n); rewrite ?Nat.add_0_r, ?Nat.add_1_r, ?Nat.pow_succ_r';
    revert IHl IHr; generalize (2 ^ bheight cm r); intros; lia.
Qed.

Lemma rb_height cm nil t :
  rb_ok cm nil t → cm nil = false →
  height t ≤ 2 * bheight cm t + (if cm (rl nil t) then 1 else 0).
Proof.
  intros Hok Hn. induction t as [|n rg l IHl r IHr]; [simpl; lia|].
  destruct Hok as (Hl & Hr & Hlr & Hred).
  specialize (IHl Hl). specialize (IHr Hr). simpl.
  destruct (cm n).
  - destruct (Hred eq_refl) as [E1 E2]. rewrite E1 in IHl. rewrite E2 in IHr. lia.
  - destruct (cm (rl nil l)), (cm (rl nil r)); lia.
Qed.

(** A red-black tree with a black root and [n] nodes has height at most
    [2 * log2 (n + 1)]. *)
Lemma rb_balanced cm nil t :
  rb_ok cm nil t → cm nil = false → cm (rl nil t) = false →
  2 ^ height t ≤ (length (elems t) + 1) ^ 2.
Proof.
  intros Hok Hn Hr.
  pose proof (rb_height _ _ _ Hok Hn) as Hh. rewrite Hr in Hh.
  pose proof (rb_size _ _ _ Hok) as Hs.
  transitivity (2 ^ (2 * bheight cm t)).
  - apply Nat.pow_le_mono_r; lia.
  - rewrite Nat.pow_mul_r. replace (2 ^ 2) with 4 by done.
    replace 4 with (2 * 2) by done. rewrite Nat.pow_mul_l.
    rewrite Nat.pow_2_r. apply Nat.mul_le_mono; lia.
Qed.

(** ** Colours in the store *)

Lemma rb_ok_ext cm cm' nil t :
  (∀ n, cm' n = cm n) → rb_ok cm nil t → rb_ok cm' nil t.
Proof. intros H. apply rb_agree. auto. Qed.

Lemma bheight_ext cm cm' t :
  (∀ n, cm' n = cm n) → bheight cm' t = bheight cm t.
Proof. intros H. apply (rb_agree cm cm' 0). auto. Qed.

Lemma ctx_ok_ext cm cm' nil c cr k :
  (∀ n, cm' n = cm n) → ctx_ok cm nil c cr k → ctx_ok cm' nil c cr k.
Proof. intros H. apply ctx_agree. auto. Qed.

Lemma upd_ext n b cm cm' m : (∀ n, cm' n = cm n) → upd n b cm' m = upd n b cm m.
Proof. intros H. unfold upd. by destruct (decide _). Qed.

Lemma color_of_same h h' n : same_colors h h' → color_of h' n = color_of h n.
Proof.
  intros H. specialize (H n). unfold color_of.
  destruct (nodes h' !! n), (nodes h !! n); simpl in H; congruence.
Qed.

Lemma color_of_alter ns ts ss n0 c n :
  is_Some (ns !! n0) →
  color_of (mkHeap (alter (RBNode.set_color c) n0 ns) ts ss) n
  = upd n0 c (color_of (mkHeap ns ts ss)) n.
Proof.
  intros [nd Hnd]. unfold color_of, upd. simpl.
  destruct (decide (n = n0)) as [->|Hne].
  - by rewrite list_lookup_alter_eq, Hnd.
  - by rewrite list_lookup_alter_ne.
Qed.

Lemma color_of_nodes h h' n : nodes h' = nodes h → color_of h' n = color_of h n.
Proof. unfold color_of. by intros ->. Qed.

Lemma is_black_color_of h n : is_black h n → color_of h n = false.
Proof. intros (nd & Hn & Hc). unfold color_of. by rewrite Hn. Qed.

Lemma is_red_color_of h n : is_red h n → color_of h n = true.
Proof. intros (nd & Hn & Hc). unfold color_of. by rewrite Hn. Qed.

Lemma color_of_lookup h n nd :
  nodes h !! n = Some nd → color_of h n = RBNode.color nd.
Proof. intros Hn. unfold color_of. by rewrite Hn. Qed.

Lemma is_Some_alter {A} (f : A → A) i (l : list A) j :
  is_Some (alter f i l !! j) ↔ is_Some (l !! j).
Proof. by rewrite !lookup_lt_is_Some, length_alter. Qed.

(* The colours after a sequence of colour assignments. *)
Ltac color_tac :=
  repeat first
    [ rewrite color_of_alter by (rewrite ?is_Some_alter; simpl; eauto)
    | lazymatch goal with
      | |- upd ?n ?b _ _ = upd ?n ?b _ _ => apply upd_ext; intros ?
      end ];
  try reflexivity.

Lemma color_of_eq h h' n :
  RBNode.color <$> nodes h' !! n = RBNode.color <$> nodes h !! n →
  color_of h' n = color_of h n.
Proof.
  intros H. unfold color_of.
  destruct (nodes h' !! n), (nodes h !! n); simpl in H; congruence.
Qed.

Lemma zip_rep_top h self nil c t :
  zip_rep h self nil c t → zip_rep h self nil [] (plug c t).
Proof.
  revert t. induction c as [|f c IH]; intros t H; [done|].
  simpl. apply IH. by apply zip_rep_up.
Qed.

Lemma plug1_Lft f t : fdir f = Lft → plug1 f t = Node (fnode f) (frg f) t (fsib f).
Proof. unfold plug1. by intros ->. Qed.

Lemma plug1_Rgt f t : fdir f = Rgt → plug1 f t = Node (fnode f) (frg f) (fsib f) t.
Proof. unfold plug1. by intros ->. Qed.

Lemma elems_rotate x rx a y ry b cc :
  elems (Node y ry (Node x rx a b) cc) = elems (Node x rx a (Node y ry b cc)).
Proof. simpl. by rewrite <- app_assoc. Qed.

Lemma elems_plug_congr c t t' : elems t = elems t' → elems (plug c t) = elems (plug c t').
Proof. intros E. by rewrite !elems_plug, E. Qed.

Lemma locs_elems_congr t t' : elems t = elems t' → locs t = locs t'.
Proof. unfold locs. by intros ->. Qed.

Lemma wf_tree_top_lookup h nil p t :
  wf_tree h nil p t → is_black h nil →
  ∃ nd, nodes h !! rl nil t = Some nd ∧ (t = Leaf → RBNode.color nd = RBNode.BLACK).
Proof.
  destruct t as [|n rg l r]; simpl.
  - intros _ (nd & ? & ?). eauto.
  - intros ([c Hc] & _) _. eexists. split; [done|]. done.
Qed.

Lemma modifies_plug c t self h h' :
  modifies (locs t ++ ctx_locs c) self h h' → modifies (locs (plug c t)) self h h'.
Proof. apply modifies_mono. intros n. by rewrite locs_plug. Qed.

Lemma in_plug c t n : n ∈ locs t ++ ctx_locs c → n ∈ locs (plug c t).
Proof. by rewrite locs_plug. Qed.

Ltac in_plug_tac :=
  apply in_plug; norm_goal_locs; in_tac.

Ltac recolor_frame :=
  apply modifies_plug, modifies_nodes;
  [ by rewrite !length_alter
  | intros n; norm_goal_locs; intros Hn; frame_lookup ].

Ltac elems_eq :=
  apply elems_plug_congr; cbn [elems];
  repeat (rewrite <- app_assoc; cbn [app]); reflexivity.

Lemma fixup_loop_spec_rb self nil fuel : ∀ c z rz a b h,
  zip_rep h self nil c (Node z rz a b) →
  is_red h z →
  (c ≠ [] → is_black h (rl nil (plug c (Node z rz a b)))) →
  length c ≤ fuel →
  ∃ h' T', RedBlackTree.insert_fixup_loop fuel self z h = Ok (tt, h') ∧
     zip_rep h' self nil [] T' ∧
     elems T' = elems (plug c (Node z rz a b)) ∧
     modifies (locs (plug c (Node z rz a b))) self h h' ∧
     (rb_ok (color_of h) nil (Node z rz a b) →
      ctx_ok (color_of h) nil c false (bheight (color_of h) (Node z rz a b)) →
      rb_ok (color_of h') nil T').
Proof.
  induction fuel as [|fuel IH]; intros c z rz a b h H Hred Hroot Hfuel.
  all: pose proof H as [Hobj Hctx Htree Hnd Hnil Hnilb].
  all: destruct Htree as ([cz Hz] & Ha & Hb).
  all: destruct c as [|f1 [|f2 c']]; simpl in Hfuel; try (exfalso; lia).
  (* the new node is the root *)
  1,2: destruct Hnilb as (ndnil & Hnl & Hnlc);
    exists h, (Node z rz a b);
    split_and!; [|done|done|apply modifies_refl|by intros];
    by eapply fixup_loop_exit.
  (* its parent is the root *)
  1: { destruct (Hroot ltac:(done)) as (ndr & Hr & Hrc).
       exists h, (plug1 f1 (Node z rz a b)).
       split_and!; [|by apply zip_rep_up|done|apply modifies_refl|].
       - eapply fixup_loop_exit; [done| |done].
         simpl in Hr |- *. unfold plug1 in Hr. by destruct (fdir f1).
       - intros Ht Hc. apply (fixup_exit_ok _ _ [f1]); [done|done|].
         intros f c0 [= <- <-]. simpl in Hr. rewrite rl_plug1 in Hr.
         by rewrite (color_of_lookup _ _ _ Hr). }
  destruct Hctx as (Hn1 & Hs1 & Hn2 & Hs2 & Hctx).
  assert (∃ c1 l1 r1, nodes h !! fnode f1 = Some
            (RBNode.mk (Some (AddressRange.start (frg f1)))
                       (Some (AddressRange.end_ (frg f1))) c1 l1 r1 (fnode f2)))
    as (c1 & l1 & r1 & Hn1').
  { destruct (fdir f1); destruct Hn1 as [c1 Hn1]; eauto. }
  destruct c1; cycle 1.
  { (* black parent *)
    exists h, (plug (f1 :: f2 :: c') (Node z rz a b)); split_and!;
      [|by apply zip_rep_top|done|apply modifies_refl|].
    - by eapply fixup_loop_exit.
    - intros Ht Hc. apply fixup_exit_ok; [done|done|].
      intros f c0 [= <- _]. by rewrite (color_of_lookup _ _ _ Hn1'). }
  destruct (wf_tree_top_lookup _ _ _ _ Hs2 Hnilb) as (ndy & Hy & Hyl).
  assert (Hroot' : c' ≠ [] → is_black h (rl nil (plug c' (plug1 f2 (plug1 f1 (Node z rz a b)))))).
  { intros Hc'. destruct c'; [done|]. by apply Hroot. }
  assert (Hrootin : c' ≠ [] → rl nil (plug c' (plug1 f2 (plug1 f1 (Node z rz a b)))) ∈ ctx_locs c')
    by apply rl_plug_in.
  assert (Hrooteq : ∀ t', c' ≠ [] →
            rl nil (plug c' t') = rl nil (plug c' (plug1 f2 (plug1 f1 (Node z rz a b))))).
  { intros t' Hc'. destruct c'; [done|]. apply rl_plug_cons. }
  set (root := rl nil (plug c' (plug1 f2 (plug1 f1 (Node z rz a b))))) in *.
  clearbody root. clear Hroot.
  pose proof (zip_rep_up _ _ _ _ _ _ H) as H1.
  pose proof (zip_rep_up _ _ _ _ _ _ H1) as H2.
  norm_locs.
  assert (z ≠ nil) by ne. assert (fnode f1 ≠ nil) by ne.
  assert (fnode f2 ≠ nil) by ne. assert (fnode f1 ≠ fnode f2) by ne.
  assert (z ≠ fnode f1) by ne. assert (z ≠ fnode f2) by ne.
  assert (rl nil (fsib f2) ≠ fnode f1) by (apply rl_ne; [ne|notin]).
  assert (rl nil (fsib f1) ≠ z) by (apply rl_ne; [ne|notin]).
  destruct (fdir f2) eqn:Hd2; destruct Hn2 as [c2 Hn2].
  - (* the parent is a left child *)
    destruct (RBNode.color ndy) eqn:Hyc.
    + (* red uncle: recolour and move two levels up *)
      destruct (fsib f2) as [|y ry yl yr] eqn:Hsib2; [by specialize (Hyl eq_refl)|].
      clear Hyl. simpl in Hy. norm_locs.
      assert (y ≠ nil) by ne. assert (y ≠ fnode f1) by ne. assert (y ≠ fnode f2) by ne.
      rewrite (plug1_Lft f2) in H2 by done. rewrite Hsib2 in H2.
      edestruct (IH c' (fnode f2) (frg f2) (plug1 f1 (Node z rz a b)) (Node y ry yl yr))
        as (h' & T' & Hrun & Hrep & Hel & Hmod & Hrb); cycle 4.
      { exists h', T'. split_and!; [|done| | |].
        - cbn [RedBlackTree.insert_fixup_loop]. unfold RedBlackTree.grandparent.
          exec. rewrite Hyc. exec. exact Hrun.
        - rewrite Hel. cbn [plug]. by rewrite (plug1_Lft f2), Hsib2.
        - assert (locs (plug (f1 :: f2 :: c') (Node z rz a b)) =
                  locs (plug c' (Node (fnode f2) (frg f2) (plug1 f1 (Node z rz a b))
                                      (Node y ry yl yr)))) as HF
            by (cbn [plug]; by rewrite (plug1_Lft f2), Hsib2).
          rewrite HF. eapply modifies_trans; [|exact Hmod].
          rewrite <- HF. apply modifies_plug. apply modifies_nodes.
          + by rewrite !length_alter.
          + intros n. norm_goal_locs. rewrite Hsib2. norm_goal_locs.
            intros Hn. frame_lookup.
        - intros Ht Hc.
          assert (Hc1 : color_of h (fnode f1) = true)
            by (by rewrite (color_of_lookup _ _ _ Hn1')).
          assert (Hcy : color_of h y = true)
            by (by rewrite (color_of_lookup _ _ _ Hy)).
          pose proof (fixup_recolor_ok _ nil f1 f2 c' z rz a b y ry yl yr
                        (zr_nodup _ _ _ _ _ H) (zr_nil _ _ _ _ _ H)
                        Ht Hc Hc1 Hsib2 Hcy) as R.
          cbv zeta in R. destruct R as [R1 R2].
          rewrite (plug1_Lft f2), Hsib2 in R1, R2 by done.
          match type of Hrb with
          | rb_ok (color_of ?h1) _ _ → _ =>
            assert (Hcm : ∀ n, color_of h1 n
                      = upd (fnode f2) true
                          (upd y false (upd (fnode f1) false (color_of h))) n)
              by (intros n; color_tac)
          end.
          apply Hrb.
          + eapply rb_ok_ext; [exact Hcm|exact R1].
          + rewrite (bheight_ext _ _ _ Hcm).
            eapply ctx_ok_ext; [exact Hcm|exact R2]. }
      * do 3 (apply zip_rep_recolor'; [done|]). by rewrite heap_eta.
      * eexists. split; [heap_lookup|done].
      * intros Hc'. specialize (Hrootin Hc'). rewrite Hrooteq by done.
        do 3 (apply is_black_recolor_other'; [ne|]). rewrite heap_eta. auto.
      * lia.
    + (* black uncle: rotate *)
      clear Hyl IH.
      destruct (fdir f1) eqn:Hd1; destruct Hn1 as [c1 Hn1];
        rewrite Hn1 in Hn1'; injection Hn1' as -> _ _; clear l1 r1.
      * (* the new node is a left child: one rotation *)
        rewrite (plug1_Lft f2), (plug1_Lft f1) in H2 by done.
        set (h3 := mkHeap (alter (RBNode.set_color true) (fnode f2)
                       (alter (RBNode.set_color false) (fnode f1) (nodes h)))
                     (trees h) (sets h)).
        destruct (right_rotate_spec h3 self nil c' (fnode f1) (frg f1)
                    (Node z rz a b) (fnode f2) (frg f2) (fsib f1) (fsib f2))
          as (h4 & Hrot & Hrep4 & Hcol & Hmod).
        { do 2 (apply zip_rep_recolor'; [done|]). by rewrite heap_eta. }
        pose proof Hrep4 as [_ _ ([c14 Hn14] & ([cz4 Hz4] & _) & _) _ _ _].
        assert (c14 = false) as ->.
        { specialize (Hcol (fnode f1)). rewrite Hn14 in Hcol. unfold h3 in Hcol.
          revert Hcol. heap_norm. rewrite Hn1. simpl. congruence. }
        exists h4, (plug c' (Node (fnode f1) (frg f1) (Node z rz a b)
                              (Node (fnode f2) (frg f2) (fsib f1) (fsib f2)))).
        split_and!.
        -- cbn [RedBlackTree.insert_fixup_loop]. unfold RedBlackTree.grandparent.
           exec. rewrite Hyc. exec. fold h3. exec.
           by eapply fixup_loop_exit.
        -- by apply zip_rep_top.
        -- cbn [plug]. rewrite (plug1_Lft f2), (plug1_Lft f1) by done.
           elems_eq.
        -- apply (modifies_trans _ _ _ h3); [unfold h3; recolor_frame|].
           apply modifies_plug in Hmod. revert Hmod. cbn [plug].
           by rewrite (plug1_Lft f2), (plug1_Lft f1).
        -- intros Ht Hc.
           eapply rb_ok_ext;
             [|apply (fixup_rotate_LL_ok (color_of h) nil f1 f2 c' z rz a b
                        (zr_nodup _ _ _ _ _ H) (zr_nil _ _ _ _ _ H) Ht
                        (is_red_color_of _ _ Hred) Hc)].
           ++ intros n. rewrite (color_of_same _ _ n Hcol). unfold h3.
              color_tac.
           ++ by rewrite (color_of_lookup _ _ _ Hn1).
           ++ by rewrite (color_of_lookup _ _ _ Hy).
      * (* the new node is a right child: two rotations *)
        rewrite (plug1_Rgt f1) in H1 by done.
        destruct (left_rotate_spec h self nil (f2 :: c') (fnode f1) (frg f1)
                    (fsib f1) z rz a b H1)
          as (h1 & Hrot1 & Hrep1 & Hcol1 & Hmod1).
        pose proof Hrep1 as [_ Hc1 ([cz1 Hz1] & ([c11 Hn11] & _) & _) _ _ _].
        cbn [wf_ctx] in Hc1. rewrite Hd2 in Hc1. destruct Hc1 as ([c21 Hn21] & _).
        apply zip_rep_up in Hrep1. rewrite (plug1_Lft f2) in Hrep1 by done.
        set (h3 := mkHeap (alter (RBNode.set_color true) (fnode f2)
                       (alter (RBNode.set_color false) z (nodes h1)))
                     (trees h1) (sets h1)).
        destruct (right_rotate_spec h3 self nil c' z rz
                    (Node (fnode f1) (frg f1) (fsib f1) a) (fnode f2) (frg f2)
                    b (fsib f2))
          as (h4 & Hrot & Hrep4 & Hcol & Hmod).
        { do 2 (apply zip_rep_recolor'; [done|]). by rewrite heap_eta. }
        pose proof Hrep4 as [_ _ ([cz4 Hz4] & ([c14 Hn14] & _) & _) _ _ _].
        assert (cz4 = false) as ->.
        { specialize (Hcol z). rewrite Hz4 in Hcol. unfold h3 in Hcol.
          revert Hcol. heap_norm. rewrite Hz1. simpl. congruence. }
        exists h4, (plug c' (Node z rz (Node (fnode f1) (frg f1) (fsib f1) a)
                              (Node (fnode f2) (frg f2) b (fsib f2)))).
        split_and!.
        -- cbn [RedBlackTree.insert_fixup_loop]. unfold RedBlackTree.grandparent.
           exec. rewrite Hyc. exec. fold h3. exec.
           by eapply fixup_loop_exit.
        -- by apply zip_rep_top.
        -- cbn [plug]. rewrite (plug1_Lft f2), (plug1_Rgt f1) by done.
           elems_eq.
        -- apply (modifies_trans _ _ _ h1).
           { apply modifies_plug in Hmod1. revert Hmod1. cbn [plug].
             by rewrite (plug1_Rgt f1). }
           apply (modifies_trans _ _ _ h3); [unfold h3; recolor_frame|].
           apply modifies_plug in Hmod.
           erewrite (locs_elems_congr (plug (f1 :: f2 :: c') (Node z rz a b)));
             [exact Hmod|].
           cbn [plug]. rewrite (plug1_Lft f2), (plug1_Rgt f1) by done. elems_eq.
        -- intros Ht Hc.
           eapply rb_ok_ext;
             [|apply (fixup_rotate_LR_ok (color_of h) nil f1 f2 c' z rz a b
                        (zr_nodup _ _ _ _ _ H) (zr_nil _ _ _ _ _ H) Ht
                        (is_red_color_of _ _ Hred) Hc)].
           ++ intros n. rewrite (color_of_same _ _ n Hcol). unfold h3.
              color_tac.
              apply (color_of_same _ _ _ Hcol1).
           ++ by rewrite (color_of_lookup _ _ _ Hn1).
           ++ by rewrite (color_of_lookup _ _ _ Hy).
  - (* the parent is a right child *)
    destruct (RBNode.color ndy) eqn:Hyc.
    + (* red uncle: recolour and move two levels up *)
      destruct (fsib f2) as [|y ry yl yr] eqn:Hsib2; [by specialize (Hyl eq_refl)|].
      clear Hyl. simpl in Hy. norm_locs.
      assert (y ≠ nil) by ne. assert (y ≠ fnode f1) by ne. assert (y ≠ fnode f2) by ne.
      rewrite (plug1_Rgt f2) in H2 by done. rewrite Hsib2 in H2.
      edestruct (IH c' (fnode f2) (frg f2) (Node y ry yl yr) (plug1 f1 (Node z rz a b)))
        as (h' & T' & Hrun & Hrep & Hel & Hmod & Hrb); cycle 4.
      { exists h', T'. split_and!; [|done| | |].
        - cbn [RedBlackTree.insert_fixup_loop]. unfold RedBlackTree.grandparent.
          exec. rewrite Hyc. exec. exact Hrun.
        - rewrite Hel. cbn [plug]. by rewrite (plug1_Rgt f2), Hsib2.
        - assert (locs (plug (f1 :: f2 :: c') (Node z rz a b)) =
                  locs (plug c' (Node (fnode f2) (frg f2) (Node y ry yl yr)
                                      (plug1 f1 (Node z rz a b))))) as HF
            by (cbn [plug]; by rewrite (plug1_Rgt f2), Hsib2).
          rewrite HF. eapply modifies_trans; [|exact Hmod].
          rewrite <- HF. apply modifies_plug. apply modifies_nodes.
          + by rewrite !length_alter.
          + intros n. norm_goal_locs. rewrite Hsib2. norm_goal_locs.
            intros Hn. frame_lookup.
        - intros Ht Hc.
          assert (Hc1 : color_of h (fnode f1) = true)
            by (by rewrite (color_of_lookup _ _ _ Hn1')).
          assert (Hcy : color_of h y = true)
            by (by rewrite (color_of_lookup _ _ _ Hy)).
          pose proof (fixup_recolor_ok _ nil f1 f2 c' z rz a b y ry yl yr
                        (zr_nodup _ _ _ _ _ H) (zr_nil _ _ _ _ _ H)
                        Ht Hc Hc1 Hsib2 Hcy) as R.
          cbv zeta in R. destruct R as [R1 R2].
          rewrite (plug1_Rgt f2), Hsib2 in R1, R2 by done.
          match type of Hrb with
          | rb_ok (color_of ?h1) _ _ → _ =>
            assert (Hcm : ∀ n, color_of h1 n
                      = upd (fnode f2) true
                          (upd y false (upd (fnode f1) false (color_of h))) n)
              by (intros n; color_tac)
          end.
          apply Hrb.
          + eapply rb_ok_ext; [exact Hcm|exact R1].
          + rewrite (bheight_ext _ _ _ Hcm).
            eapply ctx_ok_ext; [exact Hcm|exact R2]. }
      * do 3 (apply zip_rep_recolor'; [done|]). by rewrite heap_eta.
      * eexists. split; [heap_lookup|done].
      * intros Hc'. specialize (Hrootin Hc'). rewrite Hrooteq by done.
        do 3 (apply is_black_recolor_other'; [ne|]). rewrite heap_eta. auto.
      * lia.
    + (* black uncle: rotate *)
      clear Hyl IH.
      destruct (fdir f1) eqn:Hd1; destruct Hn1 as [c1 Hn1];
        rewrite Hn1 in Hn1'; injection Hn1' as -> _ _; clear l1 r1.
      * (* the new node is a left child: two rotations *)
        rewrite (plug1_Lft f1) in H1 by done.
        destruct (right_rotate_spec h self nil (f2 :: c') z rz a (fnode f1) (frg f1)
                    b (fsib f1) H1)
          as (h1 & Hrot1 & Hrep1 & Hcol1 & Hmod1).
        pose proof Hrep1 as [_ Hc1 ([cz1 Hz1] & _ & ([c11 Hn11] & _) ) _ _ _].
        cbn [wf_ctx] in Hc1. rewrite Hd2 in Hc1. destruct Hc1 as ([c21 Hn21] & _).
        apply zip_rep_up in Hrep1. rewrite (plug1_Rgt f2) in Hrep1 by done.
        set (h3 := mkHeap (alter (RBNode.set_color true) (fnode f2)
                       (alter (RBNode.set_color false) z (nodes h1)))
                     (trees h1) (sets h1)).
        destruct (left_rotate_spec h3 self nil c' (fnode f2) (frg f2) (fsib f2)
                    z rz a (Node (fnode f1) (frg f1) b (fsib f1)))
          as (h4 & Hrot & Hrep4 & Hcol & Hmod).
        { do 2 (apply zip_rep_recolor'; [done|]). by rewrite heap_eta. }
        pose proof Hrep4 as [_ _ ([cz4 Hz4] & _ & ([c14 Hn14] & _)) _ _ _].
        assert (cz4 = false) as ->.
        { specialize (Hcol z). rewrite Hz4 in Hcol. unfold h3 in Hcol.
          revert Hcol. heap_norm. rewrite Hz1. simpl. congruence. }
        exists h4, (plug c' (Node z rz (Node (fnode f2) (frg f2) (fsib f2) a)
                              (Node (fnode f1) (frg f1) b (fsib f1)))).
        split_and!.
        -- cbn [RedBlackTree.insert_fixup_loop]. unfold RedBlackTree.grandparent.
           exec. rewrite Hyc. exec. fold h3. exec.
           by eapply fixup_loop_exit.
        -- by apply zip_rep_top.
        -- cbn [plug]. rewrite (plug1_Rgt f2), (plug1_Lft f1) by done.
           elems_eq.
        -- apply (modifies_trans _ _ _ h1).
           { apply modifies_plug in Hmod1. revert Hmod1. cbn [plug].
             by rewrite (plug1_Lft f1). }
           apply (modifies_trans _ _ _ h3); [unfold h3; recolor_frame|].
           apply modifies_plug in Hmod.
           erewrite (locs_elems_congr (plug (f1 :: f2 :: c') (Node z rz a b)));
             [exact Hmod|].
           cbn [plug]. rewrite (plug1_Rgt f2), (plug1_Lft f1) by done. elems_eq.
        -- intros Ht Hc.
           eapply rb_ok_ext;
             [|apply (fixup_rotate_RL_ok (color_of h) nil f1 f2 c' z rz a b
                        (zr_nodup _ _ _ _ _ H) (zr_nil _ _ _ _ _ H) Ht
                        (is_red_color_of _ _ Hred) Hc)].
           ++ intros n. rewrite (color_of_same _ _ n Hcol). unfold h3.
              color_tac.
              apply (color_of_same _ _ _ Hcol1).
           ++ by rewrite (color_of_lookup _ _ _ Hn1).
           ++ by rewrite (color_of_lookup _ _ _ Hy).
      * (* the new node is a right child: one rotation *)
        rewrite (plug1_Rgt f2), (plug1_Rgt f1) in H2 by done.
        set (h3 := mkHeap (alter (RBNode.set_color true) (fnode f2)
                       (alter (RBNode.set_color false) (fnode f1) (nodes h)))
                     (trees h) (sets h)).
        destruct (left_rotate_spec h3 self nil c' (fnode f2) (frg f2) (fsib f2)
                    (fnode f1) (frg f1) (fsib f1) (Node z rz a b))
          as (h4 & Hrot & Hrep4 & Hcol & Hmod).
        { do 2 (apply zip_rep_recolor'; [done|]). by rewrite heap_eta. }
        pose proof Hrep4 as [_ _ ([c14 Hn14] & _ & ([cz4 Hz4] & _)) _ _ _].
        assert (c14 = false) as ->.
        { specialize (Hcol (fnode f1)). rewrite Hn14 in Hcol. unfold h3 in Hcol.
          revert Hcol. heap_norm. rewrite Hn1. simpl. congruence. }
        exists h4, (plug c' (Node (fnode f1) (frg f1)
                              (Node (fnode f2) (frg f2) (fsib f2) (fsib f1))
                              (Node z rz a b))).
        split_and!.
        -- cbn [RedBlackTree.insert_fixup_loop]. unfold RedBlackTree.grandparent.
           exec. rewrite Hyc. exec. fold h3. exec.
           by eapply fixup_loop_exit.
        -- by apply zip_rep_top.
        -- cbn [plug]. rewrite (plug1_Rgt f2), (plug1_Rgt f1) by done.
           elems_eq.
        -- apply (modifies_trans _ _ _ h3); [unfold h3; recolor_frame|].
           apply modifies_plug in Hmod. revert Hmod. cbn [plug].
           by rewrite (plug1_Rgt f2), (plug1_Rgt f1).
        -- intros Ht Hc.
           eapply rb_ok_ext;
             [|apply (fixup_rotate_RR_ok (color_of h) nil f1 f2 c' z rz a b
                        (zr_nodup _ _ _ _ _ H) (zr_nil _ _ _ _ _ H) Ht
                        (is_red_color_of _ _ Hred) Hc)].
           ++ intros n. rewrite (color_of_same _ _ n Hcol). unfold h3.
              color_tac.
           ++ by rewrite (color_of_lookup _ _ _ Hn1).
           ++ by rewrite (color_of_lookup _ _ _ Hy).
Qed.

Lemma fixup_loop_spec self nil fuel : ∀ c z rz a b h,
  zip_rep h self nil c (Node z rz a b) →
  is_red h z →
  (c ≠ [] → is_black h (rl nil (plug c (Node z rz a b)))) →
  length c ≤ fuel →
  ∃ h' T', RedBlackTree.insert_fixup_loop fuel self z h = Ok (tt, h') ∧
     zip_rep h' self nil [] T' ∧
     elems T' = elems (plug c (Node z rz a b)) ∧
     modifies (locs (plug c (Node z rz a b))) self h h'.
Proof.
  intros c z rz a b h H1 H2 H3 H4.
  destruct (fixup_loop_spec_rb self nil fuel c z rz a b h H1 H2 H3 H4)
    as (h' & T' & ? & ? & ? & ? & _).
  by exists h', T'.
Qed.

(** ** Layouts survive the creation of objects *)

Lemma node_is_mono h h' n rg l r p :
  (∀ n nd, nodes h !! n = Some nd → nodes h' !! n = Some nd) →
  node_is h n rg l r p → node_is h' n rg l r p.
Proof. intros Hm [c H]. exists c. by apply Hm. Qed.

Lemma wf_tree_mono h h' nil p t :
  (∀ n nd, nodes h !! n = Some nd → nodes h' !! n = Some nd) →
  wf_tree h nil p t → wf_tree h' nil p t.
Proof.
  intros Hm. revert p. induction t as [|n rg l IHl r IHr]; intros p; simpl; [done|].
  intros (Hn & Hl & Hr). split_and!; eauto using node_is_mono.
Qed.

Lemma wf_ctx_mono h h' nil c child :
  (∀ n nd, nodes h !! n = Some nd → nodes h' !! n = Some nd) →
  wf_ctx h nil c child → wf_ctx h' nil c child.
Proof.
  intros Hm. revert child. induction c as [|f c IH]; intros child; simpl; [done|].
  intros (Hn & Hs & Hc). split_and!; eauto using wf_tree_mono.
  destruct (fdir f); eauto using node_is_mono.
Qed.

Lemma is_black_mono h h' n :
  (∀ n nd, nodes h !! n = Some nd → nodes h' !! n = Some nd) →
  is_black h n → is_black h' n.
Proof. intros Hm (nd & ? & ?). exists nd. auto. Qed.

Lemma zip_rep_mono h h' self nil c t :
  (∀ n nd, nodes h !! n = Some nd → nodes h' !! n = Some nd) →
  (∀ o, trees h !! self = Some o → trees h' !! self = Some o) →
  zip_rep h self nil c t → zip_rep h' self nil c t.
Proof.
  intros Hm Ht []. split; eauto using wf_tree_mono, wf_ctx_mono, is_black_mono.
Qed.

Lemma tree_rep_mono h h' self nil t :
  (∀ n nd, nodes h !! n = Some nd → nodes h' !! n = Some nd) →
  (∀ o, trees h !! self = Some o → trees h' !! self = Some o) →
  tree_rep h self nil t → tree_rep h' self nil t.
Proof. intros Hm Ht []. split; eauto using zip_rep_mono, is_black_mono. Qed.

(** ** Every node of a tree is an object of the store *)

Lemma wf_tree_lt h nil p t n :
  wf_tree h nil p t → n ∈ locs t → n < length (nodes h).
Proof.
  revert p. induction t as [|m rg l IHl r IHr]; intros p; simpl.
  - intros _ Hn. by apply elem_of_nil in Hn.
  - intros ([c Hc] & Hl & Hr). rewrite locs_node.
    intros [Hn|[->|Hn]%elem_of_cons]%elem_of_app; eauto using lookup_lt_Some.
Qed.

Lemma wf_ctx_lt h nil c child n :
  wf_ctx h nil c child → n ∈ ctx_locs c → n < length (nodes h).
Proof.
  revert child. induction c as [|f c IH]; intros child; simpl.
  - intros _ Hn. by apply elem_of_nil in Hn.
  - intros (Hf & Hs & Hc). unfold frame_locs. simpl.
    intros [->|[Hn|Hn]%elem_of_app]%elem_of_cons; eauto using wf_tree_lt.
    destruct (fdir f); destruct Hf as [cf Hf]; eauto using lookup_lt_Some.
Qed.

Lemma zip_rep_lt h self nil c t n :
  zip_rep h self nil c t → n ∈ locs t ++ ctx_locs c → n < length (nodes h).
Proof.
  intros [] [Hn|Hn]%elem_of_app; eauto using wf_tree_lt, wf_ctx_lt.
Qed.

Lemma zip_rep_size h self nil c t :
  zip_rep h self nil c t → length (locs t ++ ctx_locs c) ≤ length (nodes h).
Proof.
  intros H.
  assert (locs t ++ ctx_locs c ⊆+ seq 0 (length (nodes h))) as Hs.
  { apply NoDup_submseteq; [apply H|].
    intros n Hn. apply elem_of_seq. split; [lia|]. simpl.
    by eapply zip_rep_lt. }
  apply submseteq_length in Hs. by rewrite length_seq in Hs.
Qed.

(** ** The descent of [insert] *)

Lemma bindR_lift_ok {A B} (a : A) (k : A → Rd B) h :
  bindR (liftR (Ok a)) k h = k a h.
Proof. reflexivity. Qed.

Lemma bindR_bindR {A B C} (m : Rd A) (k : A → Rd B) (k' : B → Rd C) h :
  bindR (bindR m k) k' h = bindR m (λ a, bindR (k a) k') h.
Proof. unfold bindR. by destruct (m h). Qed.

Lemma insert_loop_spec h self nil z ndz k :
  nodes h !! z = Some ndz → RBNode.key ndz = Some k →
  ∀ t c fuel,
    zip_rep h self nil c t → path_ok k c → length (locs t) ≤ fuel →
    ∃ c', RedBlackTree.insert_loop fuel self z (top nil c) (rl nil t) h
          = Ok (top nil c') ∧
          zip_rep h self nil c' Leaf ∧ plug c' Leaf = plug c t ∧ path_ok k c'.
Proof.
  intros Hz Hk. induction t as [|x rg l IHl r IHr]; intros c fuel Hrep Hpath Hfuel.
  - exists c. split_and!; try done.
    destruct fuel; simpl; (erewrite bindR_tree by apply Hrep); simpl;
      by rewrite loc_eqb_refl.
  - rewrite locs_node, length_app in Hfuel. simpl in Hfuel.
    destruct fuel as [|fuel]; [lia|].
    pose proof Hrep as [Hobj Hctx ([cx Hx] & Hl & Hr) Hnd Hnil Hnilb].
    norm_locs. assert (x ≠ nil) by ne.
    cbn [RedBlackTree.insert_loop rl]. erewrite bindR_tree by done. simpl.
    rewrite loc_eqb_ne by done. simpl. unfold RedBlackTree.key_lt.
    rewrite bindR_bindR. erewrite bindR_node by done.
    rewrite bindR_bindR. erewrite bindR_node by done.
    rewrite Hk. simpl. rewrite bindR_lift_ok.
    destruct (Address.lt k (AddressRange.start rg)) eqn:Hlt.
    + erewrite bindR_node by done. simpl.
      destruct (IHl (Frame Lft x rg r :: c) fuel) as (c' & Hrun & Hrep' & Hpl & Hp').
      * by apply zip_rep_down.
      * by constructor.
      * lia.
      * exists c'. split_and!; try done.
    + erewrite bindR_node by done. simpl.
      destruct (IHr (Frame Rgt x rg l :: c) fuel) as (c' & Hrun & Hrep' & Hpl & Hp').
      * by apply zip_rep_down.
      * by constructor.
      * lia.
      * exists c'. split_and!; try done.
Qed.

(** The new node goes between the elements to its left, whose keys are at
    most its own, and those to its right, whose keys are greater. *)
Lemma path_bounds k c :
  path_ok k c →
  StronglySorted key_le (before c ++ after c) →
  Forall (λ e, (Address.offset (AddressRange.start e.2) ≤ Address.offset k)%Z) (before c) ∧
  Forall (λ e, (Address.offset k < Address.offset (AddressRange.start e.2))%Z) (after c).
Proof.
  induction c as [|f c IH]; intros Hp Hs; [by split|].
  apply Forall_cons in Hp as [Hf Hp]. simpl in Hs |- *.
  unfold Address.lt in Hf.
  destruct (fdir f).
  - rewrite app_nil_r in Hs |- *. apply Z.ltb_lt in Hf.
    assert (StronglySorted key_le (before c ++ after c)) as Hs'.
    { apply StronglySorted_app in Hs as (H1 & H2 & H3).
      apply StronglySorted_app_2; [|done|].
      - intros x1 x2 Hx1 Hx2. apply H1; [done|]. set_solver.
      - simpl in H3. apply StronglySorted_cons in H3 as [_ H3].
        by apply StronglySorted_app_1_r in H3. }
    destruct (IH Hp Hs') as [IH1 IH2]. split; [done|].
    apply StronglySorted_app_1_r in Hs. simpl in Hs.
    apply StronglySorted_cons in Hs as [Hs _].
    constructor; [done|]. apply Forall_app. split; [|done].
    apply Forall_app in Hs as [Hs _]. eapply Forall_impl; [exact Hs|].
    intros e He. unfold key_le in He. simpl in He |- *. lia.
  - simpl in Hs |- *. apply Z.ltb_ge in Hf.
    assert (StronglySorted key_le (before c ++ after c)) as Hs'.
    { rewrite <- app_assoc in Hs.
      apply StronglySorted_app in Hs as (H1 & H2 & H3).
      apply StronglySorted_app_2; [|done|].
      - intros x1 x2 Hx1 Hx2. apply H1; [done|]. set_solver.
      - rewrite <- app_assoc in H3. apply StronglySorted_app_1_r in H3.
        simpl in H3. by apply StronglySorted_cons in H3 as [_ H3]. }
    destruct (IH Hp Hs') as [IH1 IH2]. split; [|done].
    apply Forall_app. split; [done|].
    rewrite <- app_assoc in Hs. apply StronglySorted_app_1_r in Hs.
    apply StronglySorted_app_1_l in Hs.
    apply Forall_app. split; [|by constructor].
    apply StronglySorted_app in Hs as (H1 & _ & _).
    apply Forall_forall. intros e He. specialize (H1 e (fnode f, frg f) He).
    unfold key_le in H1. simpl in H1. specialize (H1 ltac:(set_solver)). lia.
Qed.

Lemma path_sorted k c e :
  AddressRange.start e.2 = k →
  path_ok k c →
  StronglySorted key_le (before c ++ after c) →
  StronglySorted key_le (before c ++ e :: after c).
Proof.
  intros He Hp Hs. destruct (path_bounds k c Hp Hs) as [Hb Ha].
  apply StronglySorted_app in Hs as (H1 & H2 & H3).
  apply StronglySorted_app_2; [|done|].
  - intros x1 x2 Hx1 [->|Hx2]%elem_of_cons; [|by apply H1].
    rewrite Forall_forall in Hb. specialize (Hb x1 Hx1).
    unfold key_le. rewrite He. simpl in Hb. lia.
  - apply StronglySorted_cons. split; [|done].
    eapply Forall_impl; [exact Ha|]. intros x Hx. unfold key_le.
    rewrite He. simpl in Hx. lia.
Qed.

Lemma bind_new_node {B} nd (k : nat → M B) h :
  bind (new_node nd) k h =
  k (length (nodes h)) (mkHeap (nodes h ++ [nd]) (trees h) (sets h)).
Proof. reflexivity. Qed.

Lemma bind_node_count {B} (k : nat → M B) h :
  bind (rd node_count) k h = k (length (nodes h)) h.
Proof. reflexivity. Qed.

Lemma is_black_color h n :
  is_black h n ↔ RBNode.color <$> nodes h !! n = Some RBNode.BLACK.
Proof.
  unfold is_black. split.
  - intros (nd & -> & <-). done.
  - destruct (nodes h !! n) as [nd|]; [|done]. intros [= H]. eauto.
Qed.

Lemma ctx_locs_length c : length c ≤ length (ctx_locs c).
Proof.
  induction c as [|f c IH]; simpl; [done|]. rewrite length_app. lia.
Qed.

Lemma insert_fixup_spec_rb h self nil c z rz a b :
  zip_rep h self nil c (Node z rz a b) →
  is_red h z →
  (c ≠ [] → is_black h (rl nil (plug c (Node z rz a b)))) →
  ∃ h' T', RedBlackTree.insert_fixup self z h = Ok (tt, h') ∧
     tree_rep h' self nil T' ∧
     elems T' = elems (plug c (Node z rz a b)) ∧
     modifies (locs (plug c (Node z rz a b))) self h h' ∧
     (rb_ok (color_of h) nil (Node z rz a b) →
      ctx_ok (color_of h) nil c false (bheight (color_of h) (Node z rz a b)) →
      rb_ok (color_of h') nil T').
Proof.
  intros Hrep Hred Hroot.
  destruct (fixup_loop_spec_rb self nil (length (nodes h)) c z rz a b h Hrep Hred Hroot)
    as (h3 & T3 & Hrun & Hrep3 & Hel & Hmod & Hrb).
  { pose proof (zip_rep_size _ _ _ _ _ Hrep) as Hs. rewrite length_app in Hs.
    pose proof (ctx_locs_length c). lia. }
  destruct T3 as [|r rr l3 r3].
  { exfalso. rewrite elems_plug in Hel. simpl in Hel.
    symmetry in Hel. apply app_eq_nil in Hel as [_ Hel].
    rewrite <- app_assoc in Hel. apply app_eq_nil in Hel as [_ Hel]. done. }
  pose proof (zr_nodup _ _ _ _ _ Hrep3) as Hnd3.
  pose proof (zr_nil _ _ _ _ _ Hrep3) as Hnil3.
  simpl in Hnd3, Hnil3. rewrite app_nil_r in Hnd3, Hnil3.
  pose proof Hrep3 as [Hobj _ ([cr Hr] & _) _ Hnil _]. simpl in Hobj.
  revert Hnd3 Hnil3. norm_locs. intros Hnd3 Hnil3. assert (r ≠ nil) by ne.
  exists (mkHeap (alter (RBNode.set_color RBNode.BLACK) r (nodes h3))
                 (trees h3) (sets h3)), (Node r rr l3 r3).
  split_and!.
  - unfold RedBlackTree.insert_fixup. rewrite bind_node_count.
    erewrite bind_ok by exact Hrun. exec. by erewrite node_set_ok by heap_lookup.
  - split.
    + by apply zip_rep_recolor.
    + eexists. split; [heap_lookup|done].
  - done.
  - eapply modifies_trans; [exact Hmod|].
    apply modifies_node_set. unfold locs. rewrite <- Hel. simpl.
    rewrite fmap_app. simpl. set_solver.
  - intros Ht Hc. specialize (Hrb Ht Hc).
    eapply rb_ok_ext; [|exact (blacken_root_ok _ _ _ _ _ _ Hnd3 Hnil3 Hrb)].
    intros n. color_tac.
Qed.

Lemma insert_fixup_spec h self nil c z rz a b :
  zip_rep h self nil c (Node z rz a b) →
  is_red h z →
  (c ≠ [] → is_black h (rl nil (plug c (Node z rz a b)))) →
  ∃ h' T', RedBlackTree.insert_fixup self z h = Ok (tt, h') ∧
     tree_rep h' self nil T' ∧
     elems T' = elems (plug c (Node z rz a b)) ∧
     modifies (locs (plug c (Node z rz a b))) self h h'.
Proof.
  intros H1 H2 H3.
  destruct (insert_fixup_spec_rb h self nil c z rz a b H1 H2 H3)
    as (h' & T' & ? & ? & ? & ? & _).
  by exists h', T'.
Qed.

Lemma bind_rd_lift_ok {A B} (a : A) (k : A → M B) h :
  bind (rd (liftR (Ok a))) k h = k a h.
Proof. reflexivity. Qed.

(** Linking the new node [z] below the node the descent stopped at. *)
Lemma insert_attach_spec h self nil c z k v :
  zip_rep h self nil c Leaf →
  nodes h !! z = Some (RBNode.mk (Some k) (Some v) RBNode.RED nil nil nil) →
  z ∉ ctx_locs c → nil ≠ z → path_ok k c →
  ∃ h',
    (∀ K : M unit,
      (do! node_set (RBNode.set_parent (top nil c)) z in
       let! nil0 := rd (tree_get Obj.nil self) in
       do! (if loc_eqb (top nil c) nil0 then tree_set (Obj.set_root z) self
            else let! b := rd (RedBlackTree.key_lt z (top nil c)) in
                 if b then node_set (RBNode.set_left z) (top nil c)
                 else node_set (RBNode.set_right z) (top nil c)) in
       do! node_set (RBNode.set_left nil0) z in
       do! node_set (RBNode.set_right nil0) z in
       do! node_set (RBNode.set_color RBNode.RED) z in K) h = K h') ∧
    zip_rep h' self nil c (Node z (AddressRange.mk k v) Leaf Leaf) ∧
    is_red h' z ∧
    (∀ n, n ≠ z → RBNode.color <$> nodes h' !! n = RBNode.color <$> nodes h !! n) ∧
    modifies (z :: ctx_locs c) self h h'.
Proof.
  intros [Hobj Hctx _ Hnd Hnil Hnilb] Hz Hzc Hznil Hpath.
  destruct Hnilb as (ndnil & Hnl & Hnlc).
  simpl in Hnd, Hnil.
  assert (NoDup (locs (Node z (AddressRange.mk k v) Leaf Leaf) ++ ctx_locs c)) as Hnd2.
  { rewrite locs_node. simpl. by apply NoDup_cons. }
  assert (nil ∉ locs (Node z (AddressRange.mk k v) Leaf Leaf) ++ ctx_locs c) as Hnil2.
  { rewrite locs_node. simpl. intros [?|?]%elem_of_cons; done. }
  revert Hnd2 Hnil2.
  destruct c as [|f c'];
    [|destruct Hctx as (Hf & Hsib & Hctx); apply Forall_cons in Hpath as [Hlt _];
      destruct (fdir f) eqn:Hdir; destruct Hf as [cf Hf]];
    norm_locs; intros Hnd2 Hnil2.
  all: try (assert (fnode f ≠ z) by (intros ->; apply Hzc; simpl; left);
            assert (fnode f ≠ nil) by ne).
  all: simpl in *.
  all: eexists; split;
    [intros K; unfold RedBlackTree.key_lt; exec; cbn [py_lt];
     rewrite ?Hlt; rewrite ?bind_rd_lift_ok; exec; reflexivity|].
  all: split; [apply Build_zip_rep; [> | | | exact Hnd2 | exact Hnil2 | ]
              | split; [|split]]; cbn [nodes trees sets].
  (* the tree object *)
  all: try (cbn [plug rl]; by rewrite list_lookup_alter_eq, Hobj).
  all: try (cbn [plug]; rewrite Hobj; do 2 f_equal; apply (rl_plug_cons nil f c')).
  (* the sentinel and the new node *)
  all: try (exists ndnil; split; [heap_norm; done|done]).
  all: try (eexists; split; [heap_lookup|done]).
  (* colours *)
  all: try (intros n Hn; cbn [nodes]; rewrite list_lookup_alter_ne by done;
            by rewrite !lookup_alter_proj by done).
  (* the path to the root *)
  all: try exact I.
  all: try (cbn [wf_ctx rl]; rewrite Hdir; split_and!;
            [ eexists; heap_lookup
            | eapply wf_tree_frame; [|eassumption]; intros n Hn; frame_lookup
            | eapply wf_ctx_frame; [|eassumption]; intros n Hn; frame_lookup ]).
  (* the new leaf *)
  all: try (cbn [wf_tree rl top]; split_and!; try done; eexists; heap_lookup).
  (* the frame *)
  all: split; cbn [nodes trees sets]; rewrite ?length_alter; try done;
    first [ intros n; norm_goal_locs; intros Hn; frame_lookup
          | intros t Ht; by rewrite ?list_lookup_alter_ne by done
          | by rewrite ?list_lookup_alter_eq, Hobj ].
Qed.

Lemma insert_spec_rb h self nil T k v :
  tree_rep h self nil T →
  ∃ h' T' c,
    RedBlackTree.insert self k v h = Ok (tt, h') ∧
    tree_rep h' self nil T' ∧
    elems T = before c ++ after c ∧
    elems T' = before c ++ (length (nodes h), AddressRange.mk k v) :: after c ∧
    path_ok k c ∧
    insert_frame (locs T) self h h' ∧
    (rb_ok (color_of h) nil T → rb_ok (color_of h') nil T').
Proof.
  intros [Hrep Hrootb].
  set (z := length (nodes h)).
  set (rg := AddressRange.mk k v).
  set (ndz := RBNode.mk (Some k) (Some v) RBNode.RED nil nil nil).
  set (h1 := mkHeap (nodes h ++ [ndz]) (trees h) (sets h)).
  assert (Hmono : ∀ n nd, nodes h !! n = Some nd → nodes h1 !! n = Some nd).
  { intros n nd Hn. simpl. by apply lookup_app_l_Some. }
  assert (Hrep1 : zip_rep h1 self nil [] T) by (by eapply zip_rep_mono).
  assert (Hz1 : nodes h1 !! z = Some ndz).
  { simpl. by rewrite lookup_app_r, Nat.sub_diag. }
  assert (Hlen1 : length (nodes h1) = S z).
  { simpl. rewrite length_app. simpl. unfold z. lia. }
  assert (Hsize : length (locs T) ≤ length (nodes h1)).
  { pose proof (zip_rep_size _ _ _ _ _ Hrep) as Hs. simpl in Hs.
    rewrite app_nil_r in Hs. lia. }
  destruct (insert_loop_spec h1 self nil z ndz k Hz1 eq_refl T [] (length (nodes h1))
              Hrep1 ltac:(constructor) Hsize)
    as (c & Hrun & Hrepc & Hpl & Hpath).
  cbn [plug top] in Hpl, Hrun.
  assert (HlocsT : ∀ n, n ∈ locs T ↔ n ∈ ctx_locs c).
  { intros n. by rewrite <- Hpl, locs_plug. }
  assert (HlocsT' : ∀ n, n ∈ locs (plug c (Node z rg Leaf Leaf)) ↔ n = z ∨ n ∈ ctx_locs c).
  { intros n. rewrite locs_plug, locs_node. simpl. set_solver. }
  assert (Hlt : ∀ n, n ∈ ctx_locs c → n < z).
  { intros n Hn. apply HlocsT in Hn. eapply zip_rep_lt; [exact Hrep|].
    simpl. by rewrite app_nil_r. }
  assert (Hznil : nil ≠ z).
  { destruct Hrep as [_ _ _ _ _ (nd & Hnd & _)].
    apply lookup_lt_Some in Hnd. unfold z. lia. }
  assert (Hzc : z ∉ ctx_locs c).
  { intros Hz. apply Hlt in Hz. lia. }
  pose proof Hrepc as [Hobj Hctx _ Hnd Hnil Hnilb]. simpl in Hnd, Hnil.
  assert (Hel : elems T = before c ++ after c).
  { by rewrite <- Hpl, elems_plug. }
  assert (Hframe1 : ∀ n, n < z → nodes h1 !! n = nodes h !! n).
  { intros n Hn. simpl. by rewrite lookup_app_l. }
  assert (Htrees1 : trees h1 = trees h) by done.
  assert (Hsets1 : sets h1 = sets h) by done.
  eassert (Hstep : RedBlackTree.insert self k v h = _).
  { unfold RedBlackTree.insert.
    erewrite bind_rd_tree by apply Hrep. cbn [Obj.nil].
    rewrite bind_new_node. fold ndz h1 z. reflexivity. }
  match type of Hstep with
  | _ = ?rhs =>
    enough (∃ h' T' c,
      rhs = Ok (tt, h') ∧ tree_rep h' self nil T' ∧
      elems T = before c ++ after c ∧
      elems T' = before c ++ (z, rg) :: after c ∧
      path_ok k c ∧ insert_frame (locs T) self h h' ∧
      (rb_ok (color_of h) nil T → rb_ok (color_of h') nil T'))
      as (h' & T' & c0 & ? & ?) by (exists h', T', c0; by rewrite Hstep)
  end.
  assert (Hnilb0 : color_of h nil = false).
  { apply is_black_color_of. apply Hrep. }
  clear Hstep. clearbody h1.
  destruct (insert_attach_spec h1 self nil c z k v Hrepc Hz1 Hzc Hznil Hpath)
    as (h2 & Hatt & Hrep2 & Hred2 & Hcol2 & Hmod2).
  fold rg in Hrep2.
  destruct (insert_fixup_spec_rb h2 self nil c z rg Leaf Leaf Hrep2 Hred2)
    as (h' & T' & Hfix & Hrep' & Hel' & Hmod' & Hrb).
  { intros Hc. apply is_black_color. rewrite Hcol2.
    - apply is_black_color. eapply is_black_mono; [exact Hmono|].
      destruct c as [|f c']; [done|].
      rewrite (rl_plug_cons nil f c' _ Leaf), Hpl. exact Hrootb.
    - intros E. apply Hzc. rewrite <- E. by apply rl_plug_in. }
  exists h', T', c. split_and!; try done.
  - rewrite Hpl in Hobj.
    erewrite bind_rd_tree by exact Hobj. erewrite bind_rd_tree by exact Hobj.
    cbn [Obj.nil Obj.root]. rewrite bind_node_count.
    erewrite bind_rd_ok by exact Hrun. rewrite Hatt. exact Hfix.
  - rewrite Hel', elems_plug. done.
  - destruct Hmod' as [Hl' Hn' Htl' Ht' _ Hs'], Hmod2 as [Hl2 Hn2 Htl2 Ht2 _ Hs2].
    split.
    + rewrite Hl', Hl2. done.
    + intros n Hn Hlt'. rewrite Hn', Hn2, Hframe1; [done|done| |].
      * intros [->|Hin]%elem_of_cons; [lia|]. by apply Hn, HlocsT.
      * intros [->|Hin]%HlocsT'; [lia|]. by apply Hn, HlocsT.
    + by rewrite Htl', Htl2, Htrees1.
    + intros t Ht. by rewrite Ht', Ht2, Htrees1.
    + by rewrite Hs', Hs2.
  - intros HT. rewrite <- Hpl in HT.
    destruct (insert_leaf_ok (color_of h) (color_of h2) nil c z rg HT Hnilb0)
      as [L1 L2]; try done.
    + intros n Hn. rewrite (color_of_eq h1 h2) by (by apply Hcol2).
      unfold color_of. destruct (decide (n < z)) as [Hlt'|Hge].
      * by rewrite Hframe1.
      * rewrite (lookup_ge_None_2 (nodes h1)) by lia.
        rewrite (lookup_ge_None_2 (nodes h)) by (fold z; lia). done.
    + by apply is_red_color_of.
    + by apply Hrb.
Qed.

Lemma insert_spec h self nil T k v :
  tree_rep h self nil T →
  ∃ h' T' c,
    RedBlackTree.insert self k v h = Ok (tt, h') ∧
    tree_rep h' self nil T' ∧
    elems T = before c ++ after c ∧
    elems T' = before c ++ (length (nodes h), AddressRange.mk k v) :: after c ∧
    path_ok k c ∧
    insert_frame (locs T) self h h'.
Proof.
  intros H.
  destruct (insert_spec_rb h self nil T k v H)
    as (h' & T' & c & ? & ? & ? & ? & ? & ? & _).
  by exists h', T', c.
Qed.

(** ** Traversal *)

Lemma _inorder_spec h nil : ∀ t p fuel,
  wf_tree h nil p t → nil ∉ locs t → length (locs t) ≤ fuel →
  RedBlackTree._inorder fuel nil (rl nil t) h = Ok (locs t).
Proof.
  induction t as [|n rg l IHl r IHr]; intros p fuel Hwf Hnil Hfuel.
  - destruct fuel; simpl; by rewrite loc_eqb_refl.
  - rewrite locs_node in Hnil, Hfuel |- *. rewrite length_app in Hfuel.
    simpl in Hfuel. destruct fuel as [|fuel]; [lia|].
    destruct Hwf as ([c Hn] & Hl & Hr).
    assert (n ≠ nil) by (intros ->; apply Hnil; set_solver).
    cbn [RedBlackTree._inorder rl]. rewrite loc_eqb_ne by done. cbn [negb].
    erewrite bindR_node by done. cbn [RBNode.left].
    erewrite bindR_ok; cycle 1.
    { eapply IHl; [done| |lia]. intros ?. apply Hnil. set_solver. }
    erewrite bindR_node by done. cbn [RBNode.right].
    erewrite bindR_ok; cycle 1.
    { eapply IHr; [done| |lia]. intros ?. apply Hnil. set_solver. }
    reflexivity.
Qed.

Lemma inorder_spec h self nil t :
  tree_rep h self nil t → RedBlackTree.inorder self h = Ok (locs t).
Proof.
  intros [Hrep _]. pose proof (zip_rep_size _ _ _ _ _ Hrep) as Hsize.
  destruct Hrep as [Hobj _ Hwf _ Hnil _]. simpl in *.
  rewrite app_nil_r in Hsize, Hnil.
  unfold RedBlackTree.inorder.
  erewrite bindR_tree by done. erewrite bindR_tree by done.
  cbn [Obj.nil Obj.root]. unfold bindR at 1. cbn [node_count].
  by eapply _inorder_spec.
Qed.

Lemma node_range_spec h n rg l r p :
  node_is h n rg l r p → valid_range rg → AddressSet.node_range n h = Ok rg.
Proof.
  intros [c Hn] Hv. unfold AddressSet.node_range.
  erewrite bindR_node by done. erewrite bindR_node by done. simpl.
  unfold bindR, liftR, Address.lt. unfold valid_range in Hv.
  rewrite (proj2 (Z.ltb_ge _ _)) by lia. by destruct rg.
Qed.

Lemma node_ranges_app h l1 l2 r1 r2 :
  AddressSet.node_ranges l1 h = Ok r1 →
  AddressSet.node_ranges l2 h = Ok r2 →
  AddressSet.node_ranges (l1 ++ l2) h = Ok (r1 ++ r2).
Proof.
  revert r1. induction l1 as [|n l1 IH]; intros r1.
  - by intros [= <-].
  - cbn [AddressSet.node_ranges app]. unfold bindR, retR.
    destruct (AddressSet.node_range n h) as [rg|]; [|done].
    destruct (AddressSet.node_ranges l1 h) as [rs|] eqn:E; [|done].
    intros [= <-] H2. by rewrite (IH rs eq_refl H2).
Qed.

Lemma node_ranges_spec h nil : ∀ t p,
  wf_tree h nil p t → Forall valid_range (ranges t) →
  AddressSet.node_ranges (locs t) h = Ok (ranges t).
Proof.
  induction t as [|n rg l IHl r IHr]; intros p Hwf Hv; [done|].
  destruct Hwf as (Hn & Hl & Hr). rewrite ranges_node in Hv.
  apply Forall_app in Hv as [Hvl Hv]. apply Forall_cons in Hv as [Hvn Hvr].
  rewrite locs_node, ranges_node. apply node_ranges_app; [by eapply IHl|].
  simpl. erewrite bindR_ok by (by eapply node_range_spec).
  erewrite bindR_ok by (by eapply IHr). reflexivity.
Qed.

Lemma bindR_set {A B} (f : Obj.AddressSet → A) s o (k : A → Rd B) h :
  sets h !! s = Some o → bindR (set_get f s) k h = k (f o) h.
Proof. intros H. unfold bindR, set_get. by rewrite H. Qed.

Lemma get_address_ranges_spec h s tr nil t :
  set_rep_at h s tr nil t →
  AddressSet.get_address_ranges s h = Ok (ranges t).
Proof.
  intros [Hobj Htree Hv _]. unfold AddressSet.get_address_ranges.
  erewrite bindR_set by done. cbn [Obj.tree].
  erewrite bindR_ok by (by eapply inorder_spec).
  eapply node_ranges_spec; [|done]. apply Htree.
Qed.

Lemma get_num_addresses_spec h s tr nil t :
  set_rep_at h s tr nil t →
  AddressSet.get_num_addresses s h = Ok (sum_lengths (ranges t)).
Proof.
  intros [Hobj _ _ _]. unfold AddressSet.get_num_addresses, set_get.
  by rewrite Hobj.
Qed.

(** ** Extension of the store *)

Lemma extends_refl h : extends h h.
Proof. by split_and!. Qed.

Lemma extends_trans h1 h2 h3 : extends h1 h2 → extends h2 h3 → extends h1 h3.
Proof. intros (?&?&?) (?&?&?). split_and!; eauto. Qed.

Lemma set_rep_at_extends h h' s tr nil t :
  extends h h' → set_rep_at h s tr nil t → set_rep_at h' s tr nil t.
Proof.
  intros (Hn & Ht & Hs) [Hobj Htree Hv Hso]. split; auto.
  eapply tree_rep_mono; eauto.
Qed.

Lemma set_rep_extends h h' s t :
  extends h h' → set_rep h s t → set_rep h' s t.
Proof. intros He (tr & nil & H). exists tr, nil. by eapply set_rep_at_extends. Qed.

(** ** Construction *)

Lemma tree_init_spec h :
  let nl := length (nodes h) in
  let h' := mkHeap (nodes h ++ [RBNode.mk None None RBNode.BLACK nl nl nl])
                   (trees h ++ [Obj.mkTree nl nl]) (sets h) in
  RedBlackTree.init h = Ok (length (trees h), h') ∧
  tree_rep h' (length (trees h)) nl Leaf.
Proof.
  intros nl h'. split; [reflexivity|].
  assert (is_black h' nl).
  { eexists. split; [simpl; by rewrite lookup_app_r, Nat.sub_diag|reflexivity]. }
  split; [split|]; simpl; try done.
  - by rewrite lookup_app_r, Nat.sub_diag.
  - constructor.
  - by intros ?%elem_of_nil.
Qed.

Lemma sum_lengths_app l1 l2 :
  sum_lengths (l1 ++ l2) = (sum_lengths l1 + sum_lengths l2)%Z.
Proof. induction l1 as [|r l1 IH]; simpl; [done|]. rewrite IH. lia. Qed.

Lemma set_init_empty_spec h :
  ∃ h', AddressSet.init None h = Ok (length (sets h), h') ∧
        set_rep_at h' (length (sets h)) (length (trees h)) (length (nodes h)) Leaf ∧
        extends h h' ∧
        fresh_in h (length (sets h)) (length (trees h)) (length (nodes h)) Leaf.
Proof.
  destruct (tree_init_spec h) as [Hrun Hrep]. simpl in Hrun, Hrep.
  eexists. split; [|split_and!].
  - unfold AddressSet.init. erewrite bind_ok by exact Hrun. reflexivity.
  - split; simpl.
    + by rewrite lookup_app_r, Nat.sub_diag.
    + eapply tree_rep_mono; [| |exact Hrep]; done.
    + constructor.
    + constructor.
  - split_and!; simpl; intros n x Hn; by apply lookup_app_l_Some.
  - split; try done. by intros n ?%elem_of_nil.
Qed.

(** ** [add] *)

Lemma bind_rd_set {A B} (f : Obj.AddressSet → A) s o (k : A → M B) h :
  sets h !! s = Some o → bind (rd (set_get f s)) k h = k (f o) h.
Proof. intros H. unfold bind, rd, set_get. by rewrite H. Qed.

Lemma set_set_ok f s o h :
  sets h !! s = Some o →
  set_set f s h = Ok (tt, mkHeap (nodes h) (trees h) (alter f s (sets h))).
Proof. intros H. unfold set_set. by rewrite H. Qed.

Lemma add_spec_rb h s tr nil t r :
  set_rep_at h s tr nil t → valid_range r →
  ∃ h' t' l1 l2,
    AddressSet.add s r h = Ok (tt, h') ∧
    set_rep_at h' s tr nil t' ∧
    elems t = l1 ++ l2 ∧
    elems t' = l1 ++ (length (nodes h), r) :: l2 ∧
    add_frame (locs t) s tr h h' ∧
    Forall (λ e, (Address.offset (AddressRange.start e.2)
                  ≤ Address.offset (AddressRange.start r))%Z) l1 ∧
    Forall (λ e, (Address.offset (AddressRange.start r)
                  < Address.offset (AddressRange.start e.2))%Z) l2 ∧
    (rb_ok (color_of h) nil t → rb_ok (color_of h') nil t').
Proof.
  intros [Hobj Htree Hv Hso] Hr.
  destruct (insert_spec_rb h tr nil t (AddressRange.start r) (AddressRange.end_ r) Htree)
    as (h1 & t' & c & Hrun & Htree' & Hel & Hel' & Hpath & Hfr & Hrb).
  assert (AddressRange.mk (AddressRange.start r) (AddressRange.end_ r) = r) as Hrr
    by (by destruct r).
  rewrite Hrr in Hel'.
  destruct Hfr as [Hl Hn Htl Ht Hs].
  assert (Hranges : ranges t' = (before c).*2 ++ r :: (after c).*2).
  { unfold ranges. rewrite Hel', fmap_app. done. }
  assert (Hranges0 : ranges t = (before c).*2 ++ (after c).*2).
  { unfold ranges. by rewrite Hel, fmap_app. }
  exists (mkHeap (nodes h1) (trees h1)
            (alter (Obj.set_address_count
                      (sum_lengths (ranges t) + AddressRange.get_length r)) s (sets h1))),
    t', (before c), (after c).
  split_and!; try done.
  - unfold AddressSet.add. erewrite bind_rd_set by done. cbn [Obj.tree].
    erewrite bind_ok by exact Hrun.
    erewrite bind_rd_set by (by rewrite Hs). cbn [Obj.address_count].
    erewrite set_set_ok by (by rewrite Hs). done.
  - split.
    + simpl. rewrite list_lookup_alter_eq, Hs, Hobj. simpl.
      unfold Obj.set_address_count. simpl. do 2 f_equal.
      rewrite Hranges, Hranges0, !sum_lengths_app. simpl. lia.
    + eapply tree_rep_mono; [| |exact Htree']; done.
    + rewrite Hranges. rewrite Hranges0 in Hv.
      apply Forall_app in Hv as [? ?]. apply Forall_app. split; [done|].
      by constructor.
    + rewrite Hel'. apply (path_sorted (AddressRange.start r)); [done|done|].
      by rewrite <- Hel.
  - split; simpl; try done.
    + by rewrite length_alter, Hs.
    + intros s' Hs'. by rewrite list_lookup_alter_ne, Hs.
  - apply (path_bounds _ c Hpath). by rewrite <- Hel.
  - apply (path_bounds _ c Hpath). by rewrite <- Hel.
Qed.

Lemma add_spec_bounds h s tr nil t r :
  set_rep_at h s tr nil t → valid_range r →
  ∃ h' t' l1 l2,
    AddressSet.add s r h = Ok (tt, h') ∧
    set_rep_at h' s tr nil t' ∧
    elems t = l1 ++ l2 ∧
    elems t' = l1 ++ (length (nodes h), r) :: l2 ∧
    add_frame (locs t) s tr h h' ∧
    Forall (λ e, (Address.offset (AddressRange.start e.2)
                  ≤ Address.offset (AddressRange.start r))%Z) l1 ∧
    Forall (λ e, (Address.offset (AddressRange.start r)
                  < Address.offset (AddressRange.start e.2))%Z) l2.
Proof.
  intros Hrep Hr.
  destruct (add_spec_rb h s tr nil t r Hrep Hr)
    as (h' & t' & l1 & l2 & ? & ? & ? & ? & ? & ? & ? & _).
  by exists h', t', l1, l2.
Qed.

Lemma add_spec h s tr nil t r :
  set_rep_at h s tr nil t → valid_range r →
  ∃ h' t' l1 l2,
    AddressSet.add s r h = Ok (tt, h') ∧
    set_rep_at h' s tr nil t' ∧
    elems t = l1 ++ l2 ∧
    elems t' = l1 ++ (length (nodes h), r) :: l2 ∧
    add_frame (locs t) s tr h h'.
Proof.
  intros Hrep Hr.
  destruct (add_spec_bounds h s tr nil t r Hrep Hr)
    as (h' & t' & l1 & l2 & ? & ? & ? & ? & ? & _).
  by exists h', t', l1, l2.
Qed.

Lemma lookup_mono_length {A} (l1 l2 : list A) :
  (∀ n x, l1 !! n = Some x → l2 !! n = Some x) → length l1 ≤ length l2.
Proof.
  intros H. destruct (decide (length l1 ≤ length l2)) as [|Hlt]; [done|].
  destruct (lookup_lt_is_Some_2 l1 (length l2)) as [x Hx]; [lia|].
  apply H, lookup_lt_Some in Hx. lia.
Qed.

Lemma ranges_insert t t' l1 l2 z r :
  elems t = l1 ++ l2 → elems t' = l1 ++ (z, r) :: l2 →
  ranges t' ≡ₚ r :: ranges t.
Proof.
  intros H1 H2. unfold ranges. rewrite H1, H2, !fmap_app. simpl.
  by rewrite Permutation_middle.
Qed.

Lemma locs_insert t t' l1 l2 z r n :
  elems t = l1 ++ l2 → elems t' = l1 ++ (z, r) :: l2 →
  n ∈ locs t' → n = z ∨ n ∈ locs t.
Proof.
  intros H1 H2. unfold locs. rewrite H1, H2, !fmap_app. simpl. set_solver.
Qed.

(** Adding to a set whose objects were all created after [h0] leaves every
    object of [h0] untouched. *)
Lemma add_fresh h0 h s tr nil t r :
  extends h0 h → fresh_in h0 s tr nil t →
  set_rep_at h s tr nil t → valid_range r →
  ∃ h' t', AddressSet.add s r h = Ok (tt, h') ∧
           set_rep_at h' s tr nil t' ∧
           (∃ l1 l2, ranges t = l1 ++ l2 ∧ ranges t' = l1 ++ r :: l2) ∧
           extends h0 h' ∧ fresh_in h0 s tr nil t'.
Proof.
  intros (En & Et & Es) [Fs Ft Fnil Fn] Hrep Hr.
  destruct (add_spec h s tr nil t r Hrep Hr)
    as (h' & t' & l1 & l2 & Hrun & Hrep' & Hel & Hel' & [Hl Hn Htl Ht Hsl Hs]).
  exists h', t'. split_and!; try done.
  - exists l1.*2, l2.*2. unfold ranges. by rewrite Hel, Hel', !fmap_app.
  - split_and!.
    + intros n x Hx. pose proof (lookup_lt_Some _ _ _ Hx).
      rewrite Hn; [by apply En| |].
      * intros Hin%Fn. lia.
      * apply En in Hx. by apply lookup_lt_Some in Hx.
    + intros n x Hx. pose proof (lookup_lt_Some _ _ _ Hx).
      rewrite Ht; [by apply Et|lia].
    + intros n x Hx. pose proof (lookup_lt_Some _ _ _ Hx).
      rewrite Hs; [by apply Es|lia].
  - split; try done. intros n Hin.
    destruct (locs_insert _ _ _ _ _ _ _ Hel Hel' Hin) as [->|Hin']; [|by apply Fn].
    by apply lookup_mono_length.
Qed.

(** A loop whose body adds at most one well-formed range per element. *)
Lemma for_each_adds {X} h0 s tr nil (f : X → option AddressRange.t)
    (body : X → M unit) :
  (∀ x h, body x h = match f x with
                     | Some r => AddressSet.add s r h
                     | None => Ok (tt, h)
                     end) →
  ∀ xs h t,
    Forall (λ x, ∀ r, f x = Some r → valid_range r) xs →
    extends h0 h → fresh_in h0 s tr nil t → set_rep_at h s tr nil t →
    ∃ h' t', for_each xs body h = Ok (tt, h') ∧
             set_rep_at h' s tr nil t' ∧
             ranges t' ≡ₚ omap f xs ++ ranges t ∧
             extends h0 h' ∧ fresh_in h0 s tr nil t'.
Proof.
  intros Hbody. induction xs as [|x xs IH]; intros h t Hvalid He Hf Hrep.
  - exists h, t. by split_and!.
  - apply Forall_cons in Hvalid as [Hvx Hvalid].
    cbn [for_each omap]. destruct (f x) as [r|] eqn:Hfx.
    + destruct (add_fresh h0 h s tr nil t r He Hf Hrep (Hvx _ eq_refl))
        as (h1 & t1 & Hrun & Hrep1 & (l1 & l2 & E1 & E2) & He1 & Hf1).
      destruct (IH h1 t1 Hvalid He1 Hf1 Hrep1) as (h' & t' & Hrun' & Hrep' & Hp & He' & Hf').
      exists h', t'. split_and!; try done.
      * erewrite bind_ok; [exact Hrun'|]. by rewrite Hbody, Hfx.
      * rewrite Hp, E1, E2. simpl. rewrite Hfx. simpl.
        by rewrite <- !Permutation_middle.
    + destruct (IH h t Hvalid He Hf Hrep) as (h' & t' & Hrun' & Hrep' & Hp & He' & Hf').
      exists h', t'. split_and!; try done.
      * erewrite bind_ok; [exact Hrun'|]. by rewrite Hbody, Hfx.
      * simpl. by rewrite Hfx.
Qed.

Lemma set_init_spec h init :
  (∀ r, init = Some r → valid_range r) →
  ∃ h' t,
    AddressSet.init init h = Ok (length (sets h), h') ∧
    set_rep_at h' (length (sets h)) (length (trees h)) (length (nodes h)) t ∧
    ranges t = init_list init ∧
    extends h h' ∧
    fresh_in h (length (sets h)) (length (trees h)) (length (nodes h)) t.
Proof.
  intros Hv. destruct (set_init_empty_spec h) as (h1 & Hrun & Hrep & He & Hf).
  destruct init as [r|]; [|by exists h1, Leaf].
  destruct (add_fresh h h1 _ _ _ Leaf r He Hf Hrep (Hv r eq_refl))
    as (h2 & t & Hadd & Hrep2 & (l1 & l2 & E1 & E2) & He2 & Hf2).
  exists h2, t. split_and!; try done.
  - revert Hrun. unfold AddressSet.init, bind, ret.
    destruct (RedBlackTree.init h) as [[tr h']|]; [|done].
    destruct (new_set _ h') as [[s h'']|]; [|done].
    intros [= -> ->]. by rewrite Hadd.
  - symmetry in E1. apply app_eq_nil in E1 as [-> ->]. done.
Qed.

Lemma omap_Some {A} (l : list A) : omap Some l = l.
Proof. induction l; simpl; by f_equal. Qed.

Lemma build_spec h0 init rs :
  (∀ r, init = Some r → valid_range r) → Forall valid_range rs →
  ∃ h' tr nil t,
    build init rs h0 = Ok (length (sets h0), h') ∧
    set_rep_at h' (length (sets h0)) tr nil t ∧
    ranges t ≡ₚ rs ++ init_list init ∧
    extends h0 h' ∧
    fresh_in h0 (length (sets h0)) tr nil t.
Proof.
  intros Hv Hrs.
  destruct (set_init_spec h0 init Hv) as (h1 & t1 & Hrun & Hrep & Hr & He & Hf).
  destruct (for_each_adds h0 (length (sets h0)) _ _ Some
              (AddressSet.add (length (sets h0)))
              ltac:(done) rs h1 t1
              ltac:(eapply Forall_impl; [exact Hrs|]; by intros x ? r [= ->])
              He Hf Hrep)
    as (h' & t' & Hrun' & Hrep' & Hp & He' & Hf').
  eexists h', _, _, t'. split_and!; try done.
  - unfold build, add_all. erewrite bind_ok by exact Hrun.
    erewrite bind_ok by exact Hrun'. done.
  - by rewrite Hp, omap_Some, Hr.
Qed.

Lemma inter_valid r1 r2 r : inter r1 r2 = Some r → valid_range r.
Proof.
  unfold inter. destruct (Address.le _ _) eqn:E; [|done].
  intros [= <-]. unfold valid_range. simpl. by apply Z.leb_le.
Qed.

Lemma intersect_pair_inter result r1 r2 h :
  AddressSet.intersect_pair result r1 r2 h =
  match inter r1 r2 with
  | Some r => AddressSet.add result r h
  | None => Ok (tt, h)
  end.
Proof.
  unfold AddressSet.intersect_pair, inter.
  destruct (Address.le _ _) eqn:E; [|done].
  unfold AddressRange.init, Address.lt. unfold Address.le in E.
  apply Z.leb_le in E. by rewrite (proj2 (Z.ltb_ge _ _)) by lia.
Qed.

Lemma set_rep_ranges h s t :
  set_rep h s t → AddressSet.get_address_ranges s h = Ok (ranges t).
Proof. intros (tr & nil & H). by eapply get_address_ranges_spec. Qed.

Lemma set_rep_num h s t :
  set_rep h s t → AddressSet.get_num_addresses s h = Ok (sum_lengths (ranges t)).
Proof. intros (tr & nil & H). by eapply get_num_addresses_spec. Qed.

Lemma intersect_loop h0 R tr nil B tB :
  set_rep h0 B tB →
  ∀ la h t,
    extends h0 h → fresh_in h0 R tr nil t → set_rep_at h R tr nil t →
    ∃ h' t',
      for_each la (λ r1,
        let! rs2 := rd (AddressSet.get_address_ranges B) in
        for_each rs2 (λ r2, AddressSet.intersect_pair R r1 r2)) h = Ok (tt, h') ∧
      set_rep_at h' R tr nil t' ∧
      ranges t' ≡ₚ emitted la (ranges tB) ++ ranges t ∧
      extends h0 h' ∧ fresh_in h0 R tr nil t'.
Proof.
  intros HB. induction la as [|r1 la IH]; intros h t He Hf Hrep.
  - exists h, t. by split_and!.
  - destruct (for_each_adds h0 R tr nil (inter r1) (AddressSet.intersect_pair R r1)
                (intersect_pair_inter R r1) (ranges tB) h t
                ltac:(apply Forall_forall; intros ? _ ?; apply inter_valid)
                He Hf Hrep)
      as (h1 & t1 & Hrun1 & Hrep1 & Hp1 & He1 & Hf1).
    destruct (IH h1 t1 He1 Hf1 Hrep1) as (h' & t' & Hrun' & Hrep' & Hp' & He' & Hf').
    exists h', t'. split_and!; try done.
    + cbn [for_each]. rewrite bind_assoc.
      erewrite bind_rd_ok by (apply set_rep_ranges; by eapply set_rep_extends).
      erewrite bind_ok by exact Hrun1. exact Hrun'.
    + rewrite Hp', Hp1. unfold emitted. simpl. rewrite !app_assoc.
      apply Permutation_app_tail, Permutation_app_comm.
Qed.

Lemma intersect_spec h A B tA tB :
  set_rep h A tA → set_rep h B tB →
  ∃ h' tr nil t,
    AddressSet.intersect A B h = Ok (length (sets h), h') ∧
    set_rep_at h' (length (sets h)) tr nil t ∧
    ranges t ≡ₚ emitted (ranges tA) (ranges tB) ∧
    extends h h' ∧
    fresh_in h (length (sets h)) tr nil t.
Proof.
  intros HA HB.
  destruct (set_init_spec h None ltac:(done)) as (h1 & t1 & Hrun & Hrep & Hr & He & Hf).
  destruct (intersect_loop h _ _ _ B tB HB (ranges tA) h1 t1 He Hf Hrep)
    as (h' & t' & Hrun' & Hrep' & Hp & He' & Hf').
  eexists h', _, _, t'. split_and!; try done.
  - unfold AddressSet.intersect. erewrite bind_ok by exact Hrun.
    erewrite bind_rd_ok by (apply set_rep_ranges; by eapply set_rep_extends).
    erewrite bind_ok by exact Hrun'. done.
  - rewrite Hp, Hr. simpl. by rewrite app_nil_r.
Qed.

Lemma union_spec h A B tA tB :
  set_rep h A tA → set_rep h B tB →
  ∃ h' tr nil t,
    AddressSet.union A B h = Ok (length (sets h), h') ∧
    set_rep_at h' (length (sets h)) tr nil t ∧
    ranges t ≡ₚ ranges tA ++ ranges tB ∧
    extends h h' ∧
    fresh_in h (length (sets h)) tr nil t.
Proof.
  intros HA HB.
  destruct (set_init_spec h None ltac:(done)) as (h1 & t1 & Hrun & Hrep & Hr & He & Hf).
  pose proof HA as (? & ? & [_ _ HvA _]). pose proof HB as (? & ? & [_ _ HvB _]).
  destruct (for_each_adds h (length (sets h)) _ _ Some
              (AddressSet.add (length (sets h))) ltac:(done) (ranges tA) h1 t1
              ltac:(eapply Forall_impl; [exact HvA|]; by intros ? ? r [= ->])
              He Hf Hrep)
    as (h2 & t2 & Hrun2 & Hrep2 & Hp2 & He2 & Hf2).
  destruct (for_each_adds h (length (sets h)) _ _ Some
              (AddressSet.add (length (sets h))) ltac:(done) (ranges tB) h2 t2
              ltac:(eapply Forall_impl; [exact HvB|]; by intros ? ? r [= ->])
              He2 Hf2 Hrep2)
    as (h3 & t3 & Hrun3 & Hrep3 & Hp3 & He3 & Hf3).
  eexists h3, _, _, t3. split_and!; try done.
  - unfold AddressSet.union. erewrite bind_ok by exact Hrun.
    erewrite bind_rd_ok by (apply set_rep_ranges; by eapply set_rep_extends).
    erewrite bind_ok by exact Hrun2.
    erewrite bind_rd_ok by (apply set_rep_ranges; by eapply set_rep_extends).
    erewrite bind_ok by exact Hrun3. done.
  - rewrite Hp3, Hp2, !omap_Some, Hr. simpl. rewrite app_nil_r.
    apply Permutation_app_comm.
Qed.

Lemma set_rep_at_sorted h s tr nil t :
  set_rep_at h s tr nil t → StronglySorted start_le (ranges t).
Proof.
  intros [_ _ _ Hs]. unfold ranges.
  eapply StronglySorted_fmap; [|exact Hs]. done.
Qed.

(** ** Statements about the observable behaviour *)

Lemma well_formed_ranges h s :
  well_formed h s → ∃ l, AddressSet.get_address_ranges s h = Ok l.
Proof. intros [t H]. exists (ranges t). by apply set_rep_ranges. Qed.

Lemma build_run h0 init rs :
  valid_init init → Forall valid_range rs →
  ∃ h' t, build init rs h0 = Ok (length (sets h0), h') ∧
          set_rep h' (length (sets h0)) t ∧
          ranges t ≡ₚ rs ++ init_list init ∧
          extends h0 h'.
Proof.
  intros Hi Hrs.
  destruct (build_spec h0 init rs Hi Hrs) as (h' & tr & nil & t & ? & ? & ? & ? & ?).
  exists h', t. split_and!; try done. by exists tr, nil.
Qed.

Lemma stored_after_spec h0 init rs :
  valid_init init → Forall valid_range rs →
  ∃ l, stored_after h0 init rs = Ok l ∧
       l ≡ₚ rs ++ init_list init ∧
       StronglySorted start_le l ∧ Forall valid_range l.
Proof.
  intros Hi Hrs.
  destruct (build_spec h0 init rs Hi Hrs) as (h' & tr & nil & t & Hrun & Hrep & Hp & _ & _).
  exists (ranges t). split_and!; try done.
  - unfold stored_after. erewrite bind_ok by exact Hrun.
    unfold rd. by erewrite get_address_ranges_spec.
  - by eapply set_rep_at_sorted.
  - apply Hrep.
Qed.

Lemma StronglySorted_perm_sym {A} (R : relation A) `{!Symmetric R} l l' :
  l ≡ₚ l' → StronglySorted R l → StronglySorted R l'.
Proof.
  induction 1 as [|x l l' Hp IH|x y l|l1 l2 l3 _ IH1 _ IH2]; intros Hs.
  - done.
  - apply StronglySorted_cons in Hs as [Hx Hs]. apply StronglySorted_cons.
    split; [by rewrite <- Hp|auto].
  - apply StronglySorted_cons in Hs as [Hy Hs].
    apply StronglySorted_cons in Hs as [Hx Hs].
    apply Forall_cons in Hy as [Hyx Hy].
    repeat (apply StronglySorted_cons; split); try done.
    constructor; [by symmetry|done].
  - auto.
Qed.

Global Instance apart_sym : Symmetric apart.
Proof. intros x y [?|?]; [right|left]; done. Qed.

Lemma sorted_apart_separated l :
  StronglySorted start_le l → StronglySorted apart l → Forall valid_range l →
  StronglySorted separated l.
Proof.
  induction l as [|x l IH]; intros Hs Ha Hv; [constructor|].
  apply StronglySorted_cons in Hs as [Hsx Hs].
  apply StronglySorted_cons in Ha as [Hax Ha].
  apply Forall_cons in Hv as [Hvx Hv].
  apply StronglySorted_cons. split; [|auto].
  rewrite Forall_forall in Hsx, Hax, Hv |- *. intros y Hy.
  destruct (Hax y Hy) as [?|Hyx]; [done|]. exfalso.
  specialize (Hsx y Hy). specialize (Hv y Hy).
  unfold separated, Address.lt, Address.next in Hyx. simpl in Hyx.
  apply Z.ltb_lt in Hyx. unfold start_le in Hsx. unfold valid_range in Hv. lia.
Qed.

(** * The claims *)

(** C1 (the code departs from the claim): after [add([10,20]);
    add([15,25])] on an empty set [get_address_ranges()] yields both ranges,
    which overlap: [add] inserts a node and never merges.  So it is not true
    that after every sequence of valid [add] calls the yielded ranges are
    pairwise separated. *)
Lemma C1_overlapping_ranges_stored :
  stored_after empty_heap None [rng 10 20; rng 15 25] = Ok [rng 10 20; rng 15 25] ∧
  ¬ (∀ rs, Forall valid_range rs →
       ∀ l, stored_after empty_heap None rs = Ok l → StronglySorted separated l).
Proof.
  split; [by vm_compute|]. intros H.
  specialize (H [rng 10 20; rng 15 25]
                ltac:(repeat constructor; unfold valid_range; simpl; lia)
                _ eq_refl).
  apply StronglySorted_cons in H as [H _]. apply Forall_cons in H as [H _].
  by vm_compute in H.
Qed.

(** C2 (the code departs from the claim): on an empty set, [add([1,2]);
    add([1,2])] leaves two stored ranges and a count of 4, where [add([1,2])]
    alone leaves one range and a count of 2: the second [add] of a range is
    not absorbed. *)
Lemma C2_second_add_changes_set :
  value_of ((let! s := AddressSet.init None in
             do! AddressSet.add s (rng 1 2) in
             do! AddressSet.add s (rng 1 2) in rd (observe s)) empty_heap)
  = Ok ([rng 1 2; rng 1 2], 4%Z) ∧
  value_of ((let! s := AddressSet.init None in
             do! AddressSet.add s (rng 1 2) in rd (observe s)) empty_heap)
  = Ok ([rng 1 2], 2%Z) ∧
  ¬ (∀ r, valid_range r →
       value_of ((let! s := AddressSet.init None in
                  do! AddressSet.add s r in
                  do! AddressSet.add s r in rd (observe s)) empty_heap) =
       value_of ((let! s := AddressSet.init None in
                  do! AddressSet.add s r in rd (observe s)) empty_heap)).
Proof.
  split_and!; [by vm_compute..|]. intros H.
  specialize (H (rng 1 2) ltac:(unfold valid_range; simpl; lia)).
  by vm_compute in H.
Qed.

Lemma observe_spec h s t :
  set_rep h s t → observe s h = Ok (ranges t, sum_lengths (ranges t)).
Proof.
  intros H. unfold observe.
  erewrite bindR_ok by (by apply set_rep_ranges).
  erewrite bindR_ok by (by apply set_rep_num). done.
Qed.

Lemma example_well_formed :
  well_formed example_heap 0 ∧ well_formed example_heap 1.
Proof.
  destruct (build_run empty_heap None [rng 10 20; rng 30 40])
    as (h1 & t1 & Hrun1 & Hrep1 & _ & _).
  { intros r; discriminate. }
  { repeat constructor; unfold valid_range; simpl; lia. }
  vm_compute in Hrun1. injection Hrun1 as <-.
  match type of Hrep1 with set_rep ?h _ _ => set (hA := h) in * end.
  destruct (build_run hA (Some (rng 15 35)) [])
    as (h2 & t2 & Hrun2 & Hrep2 & _ & He).
  { intros r [= <-]. unfold valid_range; simpl; lia. }
  { constructor. }
  vm_compute in Hrun2. injection Hrun2 as <-.
  split; [exists t1|exists t2]; [|exact Hrep2].
  eapply set_rep_extends; [exact He|exact Hrep1].
Qed.

(** C3: for a set constructed empty or from one range and then extended by
    any sequence of [add] calls, [get_num_addresses()] is the sum of
    [get_length()] over the ranges [get_address_ranges()] yields. *)
Theorem C3_count_is_sum_of_lengths h0 init rs :
  valid_init init → Forall valid_range rs →
  ∃ s h' l,
    build init rs h0 = Ok (s, h') ∧
    AddressSet.get_address_ranges s h' = Ok l ∧
    AddressSet.get_num_addresses s h' = Ok (sum_lengths l).
Proof.
  intros Hi Hrs. destruct (build_run h0 init rs Hi Hrs) as (h' & t & Hrun & Hrep & _).
  exists (length (sets h0)), h', (ranges t). split_and!; [done| |].
  - by apply set_rep_ranges.
  - by apply set_rep_num.
Qed.

Lemma C3_witness :
  valid_init (Some (rng 5 9)) ∧ Forall valid_range [rng 0 100; rng 3 4] ∧
  ∃ s h' l,
    build (Some (rng 5 9)) [rng 0 100; rng 3 4] empty_heap = Ok (s, h') ∧
    AddressSet.get_address_ranges s h' = Ok l ∧
    AddressSet.get_num_addresses s h' = Ok (sum_lengths l).
Proof.
  assert (valid_init (Some (rng 5 9))) as H1
    by (intros r [= <-]; unfold valid_range; simpl; lia).
  assert (Forall valid_range [rng 0 100; rng 3 4]) as H2
    by (repeat constructor; unfold valid_range; simpl; lia).
  split_and!; [exact H1|exact H2|].
  exact (C3_count_is_sum_of_lengths empty_heap _ _ H1 H2).
Defined.

(** C4 (the code departs from the claim): with [0,100] and [10,12] stored,
    [contains(Address(50))] and [contains({[50,50]})] are true; after
    [add([20,22])] the rebalanced tree has [10,12] at its root and both
    queries are false. *)
Theorem C4_containment_lost_after_add :
  value_of
    ((let! a := AddressSet.init None in
      do! AddressSet.add a (rng 0 100) in
      do! AddressSet.add a (rng 10 12) in
      let! s := AddressSet.init (Some (rng 50 50)) in
      let! b1 := rd (AddressSet.contains a [PyAddress (Address.mk 50)]) in
      let! b2 := rd (AddressSet.contains a [PyAddressSet s]) in
      do! AddressSet.add a (rng 20 22) in
      let! b3 := rd (AddressSet.contains a [PyAddress (Address.mk 50)]) in
      let! b4 := rd (AddressSet.contains a [PyAddressSet s]) in
      ret (b1, b2, b3, b4)) empty_heap)
  = Ok (true, true, false, false).
Proof. by vm_compute. Qed.

(** C5 (the code departs from the claim): [trim_start({[0,100]},
    Address(50))] does not return [{[51,100]}], it raises AttributeError:
    the first step of the loop calls [min_addr.compare_to(addr)], and the
    [Address] class of address_set.py, whose instances the set holds, has no
    [compare_to]. *)
Theorem C5_trim_start_scenario_raises :
  trim_start_scenario AddressSetView.no_compare_to = Err AttributeError.
Proof. by vm_compute. Qed.

(** C6: for [A = {[10,20],[30,40]}] and [B = {[15,35]}], [A.intersect(B)]
    yields [15,20] and then [30,35]; in general the result holds, for every
    pair of a range of [A] and a range of [B] whose maximum of starts is at
    most the minimum of ends, the range from that maximum to that minimum,
    and nothing else. *)
Theorem C6_intersect_emits_overlaps :
  value_of
    ((let! a := build None [rng 10 20; rng 30 40] in
      let! b := build None [rng 15 35] in
      let! r := AddressSet.intersect a b in
      rd (AddressSet.get_address_ranges r)) empty_heap)
  = Ok [rng 15 20; rng 30 35] ∧
  ∀ h A B, well_formed h A → well_formed h B →
    ∃ la lb R h' l,
      AddressSet.get_address_ranges A h = Ok la ∧
      AddressSet.get_address_ranges B h = Ok lb ∧
      AddressSet.intersect A B h = Ok (R, h') ∧
      AddressSet.get_address_ranges R h' = Ok l ∧
      l ≡ₚ emitted la lb.
Proof.
  split; [by vm_compute|]. intros h A B [tA HA] [tB HB].
  destruct (intersect_spec h A B tA tB HA HB)
    as (h' & tr & nil & t & Hrun & Hrep & Hp & _ & _).
  exists (ranges tA), (ranges tB), (length (sets h)), h', (ranges t).
  split_and!; try done; try (by apply set_rep_ranges).
  by eapply get_address_ranges_spec.
Qed.

Lemma C6_witness :
  well_formed example_heap 0 ∧ well_formed example_heap 1 ∧
  ∃ la lb R h' l,
    AddressSet.get_address_ranges 0 example_heap = Ok la ∧
    AddressSet.get_address_ranges 1 example_heap = Ok lb ∧
    AddressSet.intersect 0 1 example_heap = Ok (R, h') ∧
    AddressSet.get_address_ranges R h' = Ok l ∧
    l ≡ₚ emitted la lb.
Proof.
  split_and!; [exact (proj1 example_well_formed)|exact (proj2 example_well_formed)|].
  exact (proj2 C6_intersect_emits_overlaps example_heap 0 1
           (proj1 example_well_formed) (proj2 example_well_formed)).
Defined.

(** C7: constructing an [AddressRange] with [end < start] raises ValueError;
    with [start <= end] it succeeds and the range holds [start] and [end] as
    given. *)
Theorem C7_range_init_checks_order start end_ :
  ((Address.offset end_ < Address.offset start)%Z →
   AddressRange.init start end_ = Err ValueError) ∧
  ((Address.offset start ≤ Address.offset end_)%Z →
   ∃ r, AddressRange.init start end_ = Ok r ∧
        AddressRange.start r = start ∧ AddressRange.end_ r = end_).
Proof.
  unfold AddressRange.init, Address.lt. split; intros H.
  - by rewrite (proj2 (Z.ltb_lt _ _)).
  - rewrite (proj2 (Z.ltb_ge _ _)) by done. by eexists.
Qed.

Lemma C7_witness :
  ((3 < 5)%Z ∧ AddressRange.init (Address.mk 5) (Address.mk 3) = Err ValueError) ∧
  ((3 ≤ 5)%Z ∧
   ∃ r, AddressRange.init (Address.mk 3) (Address.mk 5) = Ok r ∧
        AddressRange.start r = Address.mk 3 ∧ AddressRange.end_ r = Address.mk 5).
Proof.
  split; (split; [lia|]).
  - apply (proj1 (C7_range_init_checks_order (Address.mk 5) (Address.mk 3))).
    simpl. lia.
  - apply (proj2 (C7_range_init_checks_order (Address.mk 3) (Address.mk 5))).
    simpl. lia.
Defined.

(** C8: [A.intersect(B)] and [A.union(B)] return a set that did not exist
    before and leave every object of the store as it was; in particular the
    ranges and the count of [A] and of [B] are what they were. *)
Theorem C8_algebra_leaves_operands h A B :
  well_formed h A → well_formed h B →
  (∃ R h', AddressSet.intersect A B h = Ok (R, h') ∧
           sets h !! R = None ∧ well_formed h' R ∧ extends h h' ∧
           observe A h' = observe A h ∧ observe B h' = observe B h) ∧
  (∃ R h', AddressSet.union A B h = Ok (R, h') ∧
           sets h !! R = None ∧ well_formed h' R ∧ extends h h' ∧
           observe A h' = observe A h ∧ observe B h' = observe B h).
Proof.
  intros [tA HA] [tB HB]. split.
  - destruct (intersect_spec h A B tA tB HA HB)
      as (h' & tr & nil & t & Hrun & Hrep & _ & He & _).
    exists (length (sets h)), h'. split_and!; try done.
    + by apply lookup_ge_None.
    + exists t, tr, nil. done.
    + by rewrite !(observe_spec _ _ tA) by (done || by eapply set_rep_extends).
    + by rewrite !(observe_spec _ _ tB) by (done || by eapply set_rep_extends).
  - destruct (union_spec h A B tA tB HA HB)
      as (h' & tr & nil & t & Hrun & Hrep & _ & He & _).
    exists (length (sets h)), h'. split_and!; try done.
    + by apply lookup_ge_None.
    + exists t, tr, nil. done.
    + by rewrite !(observe_spec _ _ tA) by (done || by eapply set_rep_extends).
    + by rewrite !(observe_spec _ _ tB) by (done || by eapply set_rep_extends).
Qed.

Lemma C8_witness :
  well_formed example_heap 0 ∧ well_formed example_heap 1 ∧
  (∃ R h', AddressSet.intersect 0 1 example_heap = Ok (R, h') ∧
           sets example_heap !! R = None ∧ well_formed h' R ∧
           extends example_heap h' ∧
           observe 0 h' = observe 0 example_heap ∧
           observe 1 h' = observe 1 example_heap) ∧
  (∃ R h', AddressSet.union 0 1 example_heap = Ok (R, h') ∧
           sets example_heap !! R = None ∧ well_formed h' R ∧
           extends example_heap h' ∧
           observe 0 h' = observe 0 example_heap ∧
           observe 1 h' = observe 1 example_heap).
Proof.
  split_and!; [exact (proj1 example_well_formed)|exact (proj2 example_well_formed)|..];
    apply (C8_algebra_leaves_operands example_heap 0 1
             (proj1 example_well_formed) (proj2 example_well_formed)).
Defined.

(** C9: [S.contains(start, end)] with [end < start] returns True without an
    error, whatever [S] holds. *)
Theorem C9_inverted_interval_contained h S start end_ :
  (Address.offset end_ < Address.offset start)%Z →
  AddressSet.contains S [PyAddress start; PyAddress end_] h = Ok true.
Proof.
  intros H. cbn [AddressSet.contains]. unfold AddressSet.contains_range.
  assert (Address.le start end_ = false) as E
    by (unfold Address.le; by apply Z.leb_gt).
  destruct (Z.to_nat _); simpl; by rewrite E.
Qed.

Lemma C9_witness :
  (3 < 7)%Z ∧
  AddressSet.contains 0 [PyAddress (Address.mk 7); PyAddress (Address.mk 3)]
    empty_heap = Ok true.
Proof.
  split; [lia|].
  apply (C9_inverted_interval_contained empty_heap 0 (Address.mk 7) (Address.mk 3)).
  simpl. lia.
Defined.

(** C10: after any sequence of [add] calls the ranges yielded by
    [get_address_ranges()] have their start addresses in non-decreasing
    order. *)
Theorem C10_ranges_yielded_in_start_order h0 init rs :
  valid_init init → Forall valid_range rs →
  ∃ l, stored_after h0 init rs = Ok l ∧ StronglySorted start_le l.
Proof.
  intros Hi Hrs.
  destruct (stored_after_spec h0 init rs Hi Hrs) as (l & Hl & _ & Hs & _).
  by exists l.
Qed.

Lemma C10_witness :
  valid_init None ∧ Forall valid_range [rng 5 9; rng 5 6; rng 0 100] ∧
  ∃ l, stored_after empty_heap None [rng 5 9; rng 5 6; rng 0 100] = Ok l ∧
       StronglySorted start_le l.
Proof.
  assert (valid_init None) as H1 by (intros r; discriminate).
  assert (Forall valid_range [rng 5 9; rng 5 6; rng 0 100]) as H2
    by (repeat constructor; unfold valid_range; simpl; lia).
  split_and!; [exact H1|exact H2|].
  exact (C10_ranges_yielded_in_start_order empty_heap None _ H1 H2).
Defined.

(** * Further properties of the code *)

(** ** Looking an address up *)

Lemma any_contains_app l1 l2 a :
  any_contains (l1 ++ l2) a = any_contains l1 a || any_contains l2 a.
Proof. apply existsb_app. Qed.

Lemma any_contains_false l a :
  any_contains l a = false ↔ Forall (λ r, AddressRange.contains r a = false) l.
Proof.
  unfold any_contains. induction l as [|r l IH]; simpl.
  - split; [constructor|done].
  - rewrite orb_false_iff, IH, Forall_cons. done.
Qed.

Lemma find_loop_spec h self nil root addr :
  trees h !! self = Some (Obj.mkTree nil root) →
  ∀ t p fuel,
    wf_tree h nil p t → nil ∉ locs t → length (locs t) ≤ fuel →
    ∃ res,
      RedBlackTree.find_loop fuel self addr (rl nil t) h = Ok res ∧
      (∀ n, res = Some n →
         ∃ rg, (n, rg) ∈ elems t ∧ AddressRange.contains rg addr = true) ∧
      (res = None → Forall valid_range (ranges t) →
         StronglySorted strictly_before (ranges t) →
         any_contains (ranges t) addr = false).
Proof.
  intros Hobj. induction t as [|n rg l IHl r IHr]; intros p fuel Hwf Hnil Hfuel.
  - exists None. split_and!; try done.
    destruct fuel; simpl; (erewrite bindR_tree by done); simpl;
      by rewrite loc_eqb_refl.
  - rewrite locs_node in Hnil, Hfuel. rewrite length_app in Hfuel. simpl in Hfuel.
    destruct fuel as [|fuel]; [lia|].
    destruct Hwf as ([c Hn] & Hl & Hr).
    assert (n ≠ nil) by (intros ->; apply Hnil; set_solver).
    cbn [RedBlackTree.find_loop rl]. erewrite bindR_tree by done. cbn [Obj.nil].
    rewrite loc_eqb_ne by done. cbn [negb].
    erewrite bindR_node by done. cbn [RBNode.key py_lt]. rewrite bindR_lift_ok.
    destruct (Address.lt addr (AddressRange.start rg)) eqn:Hlt.
    + erewrite bindR_node by done. cbn [RBNode.left].
      destruct (IHl n fuel Hl) as (res & Hrun & Hs & Hc); [set_solver|lia|].
      exists res. split_and!; [done| |].
      * intros m Hm. destruct (Hs m Hm) as (rg' & Hin & Hct).
        exists rg'. split; [|done]. simpl. set_solver.
      * intros Hres Hv Hso. rewrite ranges_node in Hv, Hso |- *.
        apply Forall_app in Hv as [Hvl Hv]. apply Forall_cons in Hv as [Hvn Hvr].
        apply StronglySorted_app in Hso as (_ & Hsl & Hsr).
        apply StronglySorted_cons in Hsr as [Hnr _].
        rewrite any_contains_app. rewrite (Hc Hres Hvl Hsl). simpl.
        unfold Address.lt in Hlt. apply Z.ltb_lt in Hlt.
        apply orb_false_iff. split.
        -- unfold AddressRange.contains, Address.le.
           apply andb_false_iff. left. apply Z.leb_gt. lia.
        -- apply any_contains_false. rewrite Forall_forall in Hnr, Hvr |- *.
           intros r' Hr'. specialize (Hnr r' Hr'). unfold strictly_before in Hnr.
           unfold valid_range in Hvn. unfold AddressRange.contains, Address.le.
           apply andb_false_iff. left. apply Z.leb_gt. lia.
    + erewrite bindR_node by done. cbn [RBNode.value py_gt]. rewrite bindR_lift_ok.
      destruct (Address.lt (AddressRange.end_ rg) addr) eqn:Hgt.
      * erewrite bindR_node by done. cbn [RBNode.right].
        destruct (IHr n fuel Hr) as (res & Hrun & Hs & Hc); [set_solver|lia|].
        exists res. split_and!; [done| |].
        -- intros m Hm. destruct (Hs m Hm) as (rg' & Hin & Hct).
           exists rg'. split; [|done]. simpl. set_solver.
        -- intros Hres Hv Hso. rewrite ranges_node in Hv, Hso |- *.
           apply Forall_app in Hv as [Hvl Hv]. apply Forall_cons in Hv as [Hvn Hvr].
           apply StronglySorted_app in Hso as (Hlr & Hsl & Hsr).
           apply StronglySorted_cons in Hsr as [_ Hsr].
           rewrite any_contains_app. simpl. rewrite (Hc Hres Hvr Hsr).
           unfold Address.lt in Hgt. apply Z.ltb_lt in Hgt.
           rewrite orb_false_r. apply orb_false_iff. split.
           ++ apply any_contains_false. rewrite Forall_forall in Hvl |- *.
              intros r' Hr'. specialize (Hlr r' rg Hr' ltac:(set_solver)).
              specialize (Hvl r' Hr').
              unfold strictly_before in Hlr. unfold valid_range in Hvn, Hvl.
              unfold AddressRange.contains, Address.le.
              apply andb_false_iff. right. apply Z.leb_gt. lia.
           ++ unfold AddressRange.contains, Address.le.
              apply andb_false_iff. right. apply Z.leb_gt. lia.
      * exists (Some n). split_and!; [done| |done].
        intros m [= <-]. exists rg. split; [simpl; set_solver|].
        unfold Address.lt in Hlt, Hgt. apply Z.ltb_ge in Hlt, Hgt.
        unfold AddressRange.contains, Address.le.
        apply andb_true_iff. split; apply Z.leb_le; lia.
Qed.

Lemma contains_address_spec h s tr nil t addr :
  set_rep_at h s tr nil t →
  ∃ b, AddressSet.contains_address s addr h = Ok b ∧
       (b = true → any_contains (ranges t) addr = true) ∧
       (StronglySorted strictly_before (ranges t) →
        b = any_contains (ranges t) addr).
Proof.
  intros [Hobj [Hrep _] Hv _].
  pose proof (zip_rep_size _ _ _ _ _ Hrep) as Hsize.
  destruct Hrep as [Ht _ Hwf _ Hnil _]. simpl in *.
  rewrite app_nil_r in Hsize, Hnil.
  destruct (find_loop_spec h tr nil _ addr Ht t nil (length (nodes h)) Hwf Hnil Hsize)
    as (res & Hrun & Hs & Hc).
  assert (Hsound : ∀ n, res = Some n → any_contains (ranges t) addr = true).
  { intros n Hn. destruct (Hs n Hn) as (rg & Hin & Hct).
    apply existsb_exists. exists rg. split; [|done].
    apply list_elem_of_In. unfold ranges.
    apply list_elem_of_fmap. by exists (n, rg). }
  exists (match res with Some _ => true | None => false end). split_and!.
  - unfold AddressSet.contains_address.
    erewrite bindR_set by done. cbn [Obj.tree].
    unfold RedBlackTree.find_range_containing.
    rewrite bindR_bindR. erewrite bindR_tree by done. cbn [Obj.root].
    rewrite bindR_bindR. unfold bindR at 1. cbn [node_count].
    erewrite bindR_ok by exact Hrun. done.
  - destruct res; [eauto|done].
  - intros Hso. destruct res as [n|]; [symmetry; eauto|].
    symmetry. by apply Hc.
Qed.

Global Instance disjoint_ranges_sym : Symmetric disjoint_ranges.
Proof. intros x y [?|?]; [right|left]; done. Qed.

Lemma sorted_disjoint_before l :
  StronglySorted start_le l → StronglySorted disjoint_ranges l →
  Forall valid_range l → StronglySorted strictly_before l.
Proof.
  induction l as [|x l IH]; intros Hs Ha Hv; [constructor|].
  apply StronglySorted_cons in Hs as [Hsx Hs].
  apply StronglySorted_cons in Ha as [Hax Ha].
  apply Forall_cons in Hv as [Hvx Hv].
  apply StronglySorted_cons. split; [|auto].
  rewrite Forall_forall in Hsx, Hax, Hv |- *. intros y Hy.
  destruct (Hax y Hy) as [?|Hyx]; [done|]. exfalso.
  specialize (Hsx y Hy). specialize (Hv y Hy).
  unfold strictly_before in Hyx. unfold start_le in Hsx.
  unfold valid_range in Hv. lia.
Qed.

Lemma any_contains_perm l l' a : l ≡ₚ l' → any_contains l a = any_contains l' a.
Proof.
  induction 1 as [|x l l' _ IH|x y l|l1 l2 l3 _ IH1 _ IH2]; simpl.
  - done.
  - by rewrite IH.
  - by rewrite !orb_assoc, (orb_comm (AddressRange.contains y a)).
  - congruence.
Qed.

(** [contains(addr)] never reports an address that no stored range holds. *)
Theorem contains_address_sound h s addr :
  well_formed h s →
  ∃ l b, AddressSet.get_address_ranges s h = Ok l ∧
         AddressSet.contains s [PyAddress addr] h = Ok b ∧
         (b = true → ∃ r, r ∈ l ∧ AddressRange.contains r addr = true).
Proof.
  intros (t & tr & nil & Hrep).
  destruct (contains_address_spec h s tr nil t addr Hrep) as (b & Hrun & Hs & _).
  exists (ranges t), b. split_and!; [by eapply get_address_ranges_spec|done|].
  intros Hb. apply Hs, existsb_exists in Hb as (r & Hin & Hr).
  exists r. split; [by apply list_elem_of_In|done].
Qed.

Lemma contains_address_sound_witness :
  well_formed example_heap 0 ∧
  ∃ l b, AddressSet.get_address_ranges 0 example_heap = Ok l ∧
         AddressSet.contains 0 [PyAddress (Address.mk 35)] example_heap = Ok b ∧
         (b = true → ∃ r, r ∈ l ∧ AddressRange.contains r (Address.mk 35) = true).
Proof.
  split; [exact (proj1 example_well_formed)|].
  exact (contains_address_sound example_heap 0 (Address.mk 35)
           (proj1 example_well_formed)).
Defined.

Lemma contains_address_exact h s l addr :
  well_formed h s →
  AddressSet.get_address_ranges s h = Ok l →
  StronglySorted disjoint_ranges l →
  AddressSet.contains s [PyAddress addr] h = Ok (any_contains l addr).
Proof.
  intros (t & tr & nil & Hrep) Hl Hd.
  erewrite get_address_ranges_spec in Hl by done. injection Hl as <-.
  destruct (contains_address_spec h s tr nil t addr Hrep) as (b & Hrun & _ & Hc).
  cbn [AddressSet.contains]. rewrite Hrun. f_equal. apply Hc.
  apply sorted_disjoint_before; [by eapply set_rep_at_sorted|done|apply Hrep].
Qed.

(** When the ranges a set yields do not overlap, [contains(addr)] is true
    exactly when one of them contains the address. *)
Theorem contains_address_exact_when_disjoint h s l addr :
  well_formed h s →
  AddressSet.get_address_ranges s h = Ok l →
  StronglySorted disjoint_ranges l →
  AddressSet.contains s [PyAddress addr] h = Ok (any_contains l addr).
Proof. apply contains_address_exact. Qed.

Lemma contains_address_exact_when_disjoint_witness :
  well_formed example_heap 0 ∧
  AddressSet.get_address_ranges 0 example_heap = Ok [rng 10 20; rng 30 40] ∧
  StronglySorted disjoint_ranges [rng 10 20; rng 30 40] ∧
  AddressSet.contains 0 [PyAddress (Address.mk 35)] example_heap
  = Ok (any_contains [rng 10 20; rng 30 40] (Address.mk 35)).
Proof.
  assert (StronglySorted disjoint_ranges [rng 10 20; rng 30 40]) as H3
    by (repeat constructor; left; unfold strictly_before; simpl; lia).
  split_and!; [exact (proj1 example_well_formed)|reflexivity|exact H3|].
  exact (contains_address_exact_when_disjoint example_heap 0 _ (Address.mk 35)
           (proj1 example_well_formed) eq_refl H3).
Defined.

(** Round trip: after constructing a set and adding ranges that are valid
    and pairwise non-overlapping, [contains(addr)] is true exactly for the
    addresses of the ranges passed in. *)
Theorem contains_after_disjoint_adds h0 init rs :
  valid_init init → Forall valid_range rs →
  StronglySorted disjoint_ranges (rs ++ init_list init) →
  ∃ s h', build init rs h0 = Ok (s, h') ∧
          ∀ addr, AddressSet.contains s [PyAddress addr] h'
                  = Ok (any_contains (rs ++ init_list init) addr).
Proof.
  intros Hi Hrs Hd.
  destruct (build_spec h0 init rs Hi Hrs) as (h' & tr & nil & t & Hrun & Hrep & Hp & _).
  exists (length (sets h0)), h'. split; [done|]. intros addr.
  rewrite <- (any_contains_perm _ _ addr Hp).
  apply contains_address_exact.
  - by exists t, tr, nil.
  - by eapply get_address_ranges_spec.
  - apply (StronglySorted_perm_sym disjoint_ranges (rs ++ init_list init)); [|done].
    by symmetry.
Qed.

Lemma contains_after_disjoint_adds_witness :
  valid_init None ∧ Forall valid_range [rng 30 40; rng 10 20] ∧
  StronglySorted disjoint_ranges ([rng 30 40; rng 10 20] ++ init_list None) ∧
  ∃ s h', build None [rng 30 40; rng 10 20] empty_heap = Ok (s, h') ∧
          ∀ addr, AddressSet.contains s [PyAddress addr] h'
                  = Ok (any_contains ([rng 30 40; rng 10 20] ++ init_list None) addr).
Proof.
  assert (valid_init None) as H1 by (intros r; discriminate).
  assert (Forall valid_range [rng 30 40; rng 10 20]) as H2
    by (repeat constructor; unfold valid_range; simpl; lia).
  assert (StronglySorted disjoint_ranges ([rng 30 40; rng 10 20] ++ init_list None))
    as H3 by (repeat constructor; right; unfold strictly_before; simpl; lia).
  split_and!; [exact H1|exact H2|exact H3|].
  exact (contains_after_disjoint_adds empty_heap None _ H1 H2 H3).
Defined.

(** ** Interval and set queries *)

Lemma contains_loop_spec h s tr nil t end_ :
  set_rep_at h s tr nil t →
  ∀ fuel start,
    (Address.offset end_ - Address.offset start + 1 ≤ Z.of_nat fuel)%Z →
    ∃ b, AddressSet.contains_loop fuel s start end_ h = Ok b ∧
         (b = true ↔
          ∀ a, (Address.offset start ≤ Address.offset a ≤ Address.offset end_)%Z →
               AddressSet.contains_address s a h = Ok true).
Proof.
  intros Hrep. induction fuel as [|fuel IH]; intros start Hfuel.
  - exists true. simpl. unfold Address.le.
    rewrite (proj2 (Z.leb_gt _ _)) by lia. split; [done|].
    split; [|done]. intros _ a Ha. lia.
  - cbn [AddressSet.contains_loop]. unfold Address.le.
    destruct (Z.leb_spec (Address.offset start) (Address.offset end_)) as [Hle|Hgt].
    + destruct (contains_address_spec h s tr nil t start Hrep) as (b0 & Hrun0 & _).
      erewrite bindR_ok by exact Hrun0. destruct b0; simpl.
      * destruct (IH (Address.next start)) as (b & Hrun & Hb); [simpl; lia|].
        exists b. split; [done|]. rewrite Hb. simpl. split.
        -- intros H a Ha.
           destruct (decide (Address.offset a = Address.offset start)) as [E|NE].
           ++ destruct a, start. simpl in E. by subst.
           ++ apply H. lia.
        -- intros H a Ha. apply H. lia.
      * exists false. split; [done|]. split; [done|]. intros H.
        specialize (H start ltac:(lia)). congruence.
    + exists true. split; [done|]. split; [|done]. intros _ a Ha. lia.
Qed.

(** [contains(start, end)] is true exactly when [contains(addr)] is true for
    every address from [start] to [end]. *)
Theorem contains_interval_all_addresses h s start end_ :
  well_formed h s →
  ∃ b, AddressSet.contains s [PyAddress start; PyAddress end_] h = Ok b ∧
       (b = true ↔
        ∀ a, (Address.offset start ≤ Address.offset a ≤ Address.offset end_)%Z →
             AddressSet.contains s [PyAddress a] h = Ok true).
Proof.
  intros (t & tr & nil & Hrep). cbn [AddressSet.contains].
  unfold AddressSet.contains_range.
  apply (contains_loop_spec h s tr nil t end_ Hrep). lia.
Qed.

Lemma contains_interval_all_addresses_witness :
  well_formed example_heap 0 ∧
  ∃ b, AddressSet.contains 0 [PyAddress (Address.mk 12); PyAddress (Address.mk 18)]
         example_heap = Ok b ∧
       (b = true ↔
        ∀ a, (12 ≤ Address.offset a ≤ 18)%Z →
             AddressSet.contains 0 [PyAddress a] example_heap = Ok true).
Proof.
  split; [exact (proj1 example_well_formed)|].
  exact (contains_interval_all_addresses example_heap 0 (Address.mk 12)
           (Address.mk 18) (proj1 example_well_formed)).
Defined.

Lemma contains_ranges_spec h s tr nil t :
  set_rep_at h s tr nil t →
  ∀ rs, ∃ b, AddressSet.contains_ranges s rs h = Ok b ∧
    (b = true ↔
     ∀ r a, r ∈ rs → AddressRange.contains r a = true →
            AddressSet.contains_address s a h = Ok true).
Proof.
  intros Hrep. induction rs as [|r rs IH].
  - exists true. split; [done|]. split; [|done]. intros _ r a Hr.
    by apply elem_of_nil in Hr.
  - cbn [AddressSet.contains_ranges]. unfold AddressSet.contains_range.
    destruct (contains_loop_spec h s tr nil t (AddressRange.get_max_address r) Hrep
                (Z.to_nat (Address.offset (AddressRange.get_max_address r) -
                           Address.offset (AddressRange.get_min_address r) + 1))
                (AddressRange.get_min_address r) ltac:(lia)) as (b0 & Hrun0 & Hb0).
    erewrite bindR_ok by exact Hrun0.
    assert (Hin : b0 = true ↔
              ∀ a, AddressRange.contains r a = true →
                   AddressSet.contains_address s a h = Ok true).
    { rewrite Hb0. unfold AddressRange.contains, Address.le,
        AddressRange.get_min_address, AddressRange.get_max_address.
      split; intros H a Ha; apply H.
      - apply andb_true_iff in Ha as [?%Z.leb_le ?%Z.leb_le]. lia.
      - apply andb_true_iff. split; apply Z.leb_le; lia. }
    destruct b0; simpl.
    + destruct IH as (b & Hrun & Hb). exists b. split; [done|].
      rewrite Hb. split.
      * intros H r' a [->|Hr']%elem_of_cons; [by apply Hin|by apply H].
      * intros H r' a Hr'. apply H. by right.
    + exists false. split; [done|]. split; [done|]. intros H.
      apply Hin. intros a Ha. apply (H r a); [left|done].
Qed.

(** [contains(other_set)] is true exactly when [contains(addr)] is true for
    every address of every range [other_set] yields. *)
Theorem contains_set_all_addresses h s other :
  well_formed h s → well_formed h other →
  ∃ l b, AddressSet.get_address_ranges other h = Ok l ∧
         AddressSet.contains s [PyAddressSet other] h = Ok b ∧
         (b = true ↔
          ∀ r a, r ∈ l → AddressRange.contains r a = true →
                 AddressSet.contains s [PyAddress a] h = Ok true).
Proof.
  intros (t & tr & nil & Hrep) (to & Ho).
  destruct (contains_ranges_spec h s tr nil t Hrep (ranges to)) as (b & Hrun & Hb).
  exists (ranges to), b. split_and!; [by apply set_rep_ranges| |done].
  cbn [AddressSet.contains]. unfold AddressSet.contains_view.
  erewrite bindR_ok by (by apply set_rep_ranges). done.
Qed.

Lemma contains_set_all_addresses_witness :
  well_formed example_heap 0 ∧ well_formed example_heap 1 ∧
  ∃ l b, AddressSet.get_address_ranges 1 example_heap = Ok l ∧
         AddressSet.contains 0 [PyAddressSet 1] example_heap = Ok b ∧
         (b = true ↔
          ∀ r a, r ∈ l → AddressRange.contains r a = true →
                 AddressSet.contains 0 [PyAddress a] example_heap = Ok true).
Proof.
  split_and!; [exact (proj1 example_well_formed)|exact (proj2 example_well_formed)|].
  exact (contains_set_all_addresses example_heap 0 1
           (proj1 example_well_formed) (proj2 example_well_formed)).
Defined.

(** Any argument list other than one address, two addresses or one address
    set makes [contains] raise TypeError; a single [AddressRange] is among
    the rejected arguments. *)
Theorem contains_unsupported_arguments h s args :
  (∀ a, args ≠ [PyAddress a]) →
  (∀ a b, args ≠ [PyAddress a; PyAddress b]) →
  (∀ o, args ≠ [PyAddressSet o]) →
  AddressSet.contains s args h = Err TypeError.
Proof.
  intros H1 H2 H3.
  destruct args as [|[| | a | |o] [|[| | b | |] [|]]]; try done.
  - by destruct (H1 a).
  - by destruct (H2 a b).
  - by destruct (H3 o).
Qed.

Lemma contains_unsupported_arguments_witness :
  (∀ a, [PyAddressRange (rng 1 2)] ≠ [PyAddress a]) ∧
  (∀ a b, [PyAddressRange (rng 1 2)] ≠ [PyAddress a; PyAddress b]) ∧
  (∀ o, [PyAddressRange (rng 1 2)] ≠ [PyAddressSet o]) ∧
  AddressSet.contains 0 [PyAddressRange (rng 1 2)] example_heap = Err TypeError.
Proof.
  assert (∀ a, [PyAddressRange (rng 1 2)] ≠ [PyAddress a]) as H1 by (intros a; discriminate).
  assert (∀ a b, [PyAddressRange (rng 1 2)] ≠ [PyAddress a; PyAddress b]) as H2
    by (intros a b; discriminate).
  assert (∀ o, [PyAddressRange (rng 1 2)] ≠ [PyAddressSet o]) as H3
    by (intros o; discriminate).
  split_and!; [exact H1|exact H2|exact H3|].
  exact (contains_unsupported_arguments example_heap 0 _ H1 H2 H3).
Defined.

(** ** Set algebra *)

(** [A.union(B)] yields every range of [A] and every range of [B], in start
    order, and its count is the sum of the two counts: ranges that overlap
    are kept side by side and their addresses counted twice. *)
Theorem union_keeps_every_range h A B :
  well_formed h A → well_formed h B →
  ∃ la lb na nb R h' l,
    observe A h = Ok (la, na) ∧ observe B h = Ok (lb, nb) ∧
    AddressSet.union A B h = Ok (R, h') ∧
    observe R h' = Ok (l, (na + nb)%Z) ∧
    l ≡ₚ la ++ lb ∧ StronglySorted start_le l.
Proof.
  intros [tA HA] [tB HB].
  destruct (union_spec h A B tA tB HA HB)
    as (h' & tr & nil & t & Hrun & Hrep & Hp & _ & _).
  assert (set_rep h' (length (sets h)) t) as Hrep' by (by exists tr, nil).
  exists (ranges tA), (ranges tB), (sum_lengths (ranges tA)),
    (sum_lengths (ranges tB)), (length (sets h)), h', (ranges t).
  split_and!; try done; try (by apply observe_spec).
  - rewrite (observe_spec _ _ t Hrep'). do 2 f_equal.
    assert (∀ l1 l2, l1 ≡ₚ l2 → sum_lengths l1 = sum_lengths l2) as Hsum.
    { induction 1; simpl; lia. }
    by rewrite (Hsum _ _ Hp), sum_lengths_app.
  - by eapply set_rep_at_sorted.
Qed.

Lemma union_keeps_every_range_witness :
  well_formed example_heap 0 ∧ well_formed example_heap 1 ∧
  ∃ la lb na nb R h' l,
    observe 0 example_heap = Ok (la, na) ∧ observe 1 example_heap = Ok (lb, nb) ∧
    AddressSet.union 0 1 example_heap = Ok (R, h') ∧
    observe R h' = Ok (l, (na + nb)%Z) ∧
    l ≡ₚ la ++ lb ∧ StronglySorted start_le l.
Proof.
  split_and!; [exact (proj1 example_well_formed)|exact (proj2 example_well_formed)|].
  exact (union_keeps_every_range example_heap 0 1
           (proj1 example_well_formed) (proj2 example_well_formed)).
Defined.

Lemma inter_contains r1 r2 a :
  match inter r1 r2 with
  | Some r => AddressRange.contains r a
  | None => false
  end = AddressRange.contains r1 a && AddressRange.contains r2 a.
Proof.
  unfold inter, AddressRange.contains, Address.max, Address.min, Address.le,
    Address.lt, AddressRange.get_min_address, AddressRange.get_max_address.
  destruct r1 as [[s1] [e1]], r2 as [[s2] [e2]], a as [a]. simpl.
  repeat match goal with
         | |- context [(?x <? ?y)%Z] => destruct (Z.ltb_spec x y); simpl
         | |- context [(?x <=? ?y)%Z] => destruct (Z.leb_spec x y); simpl
         end; try reflexivity; lia.
Qed.

Lemma any_contains_omap_inter r1 lb a :
  any_contains (omap (inter r1) lb) a
  = AddressRange.contains r1 a && any_contains lb a.
Proof.
  induction lb as [|r2 lb IH]; [by rewrite andb_false_r|].
  pose proof (inter_contains r1 r2 a) as Hi.
  change (any_contains (r2 :: lb) a)
    with (AddressRange.contains r2 a || any_contains lb a).
  rewrite andb_orb_distrib_r, <- Hi, <- IH. simpl.
  by destruct (inter r1 r2).
Qed.

Lemma any_contains_emitted la lb a :
  any_contains (emitted la lb) a = any_contains la a && any_contains lb a.
Proof.
  unfold emitted. induction la as [|r1 la IH]; [done|].
  cbn [flat_map]. rewrite any_contains_app, IH, any_contains_omap_inter.
  change (any_contains (r1 :: la) a)
    with (AddressRange.contains r1 a || any_contains la a).
  by rewrite andb_orb_distrib_l.
Qed.

(** An address lies in a range of [A.intersect(B)] exactly when it lies in a
    range of [A] and in a range of [B]. *)
Theorem intersect_holds_common_addresses h A B :
  well_formed h A → well_formed h B →
  ∃ la lb R h' l,
    AddressSet.get_address_ranges A h = Ok la ∧
    AddressSet.get_address_ranges B h = Ok lb ∧
    AddressSet.intersect A B h = Ok (R, h') ∧
    AddressSet.get_address_ranges R h' = Ok l ∧
    ∀ a, any_contains l a = any_contains la a && any_contains lb a.
Proof.
  intros [tA HA] [tB HB].
  destruct (intersect_spec h A B tA tB HA HB)
    as (h' & tr & nil & t & Hrun & Hrep & Hp & _ & _).
  exists (ranges tA), (ranges tB), (length (sets h)), h', (ranges t).
  split_and!; try done; try (by apply set_rep_ranges).
  - by eapply get_address_ranges_spec.
  - intros a. by rewrite (any_contains_perm _ _ a Hp), any_contains_emitted.
Qed.

Lemma intersect_holds_common_addresses_witness :
  well_formed example_heap 0 ∧ well_formed example_heap 1 ∧
  ∃ la lb R h' l,
    AddressSet.get_address_ranges 0 example_heap = Ok la ∧
    AddressSet.get_address_ranges 1 example_heap = Ok lb ∧
    AddressSet.intersect 0 1 example_heap = Ok (R, h') ∧
    AddressSet.get_address_ranges R h' = Ok l ∧
    ∀ a, any_contains l a = any_contains la a && any_contains lb a.
Proof.
  split_and!; [exact (proj1 example_well_formed)|exact (proj2 example_well_formed)|].
  exact (intersect_holds_common_addresses example_heap 0 1
           (proj1 example_well_formed) (proj2 example_well_formed)).
Defined.

Lemma inter_comm r1 r2 : inter r1 r2 = inter r2 r1.
Proof.
  unfold inter, Address.max, Address.min, Address.le, Address.lt,
    AddressRange.get_min_address, AddressRange.get_max_address.
  destruct r1 as [[s1] [e1]], r2 as [[s2] [e2]]. simpl.
  repeat match goal with
         | |- context [(?x <? ?y)%Z] => destruct (Z.ltb_spec x y); simpl
         | |- context [(?x <=? ?y)%Z] => destruct (Z.leb_spec x y); simpl
         end; try reflexivity; try lia;
    repeat f_equal; lia.
Qed.

Lemma flat_map_app_perm {A B} (g k : A → list B) l :
  flat_map (λ y, g y ++ k y) l ≡ₚ flat_map g l ++ flat_map k l.
Proof.
  induction l as [|y l IH]; [done|]. simpl. rewrite IH.
  rewrite <- !(assoc_L (++)). f_equiv.
  rewrite !(assoc_L (++)). f_equiv. apply Permutation_app_comm.
Qed.

Lemma flat_map_option_list {A B} (f : A → option B) l :
  flat_map (λ y, option_list (f y)) l = omap f l.
Proof.
  induction l as [|y l IH]; [done|]. simpl. rewrite IH. by destruct (f y).
Qed.

Lemma omap_inter_comm r1 (lb : list AddressRange.t) :
  omap (inter r1) lb = omap (λ r2, inter r2 r1) lb.
Proof.
  induction lb as [|r2 lb IH]; [done|]. cbn [omap list_omap].
  fold (omap (inter r1) lb). fold (omap (λ r2, inter r2 r1) lb).
  by rewrite (inter_comm r1 r2), IH.
Qed.

Lemma emitted_comm la lb : emitted la lb ≡ₚ emitted lb la.
Proof.
  unfold emitted. induction la as [|r1 la IH].
  - simpl. induction lb; [done|]. done.
  - cbn [flat_map]. rewrite IH.
    transitivity (flat_map (λ r2, option_list (inter r2 r1) ++ omap (inter r2) la) lb).
    + rewrite flat_map_app_perm, flat_map_option_list. f_equiv.
      by rewrite omap_inter_comm.
    + erewrite flat_map_ext; [reflexivity|]. intros r2. simpl.
      by destruct (inter r2 r1).
Qed.

(** [A.intersect(B)] and [B.intersect(A)] hold the same ranges, each as often;
    only the order of ranges with equal starts may differ. *)
Theorem intersect_commutes h A B :
  well_formed h A → well_formed h B →
  ∃ R1 h1 l1 R2 h2 l2,
    AddressSet.intersect A B h = Ok (R1, h1) ∧
    AddressSet.get_address_ranges R1 h1 = Ok l1 ∧
    AddressSet.intersect B A h = Ok (R2, h2) ∧
    AddressSet.get_address_ranges R2 h2 = Ok l2 ∧
    l1 ≡ₚ l2.
Proof.
  intros [tA HA] [tB HB].
  destruct (intersect_spec h A B tA tB HA HB)
    as (h1 & tr1 & nil1 & t1 & Hrun1 & Hrep1 & Hp1 & _ & _).
  destruct (intersect_spec h B A tB tA HB HA)
    as (h2 & tr2 & nil2 & t2 & Hrun2 & Hrep2 & Hp2 & _ & _).
  exists (length (sets h)), h1, (ranges t1), (length (sets h)), h2, (ranges t2).
  split_and!; try done; try (by eapply get_address_ranges_spec).
  by rewrite Hp1, Hp2, emitted_comm.
Qed.

Lemma intersect_commutes_witness :
  well_formed example_heap 0 ∧ well_formed example_heap 1 ∧
  ∃ R1 h1 l1 R2 h2 l2,
    AddressSet.intersect 0 1 example_heap = Ok (R1, h1) ∧
    AddressSet.get_address_ranges R1 h1 = Ok l1 ∧
    AddressSet.intersect 1 0 example_heap = Ok (R2, h2) ∧
    AddressSet.get_address_ranges R2 h2 = Ok l2 ∧
    l1 ≡ₚ l2.
Proof.
  split_and!; [exact (proj1 example_well_formed)|exact (proj2 example_well_formed)|].
  exact (intersect_commutes example_heap 0 1
           (proj1 example_well_formed) (proj2 example_well_formed)).
Defined.

(** The sets that [intersect] and [union] return are well formed, and so are
    the operands afterwards: results can be added to, queried and combined
    again. *)
Theorem algebra_results_well_formed h A B :
  well_formed h A → well_formed h B →
  (∃ R h', AddressSet.intersect A B h = Ok (R, h') ∧
           well_formed h' R ∧ well_formed h' A ∧ well_formed h' B) ∧
  (∃ R h', AddressSet.union A B h = Ok (R, h') ∧
           well_formed h' R ∧ well_formed h' A ∧ well_formed h' B).
Proof.
  intros [tA HA] [tB HB]. split.
  - destruct (intersect_spec h A B tA tB HA HB)
      as (h' & tr & nil & t & Hrun & Hrep & _ & He & _).
    exists (length (sets h)), h'. split_and!; [done| | |].
    + by exists t, tr, nil.
    + exists tA. by eapply set_rep_extends.
    + exists tB. by eapply set_rep_extends.
  - destruct (union_spec h A B tA tB HA HB)
      as (h' & tr & nil & t & Hrun & Hrep & _ & He & _).
    exists (length (sets h)), h'. split_and!; [done| | |].
    + by exists t, tr, nil.
    + exists tA. by eapply set_rep_extends.
    + exists tB. by eapply set_rep_extends.
Qed.

Lemma algebra_results_well_formed_witness :
  well_formed example_heap 0 ∧ well_formed example_heap 1 ∧
  (∃ R h', AddressSet.intersect 0 1 example_heap = Ok (R, h') ∧
           well_formed h' R ∧ well_formed h' 0 ∧ well_formed h' 1) ∧
  (∃ R h', AddressSet.union 0 1 example_heap = Ok (R, h') ∧
           well_formed h' R ∧ well_formed h' 0 ∧ well_formed h' 1).
Proof.
  split_and!; [exact (proj1 example_well_formed)|exact (proj2 example_well_formed)|..];
    apply (algebra_results_well_formed example_heap 0 1
             (proj1 example_well_formed) (proj2 example_well_formed)).
Defined.

(** ** Where [add] puts a range *)

Lemma place_app r l1 l2 :
  Forall (λ x, (Address.offset (AddressRange.start x)
                ≤ Address.offset (AddressRange.start r))%Z) l1 →
  Forall (λ x, (Address.offset (AddressRange.start r)
                < Address.offset (AddressRange.start x))%Z) l2 →
  place r (l1 ++ l2) = l1 ++ r :: l2.
Proof.
  intros H1 H2. induction H1 as [|x l1 Hx H1 IH].
  - destruct H2 as [|y l2 Hy H2]; [done|]. cbn [app place].
    unfold Address.lt. by rewrite (proj2 (Z.ltb_lt _ _) Hy).
  - cbn [app place]. fold (l1 ++ l2). unfold Address.lt.
    rewrite (proj2 (Z.ltb_ge _ _) Hx). by rewrite IH.
Qed.

Lemma place_split r (l1 l2 : list (loc * AddressRange.t)) :
  Forall (λ e, (Address.offset (AddressRange.start e.2)
                ≤ Address.offset (AddressRange.start r))%Z) l1 →
  Forall (λ e, (Address.offset (AddressRange.start r)
                < Address.offset (AddressRange.start e.2))%Z) l2 →
  place r ((l1 ++ l2).*2) = l1.*2 ++ r :: l2.*2.
Proof.
  intros H1 H2. rewrite fmap_app. apply place_app; by apply Forall_fmap.
Qed.

Lemma add_place_spec h s r :
  well_formed h s → valid_range r →
  ∃ l h',
    AddressSet.get_address_ranges s h = Ok l ∧
    AddressSet.add s r h = Ok (tt, h') ∧
    AddressSet.get_address_ranges s h' = Ok (place r l) ∧
    well_formed h' s.
Proof.
  intros (t & tr & nil & Hrep) Hr.
  destruct (add_spec_bounds h s tr nil t r Hrep Hr)
    as (h' & t' & l1 & l2 & Hrun & Hrep' & E1 & E2 & _ & B1 & B2).
  exists (ranges t), h'. split_and!; try done.
  - by eapply get_address_ranges_spec.
  - erewrite get_address_ranges_spec by exact Hrep'.
    unfold ranges. rewrite E1, E2, (place_split r l1 l2 B1 B2).
    by rewrite fmap_app.
  - by exists t', tr, nil.
Qed.

(** [s.add(r)] on a well-formed set never raises; afterwards the set yields
    its former ranges in their former order with [r] put behind every range
    starting at or below [r]'s start and in front of the others. *)
Theorem add_inserts_behind_equal_starts h s r :
  well_formed h s → valid_range r →
  ∃ l h',
    AddressSet.get_address_ranges s h = Ok l ∧
    AddressSet.add s r h = Ok (tt, h') ∧
    AddressSet.get_address_ranges s h' = Ok (place r l) ∧
    well_formed h' s.
Proof. apply add_place_spec. Qed.

Lemma add_inserts_behind_equal_starts_witness :
  well_formed example_heap 0 ∧ valid_range (rng 30 32) ∧
  ∃ l h',
    AddressSet.get_address_ranges 0 example_heap = Ok l ∧
    AddressSet.add 0 (rng 30 32) example_heap = Ok (tt, h') ∧
    AddressSet.get_address_ranges 0 h' = Ok (place (rng 30 32) l) ∧
    well_formed h' 0.
Proof.
  assert (valid_range (rng 30 32)) as Hv by (unfold valid_range; simpl; lia).
  split_and!; [exact (proj1 example_well_formed)|exact Hv|].
  exact (add_inserts_behind_equal_starts example_heap 0 (rng 30 32)
           (proj1 example_well_formed) Hv).
Defined.

(** Adding ranges one after the other yields them ordered by start, ranges
    with the same start in the order they were added: a stable insertion
    sort of the arguments into what the set held. *)
Theorem add_all_is_stable_insertion_sort rs : ∀ h s,
  well_formed h s → Forall valid_range rs →
  ∃ l h',
    AddressSet.get_address_ranges s h = Ok l ∧
    add_all s rs h = Ok (tt, h') ∧
    AddressSet.get_address_ranges s h' = Ok (foldl (λ acc r, place r acc) l rs) ∧
    well_formed h' s.
Proof.
  induction rs as [|r rs IH]; intros h s Hwf Hv.
  - destruct Hwf as (t & Hrep). exists (ranges t), h.
    destruct Hrep as (tr & nil & Hrep).
    split_and!; try done; try (by eapply get_address_ranges_spec).
    by exists t, tr, nil.
  - apply Forall_cons in Hv as [Hr Hv].
    destruct (add_place_spec h s r Hwf Hr) as (l & h1 & Hl & Hadd & Hl1 & Hwf1).
    destruct (IH h1 s Hwf1 Hv) as (l' & h' & Hl' & Hrun & Hres & Hwf').
    rewrite Hl1 in Hl'. injection Hl' as <-.
    exists l, h'. split_and!; try done.
    unfold add_all in *. cbn [for_each]. by erewrite bind_ok by exact Hadd.
Qed.

Lemma add_all_is_stable_insertion_sort_witness :
  well_formed example_heap 0 ∧
  Forall valid_range [rng 30 32; rng 5 50; rng 30 31] ∧
  ∃ l h',
    AddressSet.get_address_ranges 0 example_heap = Ok l ∧
    add_all 0 [rng 30 32; rng 5 50; rng 30 31] example_heap = Ok (tt, h') ∧
    AddressSet.get_address_ranges 0 h'
    = Ok (foldl (λ acc r, place r acc) l [rng 30 32; rng 5 50; rng 30 31]) ∧
    well_formed h' 0.
Proof.
  assert (Forall valid_range [rng 30 32; rng 5 50; rng 30 31]) as Hv.
  { repeat constructor; unfold valid_range; simpl; lia. }
  split_and!; [exact (proj1 example_well_formed)|exact Hv|].
  exact (add_all_is_stable_insertion_sort [rng 30 32; rng 5 50; rng 30 31]
           example_heap 0 (proj1 example_well_formed) Hv).
Defined.

(** ** Rotations *)

Lemma inorder_zip_spec h self nil c t :
  zip_rep h self nil c t → RedBlackTree.inorder self h = Ok (locs (plug c t)).
Proof.
  intros Hc. apply zip_rep_top in Hc.
  pose proof (zip_rep_size _ _ _ _ _ Hc) as Hsize.
  destruct Hc as [Hobj _ Hwf _ Hnil _]. simpl in *.
  rewrite app_nil_r in Hsize, Hnil.
  unfold RedBlackTree.inorder.
  erewrite bindR_tree by done. erewrite bindR_tree by done.
  cbn [Obj.nil Obj.root]. unfold bindR at 1. cbn [node_count].
  by eapply _inorder_spec.
Qed.

Lemma same_colors_trans h1 h2 h3 :
  same_colors h1 h2 → same_colors h2 h3 → same_colors h1 h3.
Proof. intros H1 H2 n. by rewrite H2, H1. Qed.

Lemma node_is_agree h h' n rg l r p :
  same_colors h h' → node_is h n rg l r p → node_is h' n rg l r p →
  nodes h' !! n = nodes h !! n.
Proof.
  intros Hc [c Hn] [c' Hn']. specialize (Hc n). rewrite Hn, Hn' in Hc |- *.
  simpl in Hc. by injection Hc as ->.
Qed.

Lemma wf_tree_agree h h' nil : ∀ t p,
  same_colors h h' → wf_tree h nil p t → wf_tree h' nil p t →
  ∀ n, n ∈ locs t → nodes h' !! n = nodes h !! n.
Proof.
  induction t as [|m rg l IHl r IHr]; intros p Hc Hw Hw' n Hin.
  - by apply elem_of_nil in Hin.
  - destruct Hw as (Hm & Hl & Hr), Hw' as (Hm' & Hl' & Hr').
    rewrite locs_node in Hin.
    apply elem_of_app in Hin as [Hin|[->|Hin]%elem_of_cons].
    + by eapply IHl.
    + by eapply node_is_agree.
    + by eapply IHr.
Qed.

Lemma wf_ctx_agree h h' nil : ∀ c child,
  same_colors h h' → wf_ctx h nil c child → wf_ctx h' nil c child →
  ∀ n, n ∈ ctx_locs c → nodes h' !! n = nodes h !! n.
Proof.
  induction c as [|f c IH]; intros child Hc Hw Hw' n Hin.
  - by apply elem_of_nil in Hin.
  - destruct Hw as (Hf & Hs & Hw), Hw' as (Hf' & Hs' & Hw').
    cbn [ctx_locs] in Hin. unfold frame_locs in Hin.
    apply elem_of_app in Hin as [[->|Hin]%elem_of_cons|Hin].
    + destruct (fdir f); by eapply node_is_agree.
    + by eapply wf_tree_agree.
    + by eapply IH.
Qed.

(** Two stores that lay out the same tree with the same colours, and agree
    outside it, are the same store. *)
Lemma zip_rep_agree h h' self nil c t F :
  zip_rep h self nil c t → zip_rep h' self nil c t →
  same_colors h h' → modifies F self h h' →
  F ⊆ locs t ++ ctx_locs c →
  h' = h.
Proof.
  intros [Hobj Hctx Htree _ _ _] [Hobj' Hctx' Htree' _ _ _] Hc
    [Hlen Hn Htlen Ht _ Hs] HF.
  assert (nodes h' = nodes h) as En.
  { apply list_eq. intros n.
    destruct (decide (n ∈ locs t ++ ctx_locs c)) as [Hin|Hout].
    - apply elem_of_app in Hin as [Hin|Hin].
      + by eapply wf_tree_agree.
      + by eapply wf_ctx_agree.
    - apply Hn. intros ?. apply Hout. by apply HF. }
  assert (trees h' = trees h) as Et.
  { apply list_eq. intros i. destruct (decide (i = self)) as [->|Hne].
    - by rewrite Hobj, Hobj'.
    - by apply Ht. }
  destruct h, h'. simpl in *. by subst.
Qed.

(** On a node [x] of the tree with a right child [y], [left_rotate(x)] keeps
    the in-order sequence of the nodes, and [right_rotate(y)] then puts the
    store back exactly as it was. *)
Theorem left_rotate_undone_by_right_rotate h self nil c x rx a y ry b cc :
  zip_rep h self nil c (Node x rx a (Node y ry b cc)) →
  ∃ h' ns,
    RedBlackTree.left_rotate self x h = Ok (tt, h') ∧
    RedBlackTree.inorder self h = Ok ns ∧
    RedBlackTree.inorder self h' = Ok ns ∧
    RedBlackTree.right_rotate self y h' = Ok (tt, h).
Proof.
  intros Hrep.
  destruct (left_rotate_spec _ _ _ _ _ _ _ _ _ _ _ Hrep)
    as (h1 & Hrun1 & Hrep1 & Hc1 & Hm1).
  destruct (right_rotate_spec _ _ _ _ _ _ _ _ _ _ _ Hrep1)
    as (h2 & Hrun2 & Hrep2 & Hc2 & Hm2).
  exists h1, (locs (plug c (Node x rx a (Node y ry b cc)))).
  split_and!; try done.
  - exact (inorder_zip_spec _ _ _ _ _ Hrep).
  - rewrite (inorder_zip_spec _ _ _ _ _ Hrep1). f_equal.
    apply locs_elems_congr, elems_plug_congr. apply elems_rotate.
  - rewrite Hrun2. do 2 f_equal.
    eapply (zip_rep_agree h h2); [exact Hrep|exact Hrep2| | |reflexivity].
    + by eapply same_colors_trans.
    + eapply modifies_trans; [exact Hm1|]. by rewrite <- rotate_locs.
Qed.

(** On a node [y] of the tree with a left child [x], [right_rotate(y)] keeps
    the in-order sequence of the nodes, and [left_rotate(x)] then puts the
    store back exactly as it was. *)
Theorem right_rotate_undone_by_left_rotate h self nil c x rx a y ry b cc :
  zip_rep h self nil c (Node y ry (Node x rx a b) cc) →
  ∃ h' ns,
    RedBlackTree.right_rotate self y h = Ok (tt, h') ∧
    RedBlackTree.inorder self h = Ok ns ∧
    RedBlackTree.inorder self h' = Ok ns ∧
    RedBlackTree.left_rotate self x h' = Ok (tt, h).
Proof.
  intros Hrep.
  destruct (right_rotate_spec _ _ _ _ _ _ _ _ _ _ _ Hrep)
    as (h1 & Hrun1 & Hrep1 & Hc1 & Hm1).
  destruct (left_rotate_spec _ _ _ _ _ _ _ _ _ _ _ Hrep1)
    as (h2 & Hrun2 & Hrep2 & Hc2 & Hm2).
  exists h1, (locs (plug c (Node y ry (Node x rx a b) cc))).
  split_and!; try done.
  - exact (inorder_zip_spec _ _ _ _ _ Hrep).
  - rewrite (inorder_zip_spec _ _ _ _ _ Hrep1). f_equal.
    apply locs_elems_congr, elems_plug_congr. symmetry. apply elems_rotate.
  - rewrite Hrun2. do 2 f_equal.
    eapply (zip_rep_agree h h2); [exact Hrep|exact Hrep2| | |reflexivity].
    + by eapply same_colors_trans.
    + eapply modifies_trans; [exact Hm1|]. by rewrite rotate_locs.
Qed.

Lemma example_heap_layout :
  zip_rep example_heap 0 0 []
    (Node 1 (rng 10 20) Leaf (Node 2 (rng 30 40) Leaf Leaf)).
Proof.
  split.
  - reflexivity.
  - exact I.
  - simpl. split_and!; try exact I; eexists; reflexivity.
  - by apply (bool_decide_unpack _).
  - by apply (bool_decide_unpack _).
  - eexists. split; reflexivity.
Qed.

Lemma left_rotate_undone_by_right_rotate_witness :
  zip_rep example_heap 0 0 []
    (Node 1 (rng 10 20) Leaf (Node 2 (rng 30 40) Leaf Leaf)) ∧
  ∃ h' ns,
    RedBlackTree.left_rotate 0 1 example_heap = Ok (tt, h') ∧
    RedBlackTree.inorder 0 example_heap = Ok ns ∧
    RedBlackTree.inorder 0 h' = Ok ns ∧
    RedBlackTree.right_rotate 0 2 h' = Ok (tt, example_heap).
Proof.
  split; [exact example_heap_layout|].
  exact (left_rotate_undone_by_right_rotate _ _ _ _ _ _ _ _ _ _ _
           example_heap_layout).
Defined.

Lemma example_heap_left_layout :
  zip_rep example_heap_left 0 0 []
    (Node 1 (rng 30 40) (Node 2 (rng 10 20) Leaf Leaf) Leaf).
Proof.
  split.
  - reflexivity.
  - exact I.
  - simpl. split_and!; try exact I; eexists; reflexivity.
  - by apply (bool_decide_unpack _).
  - by apply (bool_decide_unpack _).
  - eexists. split; reflexivity.
Qed.

Lemma right_rotate_undone_by_left_rotate_witness :
  zip_rep example_heap_left 0 0 []
    (Node 1 (rng 30 40) (Node 2 (rng 10 20) Leaf Leaf) Leaf) ∧
  ∃ h' ns,
    RedBlackTree.right_rotate 0 1 example_heap_left = Ok (tt, h') ∧
    RedBlackTree.inorder 0 example_heap_left = Ok ns ∧
    RedBlackTree.inorder 0 h' = Ok ns ∧
    RedBlackTree.left_rotate 0 2 h' = Ok (tt, example_heap_left).
Proof.
  split; [exact example_heap_left_layout|].
  exact (right_rotate_undone_by_left_rotate _ _ _ _ _ _ _ _ _ _ _
           example_heap_left_layout).
Defined.

(** ** Addresses and ranges *)

(** [next] and [previous] undo each other, [next] moves one up in the order
    and [subtract] measures the step as 1. *)
Theorem address_next_previous_round_trip a :
  Address.previous (Address.next a) = a ∧
  Address.next (Address.previous a) = a ∧
  Address.subtract (Address.next a) a = 1%Z ∧
  Address.lt a (Address.next a) = true ∧
  Address.lt (Address.previous a) a = true.
Proof.
  destruct a as [o].
  unfold Address.previous, Address.next, Address.subtract, Address.lt. simpl.
  split_and!; try (f_equal; lia); apply Z.ltb_lt; lia.
Qed.

(** The comparisons of [Address] form a total order that agrees with
    [__eq__]: of [a < b], [a == b], [b < a] exactly one holds, [a <= b] is
    [a < b or a == b], and [a == b] holds only for equal offsets. *)
Theorem address_order_total a b :
  (Address.eq a b = true ↔ a = b) ∧
  Address.le a b = Address.lt a b || Address.eq a b ∧
  Address.le a b = negb (Address.lt b a) ∧
  (Address.lt a b = true ∧ Address.eq a b = false ∧ Address.lt b a = false ∨
   Address.lt a b = false ∧ Address.eq a b = true ∧ Address.lt b a = false ∨
   Address.lt a b = false ∧ Address.eq a b = false ∧ Address.lt b a = true).
Proof.
  destruct a as [x], b as [y]. unfold Address.eq, Address.le, Address.lt. simpl.
  split_and!.
  - rewrite Z.eqb_eq. split; [by intros ->|by intros [= ->]].
  - destruct (Z.leb_spec x y), (Z.ltb_spec x y), (Z.eqb_spec x y); simpl; lia.
  - destruct (Z.leb_spec x y), (Z.ltb_spec y x); simpl; lia.
  - destruct (Z.ltb_spec x y), (Z.ltb_spec y x), (Z.eqb_spec x y); lia.
Qed.

Lemma iter_next i s :
  Nat.iter i Address.next s = Address.mk (Address.offset s + Z.of_nat i).
Proof.
  induction i as [|i IH].
  - destruct s. simpl. f_equal. lia.
  - rewrite Nat.iter_succ, IH. unfold Address.next. simpl. f_equal. lia.
Qed.

(** A range that the constructor accepted is not empty, contains both its
    bounds, and [get_length] counts its addresses: they are the first
    [get_length()] addresses reached from [start] by [next]. *)
Theorem range_length_counts_addresses s e r :
  AddressRange.init s e = Ok r →
  (0 < AddressRange.get_length r)%Z ∧
  AddressRange.contains r s = true ∧ AddressRange.contains r e = true ∧
  ∀ a, AddressRange.contains r a = true ↔
       ∃ i : nat, (Z.of_nat i < AddressRange.get_length r)%Z ∧
                  a = Nat.iter i Address.next s.
Proof.
  unfold AddressRange.init, Address.lt.
  destruct (Z.ltb_spec (Address.offset e) (Address.offset s)); [done|].
  intros [= <-].
  unfold AddressRange.get_length, AddressRange.contains, Address.le. simpl.
  split_and!.
  - lia.
  - apply andb_true_iff. split; apply Z.leb_le; lia.
  - apply andb_true_iff. split; apply Z.leb_le; lia.
  - intros a. rewrite andb_true_iff, !Z.leb_le. split.
    + intros [Ha Hb]. exists (Z.to_nat (Address.offset a - Address.offset s)).
      split; [lia|]. rewrite iter_next. destruct a as [o]. simpl in *.
      f_equal. lia.
    + intros (i & Hi & ->). rewrite iter_next. simpl. lia.
Qed.

Lemma range_length_counts_addresses_witness :
  AddressRange.init (Address.mk 3) (Address.mk 5) = Ok (rng 3 5) ∧
  (0 < AddressRange.get_length (rng 3 5))%Z ∧
  AddressRange.contains (rng 3 5) (Address.mk 3) = true ∧
  AddressRange.contains (rng 3 5) (Address.mk 5) = true ∧
  ∀ a, AddressRange.contains (rng 3 5) a = true ↔
       ∃ i : nat, (Z.of_nat i < AddressRange.get_length (rng 3 5))%Z ∧
                  a = Nat.iter i Address.next (Address.mk 3).
Proof.
  split; [reflexivity|].
  exact (range_length_counts_addresses (Address.mk 3) (Address.mk 5) (rng 3 5)
           eq_refl).
Defined.

(** ** The constructor *)

(** [AddressSet()] never raises and returns a new set that yields no range,
    counts 0 addresses and contains no address; every object that existed
    before the call is unchanged. *)
Theorem new_set_is_empty h :
  ∃ s h',
    AddressSet.init None h = Ok (s, h') ∧
    sets h !! s = None ∧
    AddressSet.get_address_ranges s h' = Ok [] ∧
    AddressSet.get_num_addresses s h' = Ok 0%Z ∧
    (∀ a, AddressSet.contains s [PyAddress a] h' = Ok false) ∧
    extends h h'.
Proof.
  destruct (set_init_empty_spec h) as (h' & Hrun & Hrep & He & _).
  exists (length (sets h)), h'. split_and!; try done.
  - by apply lookup_ge_None_2.
  - by rewrite (get_address_ranges_spec _ _ _ _ _ Hrep).
  - by rewrite (get_num_addresses_spec _ _ _ _ _ Hrep).
  - intros a.
    destruct (contains_address_spec _ _ _ _ _ a Hrep) as (b & Hb & Hs & _).
    cbn [AddressSet.contains]. rewrite Hb. f_equal.
    destruct b; [|done]. by specialize (Hs eq_refl).
Qed.

(** [AddressSet(r)] returns a new set that yields exactly [r], counts
    [r.get_length()] addresses and contains exactly the addresses of [r];
    every object that existed before the call is unchanged. *)
Theorem new_set_holds_initial_range h r :
  valid_range r →
  ∃ s h',
    AddressSet.init (Some r) h = Ok (s, h') ∧
    sets h !! s = None ∧
    AddressSet.get_address_ranges s h' = Ok [r] ∧
    AddressSet.get_num_addresses s h' = Ok (AddressRange.get_length r) ∧
    (∀ a, AddressSet.contains s [PyAddress a] h'
          = Ok (AddressRange.contains r a)) ∧
    extends h h'.
Proof.
  intros Hr.
  destruct (set_init_spec h (Some r)) as (h' & t & Hrun & Hrep & Ht & He & _).
  { by intros ? [= <-]. }
  simpl in Ht.
  exists (length (sets h)), h'. split_and!; try done.
  - by apply lookup_ge_None_2.
  - by rewrite (get_address_ranges_spec _ _ _ _ _ Hrep), Ht.
  - rewrite (get_num_addresses_spec _ _ _ _ _ Hrep), Ht. simpl. f_equal. lia.
  - intros a.
    destruct (contains_address_spec _ _ _ _ _ a Hrep) as (b & Hb & _ & Hc).
    cbn [AddressSet.contains]. rewrite Hb. f_equal.
    rewrite Hc; rewrite Ht; [|repeat constructor].
    simpl. by rewrite orb_false_r.
Qed.

Lemma new_set_holds_initial_range_witness :
  valid_range (rng 3 5) ∧
  ∃ s h',
    AddressSet.init (Some (rng 3 5)) example_heap = Ok (s, h') ∧
    sets example_heap !! s = None ∧
    AddressSet.get_address_ranges s h' = Ok [rng 3 5] ∧
    AddressSet.get_num_addresses s h' = Ok (AddressRange.get_length (rng 3 5)) ∧
    (∀ a, AddressSet.contains s [PyAddress a] h'
          = Ok (AddressRange.contains (rng 3 5) a)) ∧
    extends example_heap h'.
Proof.
  assert (valid_range (rng 3 5)) as Hv by (unfold valid_range; simpl; lia).
  split; [exact Hv|].
  exact (new_set_holds_initial_range example_heap (rng 3 5) Hv).
Defined.

(** ** The concrete methods of [AddressSetView] *)

Lemma offset_compare_ok : compare_ok offset_compare_to.
Proof. intros a b. eexists. split; [reflexivity|]. lia. Qed.

Lemma trim_start_body_skip compare_to trimmed_set addr r h :
  compare_ok compare_to →
  AddressSetView.trim_start_body compare_to trimmed_set addr r h = Ok (tt, h).
Proof.
  intros Hc. unfold AddressSetView.trim_start_body.
  destruct (Hc (AddressRange.get_min_address r) addr) as (n & -> & _).
  unfold bind at 1, rd, liftR. cbn [AddressSetView.gt_zero]. unfold bind at 1.
  destruct (0 <? n)%Z; [done|].
  destruct (Hc (AddressRange.get_max_address r) addr) as (m & -> & _).
  unfold bind at 1. cbn [AddressSetView.gt_zero]. unfold bind at 1.
  by destruct (0 <? m)%Z.
Qed.

Lemma trim_end_body_skip compare_to trimmed_set addr r h :
  compare_ok compare_to →
  AddressSetView.trim_end_body compare_to trimmed_set addr r h = Ok (tt, h).
Proof.
  intros Hc. unfold AddressSetView.trim_end_body.
  destruct (Hc (AddressRange.get_max_address r) addr) as (n & -> & _).
  unfold bind at 1, rd, liftR. cbn [AddressSetView.lt_zero]. unfold bind at 1.
  destruct (n <? 0)%Z; [done|].
  destruct (Hc (AddressRange.get_min_address r) addr) as (m & -> & _).
  unfold bind at 1. cbn [AddressSetView.lt_zero]. unfold bind at 1.
  by destruct (m <? 0)%Z.
Qed.

Lemma for_each_skip {X} (body : X → M unit) xs h :
  (∀ x h, body x h = Ok (tt, h)) → for_each xs body h = Ok (tt, h).
Proof.
  intros Hb. induction xs as [|x xs IH]; [done|].
  cbn [for_each]. unfold bind. by rewrite Hb.
Qed.

(** With a [compare_to] that orders addresses, [trim_start(set_, addr)] on a
    well-formed set never raises and leaves the store as it was: what it
    returns is an instance of the [AddressSet] of address_set_view.py, whose
    [add] does nothing, so none of the ranges of [set_] is kept, whether it
    lies above [addr] or not. *)
Theorem trim_start_keeps_no_range compare_to h set_ addr :
  compare_ok compare_to →
  well_formed h set_ →
  AddressSetView.trim_start compare_to set_ addr h = Ok (ViewAddressSet.mk, h).
Proof.
  intros Hc [t Hset]. unfold AddressSetView.trim_start.
  unfold ViewAddressSet.init. rewrite bind_ret.
  unfold bind at 1, rd. rewrite (set_rep_ranges _ _ _ Hset).
  unfold bind. rewrite for_each_skip; [done|].
  intros r h0. by apply trim_start_body_skip.
Qed.

Lemma trim_start_keeps_no_range_witness :
  compare_ok offset_compare_to ∧ well_formed example_heap 0 ∧
  AddressSetView.trim_start offset_compare_to 0 (Address.mk 25) example_heap
  = Ok (ViewAddressSet.mk, example_heap).
Proof.
  split_and!; [exact offset_compare_ok|exact (proj1 example_well_formed)|].
  exact (trim_start_keeps_no_range offset_compare_to example_heap 0
           (Address.mk 25) offset_compare_ok (proj1 example_well_formed)).
Defined.

(** With a [compare_to] that orders addresses, [trim_end(set_, addr)] on a
    well-formed set never raises and leaves the store as it was: what it
    returns is an instance of the [AddressSet] of address_set_view.py, whose
    [add] does nothing, so none of the ranges of [set_] is kept, whether it
    lies below [addr] or not. *)
Theorem trim_end_keeps_no_range compare_to h set_ addr :
  compare_ok compare_to →
  well_formed h set_ →
  AddressSetView.trim_end compare_to set_ addr h = Ok (ViewAddressSet.mk, h).
Proof.
  intros Hc [t Hset]. unfold AddressSetView.trim_end.
  unfold ViewAddressSet.init. rewrite bind_ret.
  unfold bind at 1, rd. rewrite (set_rep_ranges _ _ _ Hset).
  unfold bind. rewrite for_each_skip; [done|].
  intros r h0. by apply trim_end_body_skip.
Qed.

Lemma trim_end_keeps_no_range_witness :
  compare_ok offset_compare_to ∧ well_formed example_heap 0 ∧
  AddressSetView.trim_end offset_compare_to 0 (Address.mk 25) example_heap
  = Ok (ViewAddressSet.mk, example_heap).
Proof.
  split_and!; [exact offset_compare_ok|exact (proj1 example_well_formed)|].
  exact (trim_end_keeps_no_range offset_compare_to example_heap 0
           (Address.mk 25) offset_compare_ok (proj1 example_well_formed)).
Defined.

(* [below a r] counts the addresses of [r] that are less than [a]: they are
   the first [below a r] addresses reached from [start] by [next]. *)
Lemma below_counts a r x :
  valid_range r →
  AddressRange.contains r x = true ∧ Address.lt x a = true ↔
  ∃ i : nat, (Z.of_nat i < below a r)%Z ∧
             x = Nat.iter i Address.next (AddressRange.start r).
Proof.
  unfold valid_range, below, AddressRange.contains, Address.le, Address.lt.
  intros Hv. rewrite andb_true_iff, !Z.leb_le, Z.ltb_lt. split.
  - intros [[H1 H2] H3].
    exists (Z.to_nat (Address.offset x - Address.offset (AddressRange.start r))).
    split; [lia|]. rewrite iter_next. destruct x as [o]. simpl in *. f_equal. lia.
  - intros (i & Hi & ->). rewrite iter_next. simpl. lia.
Qed.

Lemma sum_below_zero a l :
  Forall (λ r, (Address.offset a ≤ Address.offset (AddressRange.start r))%Z) l →
  sum_below a l = 0%Z.
Proof.
  induction 1 as [|r l Hr _ IH]; [done|]. simpl. rewrite IH. unfold below. lia.
Qed.

Lemma count_before_loop_spec compare_to a l :
  compare_ok compare_to →
  Forall valid_range l → StronglySorted strictly_before l →
  ∀ count, AddressSetView.count_before_loop compare_to l a count
           = Ok (count + sum_below a l)%Z.
Proof.
  intros Hc Hv Hs. induction Hs as [|r l Hs IH Hr]; intros count.
  - simpl. f_equal. lia.
  - apply Forall_cons in Hv as [Hvr Hv]. cbn [AddressSetView.count_before_loop].
    destruct (Hc (AddressRange.get_min_address r) a) as (n & -> & Hn & _).
    unfold AddressRange.get_min_address in *. cbn [AddressSetView.gt_zero].
    unfold valid_range in Hvr.
    assert (Hrest : (Address.offset a ≤ Address.offset (AddressRange.end_ r))%Z →
                    sum_below a l = 0%Z).
    { intros Ha. apply sum_below_zero. eapply Forall_impl; [exact Hr|].
      intros r'. unfold strictly_before. lia. }
    destruct (Z.ltb_spec 0 n) as [Hlt|Hge].
    + apply Hn in Hlt. f_equal. simpl. rewrite Hrest by lia. unfold below. lia.
    + assert (Address.offset (AddressRange.start r) ≤ Address.offset a)%Z by lia.
      unfold AddressRange.contains, Address.le.
      rewrite (proj2 (Z.leb_le _ _)) by done. cbn [andb].
      destruct (Z.leb_spec (Address.offset a) (Address.offset (AddressRange.end_ r))).
      * f_equal. simpl. rewrite Hrest by lia.
        unfold below, Address.subtract. lia.
      * rewrite (IH Hv). f_equal. simpl.
        unfold below, AddressRange.get_length. lia.
Qed.

(** With a [compare_to] that orders addresses, on a set whose ranges lie
    apart from each other [get_address_count_before(address)] is the number
    of stored addresses below [address]. *)
Theorem count_before_counts_addresses_below compare_to h s l address :
  compare_ok compare_to →
  well_formed h s →
  AddressSet.get_address_ranges s h = Ok l →
  StronglySorted strictly_before l →
  AddressSetView.get_address_count_before compare_to s address h
  = Ok (sum_below address l).
Proof.
  intros Hc [t Hset] Hl Hs.
  unfold AddressSetView.get_address_count_before, bindR. rewrite Hl.
  rewrite (set_rep_ranges _ _ _ Hset) in Hl. injection Hl as <-.
  unfold liftR. rewrite (count_before_loop_spec compare_to) ; try done.
  destruct Hset as (? & ? & [_ _ Hv _]). done.
Qed.

Lemma count_before_counts_addresses_below_witness :
  compare_ok offset_compare_to ∧ well_formed example_heap 0 ∧
  AddressSet.get_address_ranges 0 example_heap = Ok [rng 10 20; rng 30 40] ∧
  StronglySorted strictly_before [rng 10 20; rng 30 40] ∧
  AddressSetView.get_address_count_before offset_compare_to 0 (Address.mk 33)
    example_heap
  = Ok (sum_below (Address.mk 33) [rng 10 20; rng 30 40]).
Proof.
  assert (StronglySorted strictly_before [rng 10 20; rng 30 40]) as Hs.
  { repeat constructor; unfold strictly_before; simpl; lia. }
  split_and!; [exact offset_compare_ok|exact (proj1 example_well_formed)
              |reflexivity|exact Hs|].
  exact (count_before_counts_addresses_below offset_compare_to example_heap 0
           [rng 10 20; rng 30 40] (Address.mk 33) offset_compare_ok
           (proj1 example_well_formed) eq_refl Hs).
Defined.

(** With the [Address] of address_set.py, which defines no [compare_to],
    [trim_start], [trim_end] and [get_address_count_before] raise
    AttributeError on every set that holds a range. *)
Theorem view_methods_raise_without_compare_to h s l addr :
  well_formed h s →
  AddressSet.get_address_ranges s h = Ok l → l ≠ [] →
  AddressSetView.trim_start AddressSetView.no_compare_to s addr h
  = Err AttributeError ∧
  AddressSetView.trim_end AddressSetView.no_compare_to s addr h
  = Err AttributeError ∧
  AddressSetView.get_address_count_before AddressSetView.no_compare_to s addr h
  = Err AttributeError.
Proof.
  intros [t Hset] Hl Hne.
  pose proof (set_rep_ranges _ _ _ Hset) as Hl1.
  rewrite Hl1 in Hl. injection Hl as <-.
  destruct (ranges t) as [|r l] eqn:E; [done|].
  split_and!.
  - unfold AddressSetView.trim_start, ViewAddressSet.init. rewrite bind_ret.
    unfold bind at 1, rd. by rewrite Hl1.
  - unfold AddressSetView.trim_end, ViewAddressSet.init. rewrite bind_ret.
    unfold bind at 1, rd. by rewrite Hl1.
  - unfold AddressSetView.get_address_count_before, bindR.
    by rewrite Hl1.
Qed.

Lemma view_methods_raise_without_compare_to_witness :
  well_formed example_heap 0 ∧
  AddressSet.get_address_ranges 0 example_heap = Ok [rng 10 20; rng 30 40] ∧
  [rng 10 20; rng 30 40] ≠ [] ∧
  AddressSetView.trim_start AddressSetView.no_compare_to 0 (Address.mk 15)
    example_heap = Err AttributeError ∧
  AddressSetView.trim_end AddressSetView.no_compare_to 0 (Address.mk 15)
    example_heap = Err AttributeError ∧
  AddressSetView.get_address_count_before AddressSetView.no_compare_to 0
    (Address.mk 15) example_heap = Err AttributeError.
Proof.
  assert ([rng 10 20; rng 30 40] ≠ []) as Hne by discriminate.
  split_and!; [exact (proj1 example_well_formed)|reflexivity|exact Hne|..];
    apply (view_methods_raise_without_compare_to example_heap 0
             [rng 10 20; rng 30 40] (Address.mk 15)
             (proj1 example_well_formed) eq_refl Hne).
Defined.

(** ** What [add] keeps *)

(** When the ranges passed to the constructor and to [add] are valid and
    pairwise neither overlapping nor adjacent, [get_address_ranges()] yields
    exactly those ranges, each once, and [R1.end.next() < R2.start] holds for
    every R1 yielded before R2. *)
Theorem separated_adds_stay_separated h0 init rs :
  valid_init init → Forall valid_range rs →
  StronglySorted apart (rs ++ init_list init) →
  ∃ l, stored_after h0 init rs = Ok l ∧
       l ≡ₚ rs ++ init_list init ∧
       StronglySorted separated l.
Proof.
  intros Hi Hrs Ha.
  destruct (stored_after_spec h0 init rs Hi Hrs) as (l & Hl & Hp & Hs & Hv).
  exists l. split_and!; [done|done|]. apply sorted_apart_separated; try done.
  by apply (StronglySorted_perm_sym apart (rs ++ init_list init) l).
Qed.

Lemma separated_adds_stay_separated_witness :
  valid_init None ∧ Forall valid_range [rng 30 40; rng 10 20] ∧
  StronglySorted apart ([rng 30 40; rng 10 20] ++ init_list None) ∧
  ∃ l, stored_after empty_heap None [rng 30 40; rng 10 20] = Ok l ∧
       l ≡ₚ [rng 30 40; rng 10 20] ++ init_list None ∧
       StronglySorted separated l.
Proof.
  assert (valid_init None) as H1 by (intros r; discriminate).
  assert (Forall valid_range [rng 30 40; rng 10 20]) as H2
    by (repeat constructor; unfold valid_range; simpl; lia).
  assert (StronglySorted apart ([rng 30 40; rng 10 20] ++ init_list None)) as H3
    by (repeat constructor; right; reflexivity).
  split_and!; [exact H1|exact H2|exact H3|].
  exact (separated_adds_stay_separated empty_heap None _ H1 H2 H3).
Defined.

(** [add] is idempotent on no set: calling [add(r)] a second time stores one
    more copy of [r].  The sequence yielded by [get_address_ranges()] is the
    one after the first call with [r] inserted once more, and
    [get_num_addresses()] grows by [r.get_length()]. *)
Theorem second_add_inserts_copy h s r :
  well_formed h s → valid_range r →
  ∃ h1 h2 l1 l2 n,
    AddressSet.add s r h = Ok (tt, h1) ∧
    AddressSet.add s r h1 = Ok (tt, h2) ∧
    observe s h1 = Ok (l1 ++ l2, n) ∧
    observe s h2 = Ok (l1 ++ r :: l2, (n + AddressRange.get_length r)%Z).
Proof.
  intros (t & tr & nil & Hrep) Hr.
  destruct (add_spec h s tr nil t r Hrep Hr)
    as (h1 & t1 & a1 & b1 & Hrun1 & Hrep1 & _ & _ & _).
  destruct (add_spec h1 s tr nil t1 r Hrep1 Hr)
    as (h2 & t2 & a2 & b2 & Hrun2 & Hrep2 & E1 & E2 & _).
  exists h1, h2, a2.*2, b2.*2, (sum_lengths (ranges t1)).
  assert (ranges t1 = a2.*2 ++ b2.*2) as R1
    by (unfold ranges; by rewrite E1, fmap_app).
  assert (ranges t2 = a2.*2 ++ r :: b2.*2) as R2
    by (unfold ranges; by rewrite E2, fmap_app).
  split_and!; try done.
  - unfold observe.
    erewrite bindR_ok by (by eapply get_address_ranges_spec).
    erewrite bindR_ok by (by eapply get_num_addresses_spec).
    by rewrite R1.
  - unfold observe.
    erewrite bindR_ok by (by eapply get_address_ranges_spec).
    erewrite bindR_ok by (by eapply get_num_addresses_spec).
    rewrite R2. unfold retR. do 2 f_equal.
    rewrite R1, !sum_lengths_app. simpl. lia.
Qed.

Lemma second_add_inserts_copy_witness :
  well_formed example_heap 0 ∧ valid_range (rng 10 20) ∧
  ∃ h1 h2 l1 l2 n,
    AddressSet.add 0 (rng 10 20) example_heap = Ok (tt, h1) ∧
    AddressSet.add 0 (rng 10 20) h1 = Ok (tt, h2) ∧
    observe 0 h1 = Ok (l1 ++ l2, n) ∧
    observe 0 h2 = Ok (l1 ++ rng 10 20 :: l2,
                       (n + AddressRange.get_length (rng 10 20))%Z).
Proof.
  assert (valid_range (rng 10 20)) as Hv by (unfold valid_range; simpl; lia).
  split_and!; [exact (proj1 example_well_formed)|exact Hv|].
  exact (second_add_inserts_copy example_heap 0 (rng 10 20)
           (proj1 example_well_formed) Hv).
Defined.

(** ** Balance *)

Lemma red_black_intro h s tr nil t :
  set_rep_at h s tr nil t → rb_ok (color_of h) nil t → red_black h s.
Proof.
  intros Hrep Hok. exists tr, nil, t. split_and!; try done.
  - apply is_black_color_of. apply Hrep.
  - apply is_black_color_of. apply Hrep.
Qed.

Lemma red_black_well_formed h s : red_black h s → well_formed h s.
Proof. intros (tr & nil & t & Hrep & _). by exists t, tr, nil. Qed.

Lemma add_red_black h s r :
  red_black h s → valid_range r →
  ∃ h', AddressSet.add s r h = Ok (tt, h') ∧ red_black h' s.
Proof.
  intros (tr & nil & t & Hrep & _ & _ & Hok) Hr.
  destruct (add_spec_rb h s tr nil t r Hrep Hr)
    as (h' & t' & l1 & l2 & Hrun & Hrep' & _ & _ & _ & _ & _ & Hrb).
  exists h'. split; [done|]. eapply red_black_intro; [exact Hrep'|auto].
Qed.

Lemma init_red_black h init :
  valid_init init →
  ∃ h', AddressSet.init init h = Ok (length (sets h), h') ∧
        red_black h' (length (sets h)).
Proof.
  intros Hv. destruct (set_init_empty_spec h) as (h1 & Hrun & Hrep & _ & _).
  assert (red_black h1 (length (sets h))) as Hrb
    by (eapply red_black_intro; [exact Hrep|done]).
  destruct init as [r|]; [|by exists h1].
  destruct (add_red_black _ _ r Hrb (Hv r eq_refl)) as (h2 & Hadd & Hrb2).
  exists h2. split; [|done].
  revert Hrun. unfold AddressSet.init, bind, ret.
  destruct (RedBlackTree.init h) as [[tr h']|]; [|done].
  destruct (new_set _ h') as [[s h'']|]; [|done].
  intros [= -> ->]. by rewrite Hadd.
Qed.

Lemma add_all_red_black rs : ∀ h s,
  red_black h s → Forall valid_range rs →
  ∃ h', add_all s rs h = Ok (tt, h') ∧ red_black h' s.
Proof.
  induction rs as [|r rs IH]; intros h s Hrb Hv; [by exists h|].
  apply Forall_cons in Hv as [Hr Hv].
  destruct (add_red_black h s r Hrb Hr) as (h1 & Hadd & Hrb1).
  destruct (IH h1 s Hrb1 Hv) as (h' & Hrun & Hrb').
  exists h'. split; [|done].
  unfold add_all in *. cbn [for_each]. by erewrite bind_ok by exact Hadd.
Qed.

(** [add] keeps the tree of a set a red-black tree: after the new node is
    linked in red, [insert_fixup] restores the colour properties. *)
Theorem add_keeps_red_black h s r :
  red_black h s → valid_range r →
  ∃ h', AddressSet.add s r h = Ok (tt, h') ∧ red_black h' s.
Proof. apply add_red_black. Qed.

(** Every set made by the constructor and any sequence of valid [add] calls
    holds a red-black tree. *)
Theorem built_sets_are_red_black h0 init rs :
  valid_init init → Forall valid_range rs →
  ∃ s h', build init rs h0 = Ok (s, h') ∧ red_black h' s.
Proof.
  intros Hi Hrs.
  destruct (init_red_black h0 init Hi) as (h1 & Hinit & Hrb1).
  destruct (add_all_red_black rs h1 _ Hrb1 Hrs) as (h' & Hrun & Hrb').
  exists (length (sets h0)), h'. split; [|done].
  unfold build. erewrite bind_ok by exact Hinit.
  by erewrite bind_ok by exact Hrun.
Qed.

Lemma built_sets_are_red_black_witness :
  valid_init (Some (rng 5 9)) ∧
  Forall valid_range [rng 0 100; rng 3 4; rng 7 8; rng 1 1] ∧
  ∃ s h', build (Some (rng 5 9)) [rng 0 100; rng 3 4; rng 7 8; rng 1 1] empty_heap
          = Ok (s, h') ∧ red_black h' s.
Proof.
  assert (valid_init (Some (rng 5 9))) as H1
    by (intros r [= <-]; unfold valid_range; simpl; lia).
  assert (Forall valid_range [rng 0 100; rng 3 4; rng 7 8; rng 1 1]) as H2
    by (repeat constructor; unfold valid_range; simpl; lia).
  split_and!; [exact H1|exact H2|].
  exact (built_sets_are_red_black empty_heap _ _ H1 H2).
Defined.

Lemma balanced_example_red_black : red_black balanced_example_heap 0.
Proof.
  destruct (init_red_black empty_heap None) as (h1 & Hinit & Hrb1);
    [intros r; discriminate|].
  destruct (add_all_red_black [rng 10 20; rng 30 40; rng 5 6] h1 _ Hrb1)
    as (h2 & Hrun & Hrb2).
  { repeat constructor; unfold valid_range; simpl; lia. }
  vm_compute in Hinit. injection Hinit as <-.
  vm_compute in Hrun. injection Hrun as <-.
  exact Hrb2.
Qed.

Lemma add_keeps_red_black_witness :
  red_black balanced_example_heap 0 ∧ valid_range (rng 7 8) ∧
  ∃ h', AddressSet.add 0 (rng 7 8) balanced_example_heap = Ok (tt, h') ∧
        red_black h' 0.
Proof.
  assert (valid_range (rng 7 8)) as Hv by (unfold valid_range; simpl; lia).
  split_and!; [exact balanced_example_red_black|exact Hv|].
  exact (add_keeps_red_black balanced_example_heap 0 (rng 7 8)
           balanced_example_red_black Hv).
Defined.

Lemma red_black_height_bound h s :
  red_black h s →
  ∃ tr nil t, set_rep_at h s tr nil t ∧
              height t ≤ 2 * Nat.log2 (length (ranges t) + 1).
Proof.
  intros (tr & nil & t & Hrep & Hn & Hr & Hok).
  exists tr, nil, t. split; [done|].
  pose proof (rb_height _ _ _ Hok Hn) as Hh. rewrite Hr in Hh.
  pose proof (rb_size _ _ _ Hok) as Hs.
  unfold ranges. rewrite length_fmap.
  apply Nat.log2_le_pow2 in Hs; lia.
Qed.

(** A red-black tree is shallow: the tree of a set that holds [n] ranges has
    height at most [2 * log2 (n + 1)]. *)
Theorem red_black_tree_is_shallow h s :
  red_black h s →
  ∃ tr nil t, set_rep_at h s tr nil t ∧
              height t ≤ 2 * Nat.log2 (length (ranges t) + 1).
Proof. apply red_black_height_bound. Qed.

Lemma red_black_tree_is_shallow_witness :
  red_black balanced_example_heap 0 ∧
  ∃ tr nil t, set_rep_at balanced_example_heap 0 tr nil t ∧
              height t ≤ 2 * Nat.log2 (length (ranges t) + 1).
Proof.
  split; [exact balanced_example_red_black|].
  exact (red_black_tree_is_shallow balanced_example_heap 0
           balanced_example_red_black).
Defined.

Lemma find_loop_fuel h self nil root addr :
  trees h !! self = Some (Obj.mkTree nil root) →
  ∀ t p fuel fuel',
    wf_tree h nil p t → nil ∉ locs t →
    height t ≤ fuel → height t ≤ fuel' →
    RedBlackTree.find_loop fuel self addr (rl nil t) h
    = RedBlackTree.find_loop fuel' self addr (rl nil t) h.
Proof.
  intros Hobj. induction t as [|n rg l IHl r IHr];
    intros p fuel fuel' Hwf Hnil Hf Hf'.
  - destruct fuel, fuel'; simpl; (erewrite !bindR_tree by done); simpl;
      by rewrite loc_eqb_refl.
  - rewrite locs_node in Hnil. simpl in Hf, Hf'.
    destruct fuel as [|fuel]; [lia|]. destruct fuel' as [|fuel']; [lia|].
    destruct Hwf as ([c Hn] & Hl & Hr).
    assert (n ≠ nil) by (intros ->; apply Hnil; set_solver).
    cbn [RedBlackTree.find_loop rl]. erewrite !bindR_tree by done. cbn [Obj.nil].
    rewrite loc_eqb_ne by done. cbn [negb].
    erewrite !bindR_node by done. cbn [RBNode.key py_lt]. rewrite !bindR_lift_ok.
    destruct (Address.lt addr (AddressRange.start rg)).
    + erewrite !bindR_node by done. cbn [RBNode.left].
      apply (IHl n); [done|set_solver|lia|lia].
    + erewrite !bindR_node by done. cbn [RBNode.value py_gt].
      rewrite !bindR_lift_ok.
      destruct (Address.lt (AddressRange.end_ rg) addr); [|done].
      erewrite !bindR_node by done. cbn [RBNode.right].
      apply (IHr n); [done|set_solver|lia|lia].
Qed.

Lemma height_le_size t : height t ≤ length (locs t).
Proof.
  induction t as [|n rg l IHl r IHr]; [done|].
  rewrite locs_node, length_app. simpl. lia.
Qed.

(** In a set whose tree is red-black and holds [n] ranges, the loop of
    [find_range_containing], and with it [contains(addr)], ends within
    [2 * log2 (n + 1)] iterations. *)
Theorem find_ends_in_logarithmic_steps h s :
  red_black h s →
  ∃ tr root l,
    Obj.tree <$> sets h !! s = Some tr ∧
    Obj.root <$> trees h !! tr = Some root ∧
    AddressSet.get_address_ranges s h = Ok l ∧
    ∀ addr, ∃ res,
      RedBlackTree.find_loop (2 * Nat.log2 (length l + 1)) tr addr root h
      = Ok res ∧
      RedBlackTree.find_range_containing tr addr h = Ok res.
Proof.
  intros Hrb. destruct (red_black_height_bound h s Hrb) as (tr & nil & t & Hrep & Hh).
  pose proof Hrep as [Hobj [Hzip _] _ _].
  pose proof (zip_rep_size _ _ _ _ _ Hzip) as Hsize.
  pose proof Hzip as [Ht _ Hwf _ Hnil _]. simpl in *.
  rewrite app_nil_r in Hsize, Hnil.
  exists tr, (rl nil t), (ranges t). split_and!.
  - by rewrite Hobj.
  - by rewrite Ht.
  - by eapply get_address_ranges_spec.
  - intros addr.
    destruct (find_loop_spec h tr nil _ addr Ht t nil (length (nodes h)) Hwf Hnil Hsize)
      as (res & Hrun & _).
    exists res. split.
    + rewrite <- Hrun. eapply find_loop_fuel; try done.
      pose proof (height_le_size t). lia.
    + unfold RedBlackTree.find_range_containing.
      erewrite bindR_tree by done. cbn [Obj.root]. exact Hrun.
Qed.

Lemma find_ends_in_logarithmic_steps_witness :
  red_black balanced_example_heap 0 ∧
  ∃ tr root l,
    Obj.tree <$> sets balanced_example_heap !! 0 = Some tr ∧
    Obj.root <$> trees balanced_example_heap !! tr = Some root ∧
    AddressSet.get_address_ranges 0 balanced_example_heap = Ok l ∧
    ∀ addr, ∃ res,
      RedBlackTree.find_loop (2 * Nat.log2 (length l + 1)) tr addr root
        balanced_example_heap = Ok res ∧
      RedBlackTree.find_range_containing tr addr balanced_example_heap = Ok res.
Proof.
  split; [exact balanced_example_red_black|].
  exact (find_ends_in_logarithmic_steps balanced_example_heap 0
           balanced_example_red_black).
Defined.

Lemma keeps_ret s {A} (a : A) : keeps s (ret a).
Proof. by intros h a' h' Hrb [= _ <-]. Qed.

Lemma keeps_bind s {A B} (m : M A) (k : A → M B) :
  keeps s m → (∀ a, keeps s (k a)) → keeps s (bind m k).
Proof.
  intros Hm Hk h b h' Hrb. unfold bind.
  destruct (m h) as [[a h1]|] eqn:E; [|done].
  intros Hrun. eapply Hk; [|exact Hrun]. by eapply Hm.
Qed.

Lemma keeps_bind_rd s {A B} (m : Rd A) (k : A → M B) :
  (∀ h a, m h = Ok a → keeps s (k a)) → keeps s (bind (rd m) k).
Proof.
  intros Hk h b h' Hrb. unfold bind, rd.
  destruct (m h) as [a|] eqn:E; [|done].
  intros Hrun. eapply Hk; [exact E|exact Hrb|exact Hrun].
Qed.

Lemma keeps_for_each s {X} (body : X → M unit) xs :
  Forall (λ x, keeps s (body x)) xs → keeps s (for_each xs body).
Proof.
  induction 1 as [|x xs Hx _ IH]; [apply keeps_ret|].
  cbn [for_each]. apply keeps_bind; [done|]. by intros [].
Qed.

Lemma keeps_add s r : valid_range r → keeps s (AddressSet.add s r).
Proof.
  intros Hr h a h' Hrb Hrun.
  destruct (add_red_black h s r Hrb Hr) as (h1 & Hadd & Hrb1).
  rewrite Hadd in Hrun. by injection Hrun as _ <-.
Qed.

Lemma node_range_valid n h r :
  AddressSet.node_range n h = Ok r → valid_range r.
Proof.
  unfold AddressSet.node_range, bindR, node_get.
  destruct (nodes h !! n) as [nd|]; [|done]. simpl.
  destruct (RBNode.key nd) as [k|], (RBNode.value nd) as [v|]; simpl; try done.
  unfold liftR, retR. destruct (Address.lt v k) eqn:E; [done|].
  intros [= <-]. unfold valid_range, Address.lt in *. simpl.
  by apply Z.ltb_ge in E.
Qed.

Lemma node_ranges_valid ns : ∀ h l,
  AddressSet.node_ranges ns h = Ok l → Forall valid_range l.
Proof.
  induction ns as [|n ns IH]; intros h l.
  - by intros [= <-].
  - cbn [AddressSet.node_ranges]. unfold bindR, retR.
    destruct (AddressSet.node_range n h) as [r|] eqn:E; [|done].
    destruct (AddressSet.node_ranges ns h) as [rs|] eqn:E'; [|done].
    intros [= <-]. constructor; [by eapply node_range_valid|by eapply IH].
Qed.

(* Every range that [get_address_ranges] yields went through the constructor
   of [AddressRange]. *)
Lemma ranges_valid o h l :
  AddressSet.get_address_ranges o h = Ok l → Forall valid_range l.
Proof.
  unfold AddressSet.get_address_ranges, bindR.
  destruct (set_get Obj.tree o h) as [t|]; [|done].
  destruct (RedBlackTree.inorder t h) as [ns|]; [|done].
  apply node_ranges_valid.
Qed.

Lemma keeps_add_ranges s o {B} (k : M B) :
  keeps s k →
  keeps s (let! rs := rd (AddressSet.get_address_ranges o) in
           do! for_each rs (λ r, AddressSet.add s r) in k).
Proof.
  intros Hk. apply keeps_bind_rd. intros h rs Hrs.
  apply keeps_bind; [|done]. apply keeps_for_each.
  eapply Forall_impl; [exact (ranges_valid _ _ _ Hrs)|].
  intros r Hr. by apply keeps_add.
Qed.

Lemma keeps_intersect_pair s r1 r2 : keeps s (AddressSet.intersect_pair s r1 r2).
Proof.
  unfold AddressSet.intersect_pair.
  destruct (Address.le _ _) eqn:E; [|apply keeps_ret].
  apply keeps_bind_rd. intros h r. unfold liftR, AddressRange.init.
  destruct (Address.lt _ _) eqn:E'; [done|]. intros [= <-].
  apply keeps_add. unfold valid_range, Address.le in *. simpl.
  by apply Z.leb_le.
Qed.

(** The sets that [intersect] and [union] return hold red-black trees. *)
Theorem algebra_results_red_black h A B :
  well_formed h A → well_formed h B →
  (∃ R h', AddressSet.intersect A B h = Ok (R, h') ∧ red_black h' R) ∧
  (∃ R h', AddressSet.union A B h = Ok (R, h') ∧ red_black h' R).
Proof.
  intros [tA HA] [tB HB].
  destruct (init_red_black h None) as (h1 & Hinit & Hrb1); [intros r; discriminate|].
  split.
  - destruct (intersect_spec h A B tA tB HA HB) as (h' & _ & _ & _ & Hrun & _).
    exists (length (sets h)), h'. split; [done|].
    revert Hrun. unfold AddressSet.intersect.
    erewrite bind_ok by exact Hinit. revert Hrb1.
    generalize (length (sets h)). intros R Hrb1 Hrun.
    eapply (keeps_bind_rd R); [|exact Hrb1|exact Hrun].
    intros h0 rs1 _. apply keeps_bind; [|intros; apply keeps_ret].
    apply keeps_for_each, Forall_forall. intros r1 _.
    apply keeps_bind_rd. intros h2 rs2 _.
    apply keeps_for_each, Forall_forall. intros r2 _.
    apply keeps_intersect_pair.
  - destruct (union_spec h A B tA tB HA HB) as (h' & _ & _ & _ & Hrun & _).
    exists (length (sets h)), h'. split; [done|].
    revert Hrun. unfold AddressSet.union.
    erewrite bind_ok by exact Hinit. revert Hrb1.
    generalize (length (sets h)). intros R Hrb1 Hrun.
    eapply (keeps_add_ranges R A); [|exact Hrb1|exact Hrun].
    apply keeps_add_ranges. apply keeps_ret.
Qed.

Lemma algebra_results_red_black_witness :
  well_formed example_heap 0 ∧ well_formed example_heap 1 ∧
  (∃ R h', AddressSet.intersect 0 1 example_heap = Ok (R, h') ∧ red_black h' R) ∧
  (∃ R h', AddressSet.union 0 1 example_heap = Ok (R, h') ∧ red_black h' R).
Proof.
  split_and!; [exact (proj1 example_well_formed)|exact (proj2 example_well_formed)|..];
    apply (algebra_results_red_black example_heap 0 1
             (proj1 example_well_formed) (proj2 example_well_formed)).
Defined.
